(** * arm/util/connections.py: connection and application resolvers

    A shallow embedding of [src/arm/util/connections.py]:
    - [PortUsage]: the [PORT_USAGE] table, [conf_handler], [getPortUsage];
    - [ConnResolver]: one iteration of [ConnectionResolver.run] and the
      accessors of the class;
    - [Registry]: [getResolver] and [isResolverAlive] over the [RESOLVERS]
      list;
    - [AppResolver]: [AppResolver.resolve], [_queryApplications] and
      [getResults], with the worker threads and the condition variable made
      explicit; lists are handed on by value and a worker runs without
      interruption up to its [system.call] and from there to its end;
    - [AppThreads]: the same three methods with lists as objects that are
      shared and changed in place, and with a turn of the threads at every
      access of a worker to [failureCount].

    Python values are modelled as the code uses them: [str] as [string],
    [dict] as stdpp's [gmap], [list] as [list], [None] as [None : option _],
    integers as [Z].  Wall-clock times and durations (Python floats) are
    idealised as exact rationals [Q]; rounding is not modelled. *)

From Stdlib Require Import ZArith QArith Lqa List Ascii Bool Lia.
From stdpp Require Import base gmap strings list pretty.

Local Open Scope Z_scope.

(** ** Python built-ins on [str] used by the module *)

Module Py.

(** [s[n:]] *)
Fixpoint drop (n : nat) (s : string) : string :=
  match n, s with
  | O, _ => s
  | S _, EmptyString => EmptyString
  | S n', String _ s' => drop n' s'
  end.

(** [s[:n]] *)
Fixpoint take (n : nat) (s : string) : string :=
  match n, s with
  | O, _ => EmptyString
  | S _, EmptyString => EmptyString
  | S n', String c s' => String c (take n' s')
  end.

(** [s.startswith(p)] *)
Fixpoint startswith (p s : string) : bool :=
  match p, s with
  | EmptyString, _ => true
  | String _ _, EmptyString => false
  | String a p', String b s' => if Ascii.eqb a b then startswith p' s' else false
  end.

(** [s.find(c)] for a one-character needle; [None] stands for [-1]. *)
Fixpoint find_char (c : ascii) (s : string) : option nat :=
  match s with
  | EmptyString => None
  | String a s' =>
      if Ascii.eqb a c then Some O
      else match find_char c s' with
           | Some i => Some (S i)
           | None => None
           end
  end.

Definition is_digit_char (c : ascii) : bool :=
  match Ascii.is_nat c with Some _ => true | None => false end.

Fixpoint all_digits (s : string) : bool :=
  match s with
  | EmptyString => true
  | String c s' => is_digit_char c && all_digits s'
  end.

(** [s.isdigit()]: at least one character and all of them decimal digits. *)
Definition isdigit (s : string) : bool :=
  match s with
  | EmptyString => false
  | _ => all_digits s
  end.

(** [s.lstrip()], [s.rstrip()], [s.strip()] for ASCII white space. *)
Fixpoint lstrip (s : string) : string :=
  match s with
  | String c s' => if Ascii.is_space c then lstrip s' else s
  | EmptyString => EmptyString
  end.

Definition strip (s : string) : string :=
  String.rev (lstrip (String.rev (lstrip s))).

(** Value of a string of decimal digits, most significant first. *)
Fixpoint digits_value (acc : Z) (s : string) : option Z :=
  match s with
  | EmptyString => Some acc
  | String c s' =>
      match Ascii.is_nat c with
      | Some d => digits_value (10 * acc + Z.of_nat d) s'
      | None => None
      end
  end.

Definition unsigned_value (s : string) : option Z :=
  match s with
  | EmptyString => None
  | _ => digits_value 0 s
  end.

(** [int(s)] in base ten: surrounding white space, an optional sign, then
    one or more digits; [None] stands for [ValueError]. *)
Definition int (s : string) : option Z :=
  match strip s with
  | String "-" s' => Z.opp <$> unsigned_value s'
  | String "+" s' => unsigned_value s'
  | s' => unsigned_value s'
  end.

(** [str(n)] of an integer. *)
Definition str (n : Z) : string := pretty n.

(** [range(lo, hi)], the list the call returns when it returns one.  Python 2
    builds the list at once and raises [OverflowError] or [MemoryError] when
    it is too long for the platform; that limit is not modelled, so what is
    proved of a [range] is proved for ranges that can be built. *)
Definition range (lo hi : Z) : list Z := seqZ lo (hi - lo).

(** [sub in s] *)
Fixpoint contains (sub s : string) : bool :=
  startswith sub s ||
  match s with
  | EmptyString => false
  | String _ s' => contains sub s'
  end.

(** [s.split(sep)] for a non-empty [sep]: [cur] holds the piece being read,
    reversed, and [skip] counts the characters of a separator that was
    recognised and is still to be passed over. *)
Fixpoint split_go (sep : string) (skip : nat) (cur s : string) : list string :=
  match s with
  | EmptyString => [String.rev cur]
  | String c s' =>
      match skip with
      | S k => split_go sep k cur s'
      | O =>
          if startswith sep s
          then String.rev cur :: split_go sep (Nat.pred (String.length sep)) EmptyString s'
          else split_go sep O (String c cur) s'
      end
  end.

Definition split (sep s : string) : list string := split_go sep O EmptyString s.

(** [s.split()]: the words between runs of white space. *)
Definition split_ws (s : string) : list string := String.words s.

(** [sep.join(l)] *)
Fixpoint join (sep : string) (l : list string) : string :=
  match l with
  | [] => EmptyString
  | [x] => x
  | x :: rest => x +:+ sep +:+ join sep rest
  end.

End Py.

(** ** Port usage registry *)

Module PortUsage.

(** Keys a caller may hand to a Python [dict]: an [int] or a [str].  The two
    never compare equal, whatever their contents. *)
Inductive pyval : Type :=
| PyInt (n : Z)
| PyStr (s : string).

#[global] Instance pyval_eq_dec : EqDecision pyval.
Proof. solve_decision. Defined.

#[global] Instance pyval_countable : Countable pyval :=
  inj_countable'
    (fun v => match v with PyInt n => inl n | PyStr s => inr s end)
    (fun x => match x with inl n => PyInt n | inr s => PyStr s end)
    (fun v => match v with PyInt _ | PyStr _ => eq_refl end).

(** State touched by [conf_handler]: the global [PORT_USAGE] dict and the
    notices handed to [log.notice], oldest first. *)
Record registry : Type := mkRegistry {
  PORT_USAGE : gmap pyval string;
  notices : list string
}.

Definition initial : registry := mkRegistry ∅ [].

Definition log_notice (msg : string) (r : registry) : registry :=
  mkRegistry (PORT_USAGE r) (notices r ++ [msg]).

Definition set_usage (k : pyval) (value : string) (r : registry) : registry :=
  mkRegistry (<[k := value]> (PORT_USAGE r)) (notices r).

(** [for port in range(minPort, maxPort + 1): PORT_USAGE[str(port)] = value] *)
Definition fill_range (minPort maxPort : Z) (value : string) (r : registry)
  : registry :=
  foldl (fun acc port => set_usage (PyStr (Py.str port)) value acc)
        r (Py.range minPort (maxPort + 1)).

Definition conf_handler (key value : string) (r : registry) : registry :=
  if Py.startswith "port.label." key then
    let portEntry := Py.drop 11 key in
    match Py.find_char "-" portEntry with
    | None =>
        (* single port *)
        if Py.isdigit portEntry
        then set_usage (PyStr portEntry) value r
        else log_notice ("Port value isn't numeric for entry: " +:+ key) r
    | Some divIndex =>
        (* range of ports (inclusive); every ValueError ends in the handler *)
        match Py.int (Py.take divIndex portEntry),
              Py.int (Py.drop (S divIndex) portEntry) with
        | Some minPort, Some maxPort =>
            if minPort >? maxPort
            then log_notice ("Unable to parse port range for entry: " +:+ key) r
            else fill_range minPort maxPort value r
        | _, _ =>
            log_notice ("Unable to parse port range for entry: " +:+ key) r
        end
    end
  else r.

(** [PORT_USAGE.get(port)] *)
Definition getPortUsage (port : pyval) (r : registry) : option string :=
  PORT_USAGE r !! port.

(** The configuration is loaded by calling the handler once per entry. *)
Definition load (entries : list (string * string)) (r : registry) : registry :=
  foldl (fun acc kv => conf_handler (fst kv) (snd kv) acc) r entries.

(** Every key of the table is a [str]: the text of a single-port entry that
    passed [isdigit], or [str(port)] for a port of a range. *)
Definition str_keyed (r : registry) : Prop :=
  forall k label, PORT_USAGE r !! k = Some label ->
    exists s, k = PyStr s /\ (Py.isdigit s = true \/ exists port, s = Py.str port).

End PortUsage.

(** ** Connection resolver *)

Module ConnResolver.

(** [(local_address, local_port, remote_address, remote_port)] *)
Definition connection : Type := string * Z * string * Z.

(** Attributes of a [ConnectionResolver] instance.  The condition variable
    [_cond] only serves to cut the sleep short and carries no data. *)
Record ConnectionResolver : Type := mkResolver {
  processName : string;
  processPid : string;
  resolveRate : option Q;
  handle : string;
  defaultRate : Q;
  lastLookup : Q;
  overwriteResolver : option string;
  defaultResolver : option string;
  resolverOptions : list string;
  _connections : list connection;
  _resolutionCounter : Z;
  _isPaused : bool;
  _halt : bool;
  _subsiquentFailures : Z;
  _resolverBlacklist : list string;
  _rateThresholdBroken : Z
}.

(** Attribute assignments [self.x = v]. *)
Definition set_processPid (v : string) (s : ConnectionResolver) : ConnectionResolver :=
  mkResolver (processName s) v (resolveRate s) (handle s) (defaultRate s)
    (lastLookup s) (overwriteResolver s) (defaultResolver s)
    (resolverOptions s) (_connections s) (_resolutionCounter s)
    (_isPaused s) (_halt s) (_subsiquentFailures s) (_resolverBlacklist s)
    (_rateThresholdBroken s).

Definition set_defaultRate (v : Q) (s : ConnectionResolver) : ConnectionResolver :=
  mkResolver (processName s) (processPid s) (resolveRate s) (handle s) v
    (lastLookup s) (overwriteResolver s) (defaultResolver s)
    (resolverOptions s) (_connections s) (_resolutionCounter s)
    (_isPaused s) (_halt s) (_subsiquentFailures s) (_resolverBlacklist s)
    (_rateThresholdBroken s).

Definition set_lastLookup (v : Q) (s : ConnectionResolver) : ConnectionResolver :=
  mkResolver (processName s) (processPid s) (resolveRate s) (handle s)
    (defaultRate s) v (overwriteResolver s) (defaultResolver s)
    (resolverOptions s) (_connections s) (_resolutionCounter s)
    (_isPaused s) (_halt s) (_subsiquentFailures s) (_resolverBlacklist s)
    (_rateThresholdBroken s).

Definition set_overwriteResolver (v : option string) (s : ConnectionResolver) : ConnectionResolver :=
  mkResolver (processName s) (processPid s) (resolveRate s) (handle s)
    (defaultRate s) (lastLookup s) v (defaultResolver s) (resolverOptions s)
    (_connections s) (_resolutionCounter s) (_isPaused s) (_halt s)
    (_subsiquentFailures s) (_resolverBlacklist s) (_rateThresholdBroken s).

Definition set_defaultResolver (v : option string) (s : ConnectionResolver) : ConnectionResolver :=
  mkResolver (processName s) (processPid s) (resolveRate s) (handle s)
    (defaultRate s) (lastLookup s) (overwriteResolver s) v
    (resolverOptions s) (_connections s) (_resolutionCounter s)
    (_isPaused s) (_halt s) (_subsiquentFailures s) (_resolverBlacklist s)
    (_rateThresholdBroken s).

Definition set_connections (v : list connection) (s : ConnectionResolver) : ConnectionResolver :=
  mkResolver (processName s) (processPid s) (resolveRate s) (handle s)
    (defaultRate s) (lastLookup s) (overwriteResolver s) (defaultResolver s)
    (resolverOptions s) v (_resolutionCounter s) (_isPaused s) (_halt s)
    (_subsiquentFailures s) (_resolverBlacklist s) (_rateThresholdBroken s).

Definition set_resolutionCounter (v : Z) (s : ConnectionResolver) : ConnectionResolver :=
  mkResolver (processName s) (processPid s) (resolveRate s) (handle s)
    (defaultRate s) (lastLookup s) (overwriteResolver s) (defaultResolver s)
    (resolverOptions s) (_connections s) v (_isPaused s) (_halt s)
    (_subsiquentFailures s) (_resolverBlacklist s) (_rateThresholdBroken s).

Definition set_isPaused (v : bool) (s : ConnectionResolver) : ConnectionResolver :=
  mkResolver (processName s) (processPid s) (resolveRate s) (handle s)
    (defaultRate s) (lastLookup s) (overwriteResolver s) (defaultResolver s)
    (resolverOptions s) (_connections s) (_resolutionCounter s) v (_halt s)
    (_subsiquentFailures s) (_resolverBlacklist s) (_rateThresholdBroken s).

Definition set_halt (v : bool) (s : ConnectionResolver) : ConnectionResolver :=
  mkResolver (processName s) (processPid s) (resolveRate s) (handle s)
    (defaultRate s) (lastLookup s) (overwriteResolver s) (defaultResolver s)
    (resolverOptions s) (_connections s) (_resolutionCounter s)
    (_isPaused s) v (_subsiquentFailures s) (_resolverBlacklist s)
    (_rateThresholdBroken s).

Definition set_subsiquentFailures (v : Z) (s : ConnectionResolver) : ConnectionResolver :=
  mkResolver (processName s) (processPid s) (resolveRate s) (handle s)
    (defaultRate s) (lastLookup s) (overwriteResolver s) (defaultResolver s)
    (resolverOptions s) (_connections s) (_resolutionCounter s)
    (_isPaused s) (_halt s) v (_resolverBlacklist s)
    (_rateThresholdBroken s).

Definition set_resolverBlacklist (v : list string) (s : ConnectionResolver) : ConnectionResolver :=
  mkResolver (processName s) (processPid s) (resolveRate s) (handle s)
    (defaultRate s) (lastLookup s) (overwriteResolver s) (defaultResolver s)
    (resolverOptions s) (_connections s) (_resolutionCounter s)
    (_isPaused s) (_halt s) (_subsiquentFailures s) v
    (_rateThresholdBroken s).

Definition set_rateThresholdBroken (v : Z) (s : ConnectionResolver) : ConnectionResolver :=
  mkResolver (processName s) (processPid s) (resolveRate s) (handle s)
    (defaultRate s) (lastLookup s) (overwriteResolver s) (defaultResolver s)
    (resolverOptions s) (_connections s) (_resolutionCounter s)
    (_isPaused s) (_halt s) (_subsiquentFailures s) (_resolverBlacklist s) v.

(** Python truth value of a [str]-or-[None] and of a number-or-[None]. *)
Definition truthy_str (o : option string) : option string :=
  match o with
  | Some EmptyString | None => None
  | Some r => Some r
  end.

Definition truthy_rate (o : option Q) : option Q :=
  match o with
  | Some q => if Qeq_bool q 0%Q then None else Some q
  | None => None
  end.

(** [__init__]; [minRate] is [CONFIG["queries.connections.minRate"]] and
    [systemResolvers] what [connection.get_system_resolvers()] returned. *)
Definition init (minRate : Q) (systemResolvers : list string)
    (processName processPid : string) (resolveRate : option Q)
    (handle : option string) : ConnectionResolver :=
  {| processName := processName;
     processPid := processPid;
     resolveRate := resolveRate;
     handle := match truthy_str handle with Some h => h | None => processName end;
     defaultRate := minRate;
     lastLookup := (-1)%Q;
     overwriteResolver := None;
     defaultResolver := head systemResolvers;
     resolverOptions := systemResolvers;
     _connections := [];
     _resolutionCounter := 0;
     _isPaused := false;
     _halt := false;
     _subsiquentFailures := 0;
     _resolverBlacklist := [];
     _rateThresholdBroken := 0 |}.

Definition RESOLVER_FAILURE_TOLERANCE : Z := 3.

(** What the connection query service did on one call: it returned the
    connections, and [lookupTime] is [time.time() - resolveStart] (which
    includes the [time.sleep(2)] of the loop body); or it raised
    [ValueError] or [IOError] with the given text. *)
Inductive outcome : Type :=
| QueryOk (connResults : list connection) (lookupTime : Q)
| QueryFail (exc : string).

Inductive log_entry : Type :=
| LogTraceRate (rate : Q)
| LogInfo (msg : string)
| LogSerialFailure (resolver newResolver : string)
| LogFinalFailure.

(** What one pass through the body of the [while] loop did. *)
Inductive action : Type :=
| Terminated
| Slept (sleepTime : Q)
| NoResolver
| Queried (resolver : string).

Record result : Type := mkResult {
  state : ConnectionResolver;
  did : action;
  logged : list log_entry
}.

(** Lines 264-272: the rate threshold and its debounce counter. *)
Definition adapt_rate (lookupTime : Q) (s : ConnectionResolver) : ConnectionResolver * list log_entry :=
  let newMinDefaultRate := (100 * lookupTime)%Q in
  if Qlt_le_dec (defaultRate s) newMinDefaultRate then
    if 3 <=? _rateThresholdBroken s then
      let s := set_defaultRate (newMinDefaultRate + (1 # 2))%Q s in
      (s, [LogTraceRate (defaultRate s)])
    else (set_rateThresholdBroken (_rateThresholdBroken s + 1) s, [])
  else (set_rateThresholdBroken 0 s, []).

(** Lines 292-296: the first option that is not blacklisted. *)
Fixpoint pick_resolver (options blacklist : list string) : option string :=
  match options with
  | [] => None
  | r :: rest =>
      if bool_decide (r ∈ blacklist) then pick_resolver rest blacklist
      else Some r
  end.

(** Lines 283-305: bookkeeping of a failure of the default resolver. *)
Definition note_failure (resolver : string) (s : ConnectionResolver) : ConnectionResolver * list log_entry :=
  let s := set_subsiquentFailures (_subsiquentFailures s + 1) s in
  if RESOLVER_FAILURE_TOLERANCE <=? _subsiquentFailures s then
    let s := set_resolverBlacklist (_resolverBlacklist s ++ [resolver]) s in
    let s := set_subsiquentFailures 0 s in
    let newResolver := pick_resolver (resolverOptions s) (_resolverBlacklist s) in
    let msg := match truthy_str newResolver with
               | Some n => LogSerialFailure resolver n
               | None => LogFinalFailure
               end in
    (set_defaultResolver newResolver s, [msg])
  else (s, []).

(** Lines 245-246: [isDefault] and [resolver]. *)
Definition is_default (s : ConnectionResolver) : bool :=
  match overwriteResolver s with None => true | Some _ => false end.

Definition current_resolver (s : ConnectionResolver) : option string :=
  if is_default s then defaultResolver s else overwriteResolver s.

(** Lines 245-307: the part of the loop body after the wait, a poll cycle.
    [now] is the clock when the cycle ends.  An exception other than
    [ValueError] and [IOError] would leave the loop and is not an [outcome]. *)
Definition poll_cycle (now : Q) (o : outcome) (s : ConnectionResolver) : result :=
  let isDefault := is_default s in
  match truthy_str (current_resolver s) with
  | None => mkResult (set_lastLookup now s) NoResolver []
  | Some resolver =>
      match o with
      | QueryOk connResults lookupTime =>
          let s := set_connections connResults s in
          let s := set_resolutionCounter (_resolutionCounter s + 1) s in
          let '(s, log1) := adapt_rate lookupTime s in
          let s := if isDefault then set_subsiquentFailures 0 s else s in
          mkResult (set_lastLookup now s) (Queried resolver) log1
      | QueryFail exc =>
          let log1 := if Py.startswith "No results found using:" exc
                      then [LogInfo exc] else [] in
          let '(s, log2) := if isDefault then note_failure resolver s else (s, []) in
          mkResult (set_lastLookup now s) (Queried resolver) (log1 ++ log2)
      end
  end.

(** A run of successful cycles that all measured the same [lookupTime]. *)
Definition all_ok (t : Q) (cycles : list (Q * outcome)) : Prop :=
  Forall (fun c => exists connResults, snd c = QueryOk connResults t) cycles.

Definition Qmax (a b : Q) : Q := if Qlt_le_dec a b then b else a.

(** Lines 232-307: one pass of [while not self._halt].  [start] is the clock
    read at the top of the pass, [now] the one read when a cycle ends. *)
Definition run_iteration (start now : Q) (o : outcome) (s : ConnectionResolver) : result :=
  if _halt s then mkResult s Terminated []
  else
    let minWait := match truthy_rate (resolveRate s) with
                   | Some r => r
                   | None => defaultRate s
                   end in
    let timeSinceReset := (start - lastLookup s)%Q in
    if _isPaused s || (if Qlt_le_dec timeSinceReset minWait then true else false)
    then mkResult s (Slept (Qmax (2 # 10) (minWait - timeSinceReset)%Q)) []
    else poll_cycle now o s.

Definition getOverwriteResolver (s : ConnectionResolver) : option string := overwriteResolver s.

Definition setOverwriteResolver (overwriteResolver : option string) (s : ConnectionResolver)
  : ConnectionResolver := set_overwriteResolver overwriteResolver s.

Definition getConnections (s : ConnectionResolver) : list connection :=
  if _halt s then [] else _connections s.

Definition getResolutionCount (s : ConnectionResolver) : Z := _resolutionCounter s.

Definition getPid (s : ConnectionResolver) : string := processPid s.

Definition setPid (processPid : string) (s : ConnectionResolver) : ConnectionResolver :=
  set_processPid processPid s.

Definition setPaused (isPause : bool) (s : ConnectionResolver) : ConnectionResolver :=
  if Bool.eqb isPause (_isPaused s) then s else set_isPaused isPause s.

Definition stop (s : ConnectionResolver) : ConnectionResolver := set_halt true s.

(** Everything that can happen to an instance: a call of one of its methods
    by some thread, or one pass of its own loop. *)
Inductive op : Type :=
| OpSetOverwriteResolver (r : option string)
| OpSetPid (pid : string)
| OpSetPaused (isPause : bool)
| OpStop
| OpRun (start now : Q) (o : outcome).

Definition apply_op (s : ConnectionResolver) (x : op) : ConnectionResolver :=
  match x with
  | OpSetOverwriteResolver r => setOverwriteResolver r s
  | OpSetPid pid => setPid pid s
  | OpSetPaused b => setPaused b s
  | OpStop => stop s
  | OpRun start now o => state (run_iteration start now o s)
  end.

Definition apply_ops (s : ConnectionResolver) (xs : list op) : ConnectionResolver :=
  foldl apply_op s xs.

(** A run of poll cycles, each with its own clock reading and outcome. *)
Definition poll_cycles (s : ConnectionResolver) (cycles : list (Q * outcome)) : ConnectionResolver :=
  foldl (fun acc c => state (poll_cycle (fst c) (snd c) acc)) s cycles.

(** [minWait] of line 233. *)
Definition minWait (s : ConnectionResolver) : Q :=
  match truthy_rate (resolveRate s) with
  | Some r => r
  | None => defaultRate s
  end.

(** A run of failed cycles. *)
Definition all_failed (cycles : list (Q * outcome)) : Prop :=
  Forall (fun c => exists exc, snd c = QueryFail exc) cycles.

(** What the fallback of lines 283-305 keeps true of the resolver state: the
    blacklist holds options only, each once; the failure counter stays below
    the tolerance; and the default resolver, when there is one, is an option
    that is not blacklisted. *)
Definition backend_inv (s : ConnectionResolver) : Prop :=
  NoDup (_resolverBlacklist s) /\
  (forall r, r ∈ _resolverBlacklist s -> r ∈ resolverOptions s) /\
  0 <= _subsiquentFailures s < RESOLVER_FAILURE_TOLERANCE /\
  match defaultResolver s with
  | Some r => r ∈ resolverOptions s /\ r ∉ _resolverBlacklist s
  | None => True
  end.

(** Options that are not blacklisted yet. *)
Definition remaining (s : ConnectionResolver) : list string :=
  filter (fun r => r ∉ _resolverBlacklist s) (resolverOptions s).

(** Failures still to come before the default resolver is gone, at most. *)
Definition failures_left (s : ConnectionResolver) : Z :=
  match truthy_str (defaultResolver s) with
  | Some _ => 3 * Z.of_nat (length (remaining s)) - _subsiquentFailures s
  | None => 0
  end.

(** Every attribute but [lastLookup] has the same value in [a] and in [b]. *)
Definition same_but_lastLookup (a b : ConnectionResolver) : Prop :=
  processName a = processName b /\ processPid a = processPid b /\
  resolveRate a = resolveRate b /\ handle a = handle b /\
  defaultRate a = defaultRate b /\
  overwriteResolver a = overwriteResolver b /\
  defaultResolver a = defaultResolver b /\
  resolverOptions a = resolverOptions b /\
  _connections a = _connections b /\
  _resolutionCounter a = _resolutionCounter b /\
  _isPaused a = _isPaused b /\ _halt a = _halt b /\
  _subsiquentFailures a = _subsiquentFailures b /\
  _resolverBlacklist a = _resolverBlacklist b /\
  _rateThresholdBroken a = _rateThresholdBroken b.

End ConnResolver.

(** ** Resolver registry *)

Module Registry.
Import ConnResolver.

Definition RECREATE_HALTED_RESOLVERS : bool := false.

(** [not processPid or resolver.processPid == processPid] *)
Definition pid_matches (pid : string) (resolver : ConnectionResolver) : bool :=
  match pid with
  | EmptyString => true
  | _ => String.eqb (processPid resolver) pid
  end.

(** Lines 89-93, over the list [RESOLVERS]. *)
Definition isResolverAlive (name pid : string) (RESOLVERS : list ConnectionResolver)
  : bool :=
  existsb (fun resolver =>
             negb (_halt resolver) && String.eqb (processName resolver) name
             && pid_matches pid resolver)
          RESOLVERS.

(** The test of line 112. *)
Definition handle_matches (requestHandle pid : string) (resolver : ConnectionResolver)
  : bool :=
  String.eqb (handle resolver) requestHandle && pid_matches pid resolver.

(** How the loop of lines 110-114 ends: it returns [RESOLVERS[i]], or it
    runs out with [haltedIndex] ([None] for [-1]). *)
Inductive lookup_result : Type :=
| Existing (i : nat)
| Missing (haltedIndex : option nat).

(** Lines 110-114, from index [i] on. *)
Fixpoint scan (recreate : bool) (requestHandle pid : string) (i : nat)
    (haltedIndex : option nat) (resolvers : list ConnectionResolver) : lookup_result :=
  match resolvers with
  | [] => Missing haltedIndex
  | resolver :: rest =>
      if handle_matches requestHandle pid resolver then
        if _halt resolver && recreate
        then scan recreate requestHandle pid (S i) (Some i) rest
        else Existing i
      else scan recreate requestHandle pid (S i) haltedIndex rest
  end.

(** [alias if alias else processName] *)
Definition request_handle (name : string) (alias : option string) : string :=
  match truthy_str alias with Some a => a | None => name end.

(** Lines 95-123, with the value of [RECREATE_HALTED_RESOLVERS] as [recreate].
    An instance is known by its place in [RESOLVERS]: the result is that
    place and the list afterwards.  [minRate] and [systemResolvers] are what
    the constructor reads from the configuration and from stem. *)
Definition getResolver_with (recreate : bool) (minRate : Q)
    (systemResolvers : list string) (name pid : string) (alias : option string)
    (RESOLVERS : list ConnectionResolver) : nat * list ConnectionResolver :=
  let requestHandle := request_handle name alias in
  match scan recreate requestHandle pid 0 None RESOLVERS with
  | Existing i => (i, RESOLVERS)
  | Missing haltedIndex =>
      let r := init minRate systemResolvers name pid None (Some requestHandle) in
      match haltedIndex with
      | None => (length RESOLVERS, RESOLVERS ++ [r])
      | Some i => (i, <[i := r]> RESOLVERS)
      end
  end.

Definition getResolver : Q -> list string -> string -> string -> option string ->
    list ConnectionResolver -> nat * list ConnectionResolver :=
  getResolver_with RECREATE_HALTED_RESOLVERS.

End Registry.

(** ** Application resolver *)

Module AppResolver.

(** [(iPort, oPort, cmd, pid)], all of them [str] as split from the line. *)
Definition entry : Type := string * string * string * string.

Definition entry_cmd (e : entry) : string := snd (fst e).

(** Attributes of an [AppResolver] instance.  [resultsLock] only guards the
    assignments and holds no data; the callers asleep on [_cond] are kept in
    [world] below.  Ports are the strings lsof prints. *)
Record AppResolver : Type := mkAppResolver {
  scriptName : string;
  queryResults : gmap string (list entry);
  isResolving : bool;
  failureCount : Z
}.

Definition init (scriptName : string) : AppResolver :=
  mkAppResolver scriptName ∅ false 0.

(** A worker thread created by [resolve]: started and not yet scheduled,
    blocked in [system.call] with its local [results] and the command it
    issued, or gone (returned, or died on an uncaught exception). *)
Inductive thread : Type :=
| Started (ports : list string)
| Calling (ports : list string) (results : gmap string (list entry)) (command : string)
| Returned
| Died.

(** The instance together with the threads around it: the workers, in
    creation order, and the callers blocked in [self._cond.wait]. *)
Record world : Type := mkWorld {
  obj : AppResolver;
  threads : list thread;
  waiting : list nat
}.

Definition fresh (scriptName : string) : world := mkWorld (init scriptName) [] [].

Definition with_obj (r : AppResolver) (w : world) : world :=
  mkWorld r (threads w) (waiting w).

(** [self._cond.notifyAll()] *)
Definition notifyAll (w : world) : world := mkWorld (obj w) (threads w) [].

(** Lines 410-423. *)
Definition resolve (ports : list string) (w : world) : world :=
  if failureCount (obj w) <? 3 then
    let r := obj w in
    mkWorld (mkAppResolver (scriptName r) (queryResults r) true (failureCount r))
            (threads w ++ [Started ports]) (waiting w)
  else w.

(** Lines 399-402: whether the caller of [getResults] goes to sleep. *)
Definition getResults_blocks (maxWait : Q) (r : AppResolver) : bool :=
  isResolving r && (if Qlt_le_dec 0 maxWait then true else false).

(** Lines 404-408: the copy handed back once the caller is past the wait. *)
Definition getResults_value (r : AppResolver) : gmap string (list entry) :=
  queryResults r.

(** Lines 461-464: cached ports are reused, the others go to lsof.  The
    cached list is taken by value; [AppThreads.partition_ports] takes the list
    object itself. *)
Definition partition_ports (cache : gmap string (list entry)) (ports : list string)
  : gmap string (list entry) * list string :=
  foldl (fun acc port =>
           match cache !! port with
           | Some cached => (<[port := cached]> (fst acc), snd acc)
           | None => (fst acc, snd acc ++ ["-i tcp:" +:+ port])
           end)
        (∅, []) ports.

(** Lines 501-505, on the contents of [results]: what the worker finds in
    [results] afterwards.  That [append] also changes a list the cache still
    holds is in [AppThreads.add_entry]. *)
Definition add_entry (ports : list string) (newEntry : entry)
    (results : gmap string (list entry)) (portMatch : string)
  : gmap string (list entry) :=
  if bool_decide (portMatch ∈ ports) then
    match results !! portMatch with
    | Some l => <[portMatch := l ++ [newEntry]]> results
    | None => <[portMatch := [newEntry]]> results
    end
  else results.

(** Lines 481-505: one line of lsof output.  The accumulator holds [results]
    and [ourConnection]; [None] is an uncaught [ValueError] (unpacking the
    split at the arrow) or [IndexError] (no colon in a side). *)
Definition parse_line (ownPid script : string) (ports : list string)
    (acc : gmap string (list entry) * option (string * string)) (line : string)
  : option (gmap string (list entry) * option (string * string)) :=
  match Py.split_ws line with
  | [cmd; pid; _; _; _; _; _; _; portMap; status] =>
      if String.eqb status "(ESTABLISHED)" && Py.contains "->" portMap then
        match Py.split "->" portMap with
        | [iPort; oPort] =>
            match Py.split ":" iPort, Py.split ":" oPort with
            | _ :: iPort :: _, _ :: oPort :: _ =>
                let own := String.eqb pid ownPid in
                let cmd := if own then script else cmd in
                let ourConnection := if own then Some (iPort, oPort) else snd acc in
                if Py.isdigit iPort && Py.isdigit oPort then
                  let newEntry := (iPort, oPort, cmd, pid) in
                  Some (foldl (add_entry ports newEntry) (fst acc) [iPort; oPort],
                        ourConnection)
                else Some (fst acc, ourConnection)
            | _, _ => None
            end
        | _ => None
        end
      else Some acc
  | _ => Some acc
  end.

Fixpoint parse_lines (ownPid script : string) (ports : list string)
    (acc : gmap string (list entry) * option (string * string))
    (lines : list string)
  : option (gmap string (list entry) * option (string * string)) :=
  match lines with
  | [] => Some acc
  | line :: rest =>
      match parse_line ownPid script ports acc line with
      | Some acc' => parse_lines ownPid script ports acc' rest
      | None => None
      end
  end.

(** Lines 511-519: drop the first entry whose command is [sh]. *)
Fixpoint drop_sh (l : list entry) : list entry :=
  match l with
  | [] => []
  | e :: rest => if String.eqb (entry_cmd e) "sh" then rest else e :: drop_sh rest
  end.

(** Lines 507-519, on the contents of [results]; [AppThreads.drop_own_sh]
    deletes from the list object. *)
Definition drop_own_sh (ourConnection : option (string * string))
    (results : gmap string (list entry)) : gmap string (list entry) :=
  match ourConnection with
  | Some (iPort, oPort) => alter drop_sh oPort (alter drop_sh iPort results)
  | None => results
  end.

(** Lines 476-519: [results] after reading a non-empty lsof output. *)
Definition read_lsof (ownPid script : string) (ports : list string)
    (results : gmap string (list entry)) (lsofResults : list string)
  : option (gmap string (list entry)) :=
  match parse_lines ownPid script ports (results, None) lsofResults with
  | Some (results, ourConnection) => Some (drop_own_sh ourConnection results)
  | None => None
  end.

(** How the body of [_queryApplications] ends: it returns, having called
    [notifyAll] or not, or an exception ends the thread. *)
Inductive ending : Type :=
| Return (r : AppResolver) (notified : bool)
| Raise.

(** Lines 440-451. *)
Definition clear_results (r : AppResolver) : ending :=
  Return (mkAppResolver (scriptName r) ∅ false (failureCount r)) true.

(** Lines 470-530: the body once lsof has answered ([None]: not called, or
    the call gave nothing). *)
Definition after_lsof (ownPid : string) (ports : list string)
    (results : gmap string (list entry)) (lsofResults : option (list string))
    (r : AppResolver) : ending :=
  match lsofResults with
  | Some (line :: rest) =>
      match read_lsof ownPid (scriptName r) ports results (line :: rest) with
      | Some results => Return (mkAppResolver (scriptName r) results false (-1)) true
      | None => Raise
      end
  | _ =>
      if negb (failureCount r =? -1)
      then Return (mkAppResolver (scriptName r) (queryResults r) false
                                 (failureCount r + 1)) false
      else Return (mkAppResolver (scriptName r) results false (-1)) true
  end.

(** Lines 425-530 run without interruption, with [call] standing for
    [system.call]. *)
Definition _queryApplications (ownPid : string)
    (call : string -> option (list string)) (ports : list string)
    (r : AppResolver) : ending :=
  match ports with
  | [] => clear_results r
  | _ =>
      let '(results, lsofArgs) := partition_ports (queryResults r) ports in
      let lsofResults :=
        match lsofArgs with
        | [] => None
        | _ => call ("lsof -nP " +:+ Py.join " " lsofArgs)
        end in
      after_lsof ownPid ports results lsofResults r
  end.

Definition set_thread (i : nat) (t : thread) (w : world) : world :=
  mkWorld (obj w) (<[i := t]> (threads w)) (waiting w).

(** A worker leaves the body. *)
Definition finish (i : nat) (e : ending) (w : world) : world :=
  match e with
  | Return r true => notifyAll (with_obj r (set_thread i Returned w))
  | Return r false => with_obj r (set_thread i Returned w)
  | Raise => set_thread i Died w
  end.

(** What can happen next: a caller enters [resolve] or [getResults], a
    started worker runs up to its [system.call] (or to the end when it has
    nothing to ask), a pending [system.call] returns and the worker runs to
    its end, or a sleeping caller's [maxWait] runs out.  Each of these is
    taken as one atomic step: threads are interleaved where a worker blocks
    in [system.call], not inside the statements before and after it, and
    [system.call] is taken to return.  [AppThreads.step] has the turns inside
    lines 470-475 and a [system.call] that raises. *)
Inductive event : Type :=
| CallResolve (ports : list string)
| CallGetResults (caller : nat) (maxWait : Q)
| WorkerStarts (i : nat)
| LsofReturns (i : nat) (lsofResults : option (list string))
| WaitTimesOut (caller : nat).

Definition step (ownPid : string) (w : world) (e : event) : world :=
  match e with
  | CallResolve ports => resolve ports w
  | CallGetResults caller maxWait =>
      if getResults_blocks maxWait (obj w)
      then mkWorld (obj w) (threads w) (waiting w ++ [caller])
      else w
  | WorkerStarts i =>
      match threads w !! i with
      | Some (Started []) => finish i (clear_results (obj w)) w
      | Some (Started ports) =>
          match partition_ports (queryResults (obj w)) ports with
          | (results, []) => finish i (after_lsof ownPid ports results None (obj w)) w
          | (results, lsofArgs) =>
              set_thread i (Calling ports results ("lsof -nP " +:+ Py.join " " lsofArgs)) w
          end
      | _ => w
      end
  | LsofReturns i lsofResults =>
      match threads w !! i with
      | Some (Calling ports results _) =>
          finish i (after_lsof ownPid ports results lsofResults (obj w)) w
      | _ => w
      end
  | WaitTimesOut caller =>
      mkWorld (obj w) (threads w) (filter (fun c => c ≠ caller) (waiting w))
  end.

Definition run (ownPid : string) (w : world) (es : list event) : world :=
  foldl (step ownPid) w es.

(** Workers that have not left the body yet. *)
Definition in_flight (t : thread) : bool :=
  match t with
  | Started _ | Calling _ _ _ => true
  | Returned | Died => false
  end.

Definition count_in_flight (w : world) : nat :=
  length (filter (fun t => in_flight t = true) (threads w)).

(** No worker is in the body. *)
Definition idle (w : world) : Prop :=
  Forall (fun t => in_flight t = false) (threads w).

(** The mapping the body builds for [ports] out of the cache it finds and the
    answer of lsof, when it gets to line 521; [None] when an exception ends
    it before. *)
Definition built (ownPid script : string) (ports : list string)
    (cache : gmap string (list entry)) (lsofResults : option (list string))
  : option (gmap string (list entry)) :=
  match partition_ports cache ports with
  | (results, []) => Some results
  | (results, _) =>
      match lsofResults with
      | Some (line :: rest) => read_lsof ownPid script ports results (line :: rest)
      | _ => Some results
      end
  end.

(** Events other than a further call of [resolve], with lsof answering
    [oA] or [oB]. *)
Definition answers (oA oB : option (list string)) (e : event) : Prop :=
  match e with
  | CallResolve _ => False
  | LsofReturns _ o => o = oA \/ o = oB
  | _ => True
  end.

(** [system.call] gave nothing: [None], or an empty list of lines. *)
Definition nothing (lsofResults : option (list string)) : Prop :=
  lsofResults = None \/ lsofResults = Some [].

(** Ports that were not asked for are not in [results]. *)
Definition only_asked (ports : list string) (results : gmap string (list entry)) : Prop :=
  forall q, q ∉ ports -> results !! q = None.

(** Two workers for the one port [p], started on a cache [c0], with lsof
    answering [oA] or [oB]: the cache is [c0], or all of what one of the two
    built. *)
Definition whole (ownPid script p : string) (c0 : gmap string (list entry))
    (oA oB : option (list string)) (c : gmap string (list entry)) : Prop :=
  c = c0 \/ Some c = built ownPid script [p] c0 oA \/
  Some c = built ownPid script [p] c0 oB.

(** Such a worker, where it can be: when it waits for lsof, [p] was not
    cached and its [results] are still empty. *)
Definition thread_ok (p : string) (c0 : gmap string (list entry)) (t : thread) : Prop :=
  match t with
  | Started ports => ports = [p]
  | Calling ports results _ => ports = [p] /\ results = ∅ /\ c0 !! p = None
  | Returned | Died => True
  end.

Definition inv (ownPid script p : string) (c0 : gmap string (list entry))
    (oA oB : option (list string)) (w : world) : Prop :=
  scriptName (obj w) = script /\
  whole ownPid script p c0 oA oB (queryResults (obj w)) /\
  Forall (thread_ok p c0) (threads w).

Definition entry_iPort (e : entry) : string := fst (fst (fst e)).
Definition entry_oPort (e : entry) : string := snd (fst (fst e)).
Definition entry_pid (e : entry) : string := snd e.

(** An entry as lines 487-505 file it under [key]: [key] is one of its two
    ports, both ports are numeric, and an entry of our own process carries
    [scriptName] as its command. *)
Definition entry_ok (ownPid script key : string) (e : entry) : Prop :=
  (key = entry_iPort e \/ key = entry_oPort e) /\
  Py.isdigit (entry_iPort e) = true /\ Py.isdigit (entry_oPort e) = true /\
  (entry_pid e = ownPid -> entry_cmd e = script).

Definition results_ok (ownPid script : string) (results : gmap string (list entry))
  : Prop :=
  forall key l e, results !! key = Some l -> e ∈ l -> entry_ok ownPid script key e.

(** [results] of a worker that is waiting for lsof. *)
Definition thread_results (t : thread) : gmap string (list entry) :=
  match t with
  | Calling _ results _ => results
  | _ => ∅
  end.

(** What every step keeps true of an instance and its workers. *)
Definition sound (ownPid script : string) (w : world) : Prop :=
  scriptName (obj w) = script /\
  -1 <= failureCount (obj w) /\
  (failureCount (obj w) <> -1 -> queryResults (obj w) = ∅) /\
  results_ok ownPid script (queryResults (obj w)) /\
  Forall (fun t => results_ok ownPid script (thread_results t)) (threads w).

(** The test of lines 483 and 486: ten fields, the last of them
    [(ESTABLISHED)], and an arrow in the ninth. *)
Definition established_shape (line : string) : bool :=
  match Py.split_ws line with
  | [_; _; _; _; _; _; _; _; portMap; status] =>
      String.eqb status "(ESTABLISHED)" && Py.contains "->" portMap
  | _ => false
  end.

(** An established line that lines 487-489 cannot take apart: the port map
    does not split into two sides at the arrow ([ValueError]), or a side has
    no colon ([IndexError]). *)
Definition malformed_shape (line : string) : bool :=
  match Py.split_ws line with
  | [_; _; _; _; _; _; _; _; portMap; status] =>
      String.eqb status "(ESTABLISHED)" && Py.contains "->" portMap &&
      match Py.split "->" portMap with
      | [iPort; oPort] =>
          match Py.split ":" iPort, Py.split ":" oPort with
          | _ :: _ :: _, _ :: _ :: _ => false
          | _, _ => true
          end
      | _ => true
      end
  | _ => false
  end.

End AppResolver.

(** ** Application resolver: list objects and the turns of the threads

    [AppResolver] above hands lists on by value and lets the threads take
    turns only where a worker waits in [system.call].  Python hands on
    references, and the lines of a worker that touch [failureCount] run
    outside [resultsLock].  Here a list is an object with an address, so that
    line 463 puts the cache's own list into [results] and lines 504 and 519
    change it in place for everyone who holds it; and a worker can be followed
    by another thread at each of its accesses to [failureCount]: after the test
    of line 470, between the read and the write of line 473, before line 474,
    and before line 522.  The statements between two such points, and the
    reading of the lsof output, run in one step. *)

Module AppThreads.

Abbreviation entry := AppResolver.entry.

(** The list objects the workers have created, by address, and a [dict] from
    ports to lists. *)
Abbreviation heap := (list (list entry)).
Abbreviation dict := (gmap string nat).

Record AppResolver : Type := mkAppResolver {
  scriptName : string;
  queryResults : dict;
  isResolving : bool;
  failureCount : Z
}.

Definition init (scriptName : string) : AppResolver :=
  mkAppResolver scriptName ∅ false 0.

(** Where a worker is: created by [resolve] and not yet run; waiting in
    [system.call]; in the branch of line 470 before line 473; in line 473 with
    the counter read and not yet written; before line 474; before line 521
    with its [results]; or gone (returned, or ended by an exception). *)
Inductive thread : Type :=
| Started (ports : list string)
| Calling (ports : list string) (results : dict) (command : string)
| Failing
| Counting (seen : Z)
| Clearing
| Publishing (results : dict)
| Returned
| Died.

Record world : Type := mkWorld {
  obj : AppResolver;
  lists : heap;
  threads : list thread;
  waiting : list nat
}.

Definition fresh (scriptName : string) : world :=
  mkWorld (init scriptName) [] [] [].

Definition set_obj (r : AppResolver) (w : world) : world :=
  mkWorld r (lists w) (threads w) (waiting w).

Definition set_lists (h : heap) (w : world) : world :=
  mkWorld (obj w) h (threads w) (waiting w).

Definition set_thread (i : nat) (t : thread) (w : world) : world :=
  mkWorld (obj w) (lists w) (<[i := t]> (threads w)) (waiting w).

(** [self._cond.notifyAll()] *)
Definition notifyAll (w : world) : world :=
  mkWorld (obj w) (lists w) (threads w) [].

(** Lines 410-423. *)
Definition resolve (ports : list string) (w : world) : world :=
  if failureCount (obj w) <? 3 then
    let r := obj w in
    mkWorld (mkAppResolver (scriptName r) (queryResults r) true (failureCount r))
            (lists w) (threads w ++ [Started ports]) (waiting w)
  else w.

(** Lines 399-402: whether the caller of [getResults] goes to sleep. *)
Definition getResults_blocks (maxWait : Q) (r : AppResolver) : bool :=
  isResolving r && (if Qlt_le_dec 0 maxWait then true else false).

(** What is found behind the addresses of a dict. *)
Definition contents (h : heap) (d : dict) : gmap string (list entry) :=
  omap (fun a => h !! a) d.

(** Lines 404-408: [dict(self.queryResults)] copies the dict, not the lists;
    this is what the caller finds in them when it looks. *)
Definition getResults_value (w : world) : gmap string (list entry) :=
  contents (lists w) (queryResults (obj w)).

(** Lines 461-464: [results[port] = self.queryResults[port]] is the cached
    list itself. *)
Definition partition_ports (cache : dict) (ports : list string)
  : dict * list string :=
  foldl (fun acc port =>
           match cache !! port with
           | Some cached => (<[port := cached]> (fst acc), snd acc)
           | None => (fst acc, snd acc ++ ["-i tcp:" +:+ port])
           end)
        (∅, []) ports.

(** Lines 501-505: [append] changes the list that is there, [[newEntry]] is
    a new list. *)
Definition add_entry (ports : list string) (newEntry : entry)
    (acc : heap * dict) (portMatch : string) : heap * dict :=
  if bool_decide (portMatch ∈ ports) then
    match snd acc !! portMatch with
    | Some a => (alter (fun l => l ++ [newEntry]) a (fst acc), snd acc)
    | None => (fst acc ++ [[newEntry]], <[portMatch := length (fst acc)]> (snd acc))
    end
  else acc.

(** Lines 481-505: one line of lsof output; [None] is the uncaught
    [ValueError] or [IndexError] of lines 487-489, raised before the line has
    changed anything. *)
Definition parse_line (ownPid script : string) (ports : list string)
    (acc : heap * dict * option (string * string)) (line : string)
  : option (heap * dict * option (string * string)) :=
  match Py.split_ws line with
  | [cmd; pid; _; _; _; _; _; _; portMap; status] =>
      if String.eqb status "(ESTABLISHED)" && Py.contains "->" portMap then
        match Py.split "->" portMap with
        | [iPort; oPort] =>
            match Py.split ":" iPort, Py.split ":" oPort with
            | _ :: iPort :: _, _ :: oPort :: _ =>
                let own := String.eqb pid ownPid in
                let cmd := if own then script else cmd in
                let ourConnection := if own then Some (iPort, oPort) else snd acc in
                if Py.isdigit iPort && Py.isdigit oPort then
                  let newEntry := (iPort, oPort, cmd, pid) in
                  Some (foldl (add_entry ports newEntry) (fst acc) [iPort; oPort],
                        ourConnection)
                else Some (fst acc, ourConnection)
            | _, _ => None
            end
        | _ => None
        end
      else Some acc
  | _ => Some acc
  end.

(** How the reading of the output ends: at its last line, or with an
    exception; the lists are then as the lines read so far have left them. *)
Inductive reading : Type :=
| Parsed (h : heap) (results : dict) (ourConnection : option (string * string))
| Raised (h : heap).

Fixpoint parse_lines (ownPid script : string) (ports : list string)
    (acc : heap * dict * option (string * string)) (lines : list string)
  : reading :=
  match lines with
  | [] => Parsed (fst (fst acc)) (snd (fst acc)) (snd acc)
  | line :: rest =>
      match parse_line ownPid script ports acc line with
      | Some acc' => parse_lines ownPid script ports acc' rest
      | None => Raised (fst (fst acc))
      end
  end.

(** Lines 509-519 for one [ourPort]: [del] takes the entry out of the list
    that is there. *)
Definition drop_at (results : dict) (h : heap) (ourPort : string) : heap :=
  match results !! ourPort with
  | Some a => alter AppResolver.drop_sh a h
  | None => h
  end.

(** Lines 507-519. *)
Definition drop_own_sh (ourConnection : option (string * string))
    (results : dict) (h : heap) : heap :=
  match ourConnection with
  | Some (iPort, oPort) => foldl (drop_at results) h [iPort; oPort]
  | None => h
  end.

(** Lines 476-519 on a non-empty lsof output. *)
Definition read_lsof (ownPid script : string) (ports : list string)
    (h : heap) (results : dict) (lsofResults : list string) : reading :=
  match parse_lines ownPid script ports (h, results, None) lsofResults with
  | Parsed h results ourConnection =>
      Parsed (drop_own_sh ourConnection results h) results ourConnection
  | Raised h => Raised h
  end.

(** Lines 470-519, from the answer of lsof ([None]: not called, or the call
    gave nothing) to the next access to [failureCount]: with lines to read the
    counter is not looked at and the worker reads them; without, the test of
    line 470 sends it into the failure branch unless the counter is [-1]. *)
Definition after_call (ownPid : string) (ports : list string) (results : dict)
    (lsofResults : option (list string)) (i : nat) (w : world) : world :=
  match lsofResults with
  | Some (line :: rest) =>
      match read_lsof ownPid (scriptName (obj w)) ports (lists w) results
                      (line :: rest) with
      | Parsed h results _ => set_thread i (Publishing results) (set_lists h w)
      | Raised h => set_thread i Died (set_lists h w)
      end
  | _ =>
      if negb (failureCount (obj w) =? -1)
      then set_thread i Failing w
      else set_thread i (Publishing results) w
  end.

(** What can happen next.  [LsofRaises] is [system.call] ending in an
    exception, should the library's version do that. *)
Inductive event : Type :=
| CallResolve (ports : list string)
| CallGetResults (caller : nat) (maxWait : Q)
| WaitTimesOut (caller : nat)
| WorkerStarts (i : nat)
| LsofReturns (i : nat) (lsofResults : option (list string))
| LsofRaises (i : nat)
| ReadsCount (i : nat)
| WritesCount (i : nat)
| ClearsFlag (i : nat)
| Publishes (i : nat).

Definition step (ownPid : string) (w : world) (e : event) : world :=
  let r := obj w in
  match e with
  | CallResolve ports => resolve ports w
  | CallGetResults caller maxWait =>
      if getResults_blocks maxWait r
      then mkWorld r (lists w) (threads w) (waiting w ++ [caller])
      else w
  | WaitTimesOut caller =>
      mkWorld r (lists w) (threads w) (filter (fun c => c ≠ caller) (waiting w))
  | WorkerStarts i =>
      match threads w !! i with
      | Some (Started []) =>
          (* lines 440-451 *)
          notifyAll (set_thread i Returned
            (set_obj (mkAppResolver (scriptName r) ∅ false (failureCount r)) w))
      | Some (Started ports) =>
          (* lines 453-468 *)
          match partition_ports (queryResults r) ports with
          | (results, []) => after_call ownPid ports results None i w
          | (results, lsofArgs) =>
              set_thread i (Calling ports results ("lsof -nP " +:+ Py.join " " lsofArgs)) w
          end
      | _ => w
      end
  | LsofReturns i lsofResults =>
      match threads w !! i with
      | Some (Calling ports results _) => after_call ownPid ports results lsofResults i w
      | _ => w
      end
  | LsofRaises i =>
      match threads w !! i with
      | Some (Calling _ _ _) => set_thread i Died w
      | _ => w
      end
  | ReadsCount i =>
      (* line 473, the right-hand side *)
      match threads w !! i with
      | Some Failing => set_thread i (Counting (failureCount r)) w
      | _ => w
      end
  | WritesCount i =>
      (* line 473, the assignment *)
      match threads w !! i with
      | Some (Counting seen) =>
          set_thread i Clearing
            (set_obj (mkAppResolver (scriptName r) (queryResults r) (isResolving r)
                                    (seen + 1)) w)
      | _ => w
      end
  | ClearsFlag i =>
      (* lines 474-475 *)
      match threads w !! i with
      | Some Clearing =>
          set_thread i Returned
            (set_obj (mkAppResolver (scriptName r) (queryResults r) false
                                    (failureCount r)) w)
      | _ => w
      end
  | Publishes i =>
      (* lines 521-530 *)
      match threads w !! i with
      | Some (Publishing results) =>
          notifyAll (set_thread i Returned
            (set_obj (mkAppResolver (scriptName r) results false (-1)) w))
      | _ => w
      end
  end.

Definition run (ownPid : string) (w : world) (es : list event) : world :=
  foldl (step ownPid) w es.

(** Workers that have not left the body yet. *)
Definition in_flight (t : thread) : bool :=
  match t with
  | Returned | Died => false
  | _ => true
  end.

(** No worker is in the body. *)
Definition idle (w : world) : Prop :=
  Forall (fun t => in_flight t = false) (threads w).


(** Every list of [h] is still there in [h'], with what it held at its
    head. *)
Definition grown (h h' : heap) : Prop :=
  forall a l, h !! a = Some l -> exists more, h' !! a = Some (l ++ more).

(** Every address of [d] is one of [h], and no two ports of [d] hold the same
    list. *)
Definition separate (h : heap) (d : dict) : Prop :=
  (forall p a, d !! p = Some a -> is_Some (h !! a)) /\
  (forall p q a, d !! p = Some a -> d !! q = Some a -> p = q).

(** The [results] a worker holds. *)
Definition thread_results (t : thread) : dict :=
  match t with
  | Calling _ results _ | Publishing results => results
  | _ => ∅
  end.

(** The cache and the [results] of every worker are [separate]. *)
Definition dicts_separate (w : world) : Prop :=
  separate (lists w) (queryResults (obj w)) /\
  Forall (fun t => separate (lists w) (thread_results t)) (threads w).


End AppThreads.

(** * Properties *)

(** ** Checks of the string primitives against the Python they stand for *)

Example split_at_arrow : Py.split "->" "a:1->b:2" = ["a:1"; "b:2"].
Proof. reflexivity. Qed.

Example split_keeps_empty_pieces : Py.split "->" "->a->->" = [""; "a"; ""; ""].
Proof. reflexivity. Qed.

Example split_at_colon : Py.split ":" "[::1]:80" = ["["; ""; "1]"; "80"].
Proof. reflexivity. Qed.

Example join_with_space : Py.join " " ["a"; "b"; "c"] = "a b c".
Proof. reflexivity. Qed.

Example split_on_white_space :
  Py.split_ws "  tor   2001 atagar " = ["tor"; "2001"; "atagar"].
Proof. reflexivity. Qed.

Example int_literals :
  Py.int " +12 " = Some 12 /\ Py.int "-3" = Some (-3) /\ Py.int "" = None /\
  Py.int "1 2" = None /\ Py.int "2-3" = None.
Proof. repeat split; reflexivity. Qed.

(** The listing in the comment of [_queryApplications], with the [sh] line
    that the lsof call itself adds for our own connection, read for the two
    ports by the process 2462. *)
Example read_lsof_sample :
  AppResolver.read_lsof "2462" "python" ["51849"; "37277"] ∅
    ["COMMAND  PID   USER   FD   TYPE DEVICE SIZE/OFF NODE NAME";
     "tor     2001 atagar   14u  IPv4  14048      0t0  TCP localhost:9051->localhost:37277 (ESTABLISHED)";
     "tor     2001 atagar   15u  IPv4  22024      0t0  TCP localhost:9051->localhost:51849 (ESTABLISHED)";
     "python  2462 atagar    3u  IPv4  14047      0t0  TCP localhost:37277->localhost:9051 (ESTABLISHED)";
     "sh      2470 atagar    3u  IPv4  14047      0t0  TCP localhost:37277->localhost:9051 (ESTABLISHED)";
     "python  3444 atagar    3u  IPv4  22023      0t0  TCP localhost:51849->localhost:9051 (ESTABLISHED)";
     "tor     2001 atagar    7u  IPv4  14000      0t0  TCP *:9051 (LISTEN)"]
  = Some {[ "37277" := [("9051", "37277", "tor", "2001");
                         ("37277", "9051", "python", "2462")];
            "51849" := [("9051", "51849", "tor", "2001");
                         ("51849", "9051", "python", "3444")] ]}.
Proof. vm_compute. reflexivity. Qed.

(** ** Port usage registry *)

Section PortUsageFacts.
Import PortUsage.

Lemma startswith_app (p s : string) : Py.startswith p (p +:+ s) = true.
Proof.
  induction p as [|a p IH]; simpl; [done|].
  by rewrite Ascii.eqb_refl.
Qed.

Lemma drop_app (p s : string) : Py.drop (String.length p) (p +:+ s) = s.
Proof. induction p as [|a p IH]; simpl; [by destruct s|done]. Qed.

Lemma take_app (p s : string) : Py.take (String.length p) (p +:+ s) = p.
Proof. induction p as [|a p IH]; simpl; [done|by f_equal]. Qed.

Lemma find_char_app (c : ascii) (p s : string) :
  Py.find_char c p = None ->
  Py.find_char c (p +:+ String c s) = Some (String.length p).
Proof.
  induction p as [|a p IH]; simpl.
  - intros _. by rewrite Ascii.eqb_refl.
  - destruct (Ascii.eqb a c); [done|].
    destruct (Py.find_char c p); [done|].
    intros _. by rewrite IH.
Qed.

Lemma find_char_app_None (c : ascii) (p s : string) :
  Py.find_char c (p +:+ s) = None -> Py.find_char c p = None.
Proof.
  induction p as [|a p IH]; simpl; [done|].
  destruct (Ascii.eqb a c); [done|].
  destruct (Py.find_char c (p +:+ s)); [done|].
  intros _. by rewrite IH.
Qed.

(** The table after the loop of [fill_range], key by key. *)
Lemma fill_ports_lookup (value : string) (ports : list Z) (r : registry) (k : pyval) :
  let r' := foldl (fun acc port => set_usage (PyStr (Py.str port)) value acc) r ports in
  notices r' = notices r /\
  PORT_USAGE r' !! k =
    if bool_decide (k ∈ (fun port => PyStr (Py.str port)) <$> ports)
    then Some value else PORT_USAGE r !! k.
Proof.
  revert r. induction ports as [|p ports IH]; intros r.
  - split; [done|]. by rewrite bool_decide_eq_false_2 by set_solver.
  - rewrite fmap_cons. cbn [foldl].
    destruct (IH (set_usage (PyStr (Py.str p)) value r)) as [Hn Hl].
    split; [by rewrite Hn|]. rewrite Hl. cbn [PORT_USAGE set_usage].
    destruct (decide (k = PyStr (Py.str p))) as [->|Hne].
    + rewrite lookup_insert_eq.
      rewrite (bool_decide_eq_true_2 (_ ∈ _ :: _)) by apply list_elem_of_here.
      by case_bool_decide.
    + rewrite lookup_insert_ne by done.
      rewrite (bool_decide_ext _ _ (elem_of_cons _ k (PyStr (Py.str p)))).
      case_bool_decide as H1; case_bool_decide as H2; try done; tauto.
Qed.

Lemma str_in_range (lo hi p : Z) :
  PyStr (Py.str p) ∈ (fun port => PyStr (Py.str port)) <$> Py.range lo (hi + 1)
  <-> lo <= p <= hi.
Proof.
  unfold Py.range. rewrite list_elem_of_fmap. split.
  - intros (q & Heq & Hin). injection Heq as Heq.
    apply (inj pretty) in Heq as ->.
    apply elem_of_seqZ in Hin. lia.
  - intros H. exists p. split; [done|]. apply elem_of_seqZ. lia.
Qed.

Lemma conf_handler_str_keyed (key value : string) (r : registry) :
  str_keyed r -> str_keyed (conf_handler key value r).
Proof.
  intros Hr. unfold conf_handler.
  destruct (Py.startswith _ key); [|done].
  destruct (Py.find_char _ _) as [divIndex|].
  - destruct (Py.int _) as [minPort|]; [|done].
    destruct (Py.int _) as [maxPort|]; [|done].
    destruct (minPort >? maxPort); [done|].
    intros k label. unfold fill_range.
    destruct (fill_ports_lookup value (Py.range minPort (maxPort + 1)) r k) as [_ ->].
    case_bool_decide as Hin; [|by apply Hr].
    intros _. apply list_elem_of_fmap in Hin as (port & -> & _). eauto.
  - destruct (Py.isdigit _) eqn:Hd; [|done].
    intros k label. simpl.
    destruct (decide (k = PyStr (Py.drop 11 key))) as [->|Hne].
    + eauto.
    + rewrite lookup_insert_ne by done. apply Hr.
Qed.

Lemma load_str_keyed (entries : list (string * string)) (r : registry) :
  str_keyed r -> str_keyed (load entries r).
Proof.
  revert r. induction entries as [|[key value] entries IH]; intros r Hr; [done|].
  apply IH. by apply conf_handler_str_keyed.
Qed.

End PortUsageFacts.

(** C8. A range entry [port.label.<lo>-<hi>] labels exactly the ports from
    [lo] to [hi], looked up under their decimal text, and logs nothing; an
    inverted range and a single-port entry that is not numeric leave the table
    as it was and log one notice each.  The handler is a total function, so no
    entry makes it fail. *)
Theorem port_label_entries (r : PortUsage.registry) (value : string) :
  (forall (los his : string) (lo hi : Z),
     Py.int los = Some lo -> Py.int his = Some hi ->
     Py.find_char "-" los = None ->
     let key := "port.label." +:+ los +:+ "-" +:+ his in
     let r' := PortUsage.conf_handler key value r in
     (lo <= hi ->
        PortUsage.notices r' = PortUsage.notices r /\
        forall p : Z,
          PortUsage.getPortUsage (PortUsage.PyStr (Py.str p)) r' =
            if bool_decide (lo <= p <= hi) then Some value
            else PortUsage.getPortUsage (PortUsage.PyStr (Py.str p)) r) /\
     (hi < lo ->
        PortUsage.PORT_USAGE r' = PortUsage.PORT_USAGE r /\
        PortUsage.notices r' =
          PortUsage.notices r ++ ["Unable to parse port range for entry: " +:+ key])) /\
  (forall portEntry : string,
     Py.find_char "-" portEntry = None -> Py.isdigit portEntry = false ->
     let key := "port.label." +:+ portEntry in
     let r' := PortUsage.conf_handler key value r in
     PortUsage.PORT_USAGE r' = PortUsage.PORT_USAGE r /\
     PortUsage.notices r' =
       PortUsage.notices r ++ ["Port value isn't numeric for entry: " +:+ key]).
Proof.
  split.
  - intros los his lo hi Hlo Hhi Hdash key r'.
    assert (Hr' : r' =
      if lo >? hi
      then PortUsage.log_notice ("Unable to parse port range for entry: " +:+ key) r
      else PortUsage.fill_range lo hi value r).
    { subst r' key. unfold PortUsage.conf_handler.
      rewrite (startswith_app "port.label.").
      change (Py.drop 11 ("port.label." +:+ los +:+ "-" +:+ his))
        with (los +:+ String "-" his).
      rewrite (find_char_app _ _ _ Hdash), take_app.
      replace (Py.drop (S (String.length los)) (los +:+ String "-" his)) with his.
      - by rewrite Hlo, Hhi.
      - clear. induction los as [|a l IH]; simpl; [by destruct his|done]. }
    split.
    + intros Hle. rewrite Hr'.
      destruct (Z.gtb_spec lo hi) as [?|_]; [lia|].
      unfold PortUsage.fill_range. split.
      * apply (fill_ports_lookup value _ r (PortUsage.PyStr "")).
      * intros p. unfold PortUsage.getPortUsage.
        destruct (fill_ports_lookup value (Py.range lo (hi + 1)) r
                    (PortUsage.PyStr (Py.str p))) as [_ ->].
        pose proof (str_in_range lo hi p).
        repeat case_bool_decide; try done; tauto.
    + intros Hlt. rewrite Hr'.
      destruct (Z.gtb_spec lo hi) as [_|?]; [done|lia].
  - intros portEntry Hdash Hnd key r'. subst r' key.
    unfold PortUsage.conf_handler.
    rewrite (startswith_app "port.label.").
    change (Py.drop 11 ("port.label." +:+ portEntry)) with portEntry.
    by rewrite Hdash, Hnd.
Qed.

(** C8 at the entries of the specification: [port.label.100-102 = "foo"] on an
    empty table, [port.label.200-100], and [port.label.http]. *)
Lemma port_label_entries_witness :
  let r := PortUsage.conf_handler "port.label.100-102" "foo" PortUsage.initial in
  (PortUsage.getPortUsage (PortUsage.PyStr "100") r = Some "foo" /\
   PortUsage.getPortUsage (PortUsage.PyStr "101") r = Some "foo" /\
   PortUsage.getPortUsage (PortUsage.PyStr "102") r = Some "foo" /\
   PortUsage.getPortUsage (PortUsage.PyStr "99") r = None /\
   PortUsage.getPortUsage (PortUsage.PyStr "103") r = None /\
   PortUsage.notices r = []) /\
  (let r := PortUsage.conf_handler "port.label.200-100" "foo" PortUsage.initial in
   PortUsage.PORT_USAGE r = ∅ /\
   PortUsage.notices r = ["Unable to parse port range for entry: port.label.200-100"]) /\
  (let r := PortUsage.conf_handler "port.label.http" "foo" PortUsage.initial in
   PortUsage.PORT_USAGE r = ∅ /\
   PortUsage.notices r = ["Port value isn't numeric for entry: port.label.http"]).
Proof.
  destruct (port_label_entries PortUsage.initial "foo") as [Hrange Hsingle].
  split; [|split].
  - destruct (Hrange "100" "102" 100 102 eq_refl eq_refl eq_refl) as [H _].
    destruct (H ltac:(lia)) as [Hn Hp].
    exact (conj (Hp 100) (conj (Hp 101) (conj (Hp 102)
             (conj (Hp 99) (conj (Hp 103) Hn))))).
  - destruct (Hrange "200" "100" 200 100 eq_refl eq_refl eq_refl) as [_ H].
    exact (H ltac:(lia)).
  - exact (Hsingle "http" eq_refl eq_refl).
Defined.

(** C10. Whatever the configuration, the table is keyed by [str] only, each
    key the decimal text of a port, so [getPortUsage] finds nothing under an
    [int], also for a port that has a label: the label of port 80 is found
    under ["80"] and not under [80]. *)
Theorem int_port_has_no_usage (entries : list (string * string)) :
  let r := PortUsage.load entries PortUsage.initial in
  PortUsage.str_keyed r /\
  (forall n : Z, PortUsage.getPortUsage (PortUsage.PyInt n) r = None) /\
  (forall port label, PortUsage.getPortUsage port r = Some label ->
     exists s, port = PortUsage.PyStr s) /\
  (let r80 := PortUsage.load [("port.label.80", "HTTP")] PortUsage.initial in
   PortUsage.getPortUsage (PortUsage.PyInt 80) r80 = None /\
   PortUsage.getPortUsage (PortUsage.PyStr "80") r80 = Some "HTTP").
Proof.
  intros r.
  assert (Hk : PortUsage.str_keyed r).
  { apply load_str_keyed. intros k label Hl. simpl in Hl. by rewrite lookup_empty in Hl. }
  split; [exact Hk|]. split; [|split].
  - intros n. unfold PortUsage.getPortUsage.
    destruct (PortUsage.PORT_USAGE r !! PortUsage.PyInt n) as [label|] eqn:Hn; [|done].
    destruct (Hk _ _ Hn) as (s & Hs & _). discriminate Hs.
  - intros port label Hl. destruct (Hk _ _ Hl) as (s & Hs & _). eauto.
  - split; reflexivity.
Qed.

(** ** Connection resolver *)

Section ConnResolverFacts.
Import ConnResolver.

(** A successful cycle, attribute by attribute. *)
Lemma poll_ok (s : ConnectionResolver) (now t : Q) (conns : list connection)
    (r : string) :
  truthy_str (current_resolver s) = Some r ->
  let s' := state (poll_cycle now (QueryOk conns t) s) in
  did (poll_cycle now (QueryOk conns t) s) = Queried r /\
  overwriteResolver s' = overwriteResolver s /\
  defaultResolver s' = defaultResolver s /\
  _resolverBlacklist s' = _resolverBlacklist s /\
  _connections s' = conns /\
  _resolutionCounter s' = _resolutionCounter s + 1 /\
  lastLookup s' = now /\
  _subsiquentFailures s' = (if is_default s then 0 else _subsiquentFailures s) /\
  (defaultRate s', _rateThresholdBroken s') =
    if Qlt_le_dec (defaultRate s) (100 * t) then
      if 3 <=? _rateThresholdBroken s
      then ((100 * t + (1 # 2))%Q, _rateThresholdBroken s)
      else (defaultRate s, _rateThresholdBroken s + 1)
    else (defaultRate s, 0).
Proof.
  intros Hr. unfold poll_cycle. rewrite Hr. unfold adapt_rate. simpl.
  destruct (Qlt_le_dec _ _); [destruct (3 <=? _)|];
    destruct (is_default s); simpl; repeat split.
Qed.

Lemma poll_ok_resolver (s : ConnectionResolver) (now t : Q)
    (conns : list connection) (r : string) :
  truthy_str (current_resolver s) = Some r ->
  truthy_str (current_resolver (state (poll_cycle now (QueryOk conns t) s))) = Some r.
Proof.
  intros Hr. destruct (poll_ok s now t conns r Hr) as (_ & Ho & Hd & _).
  unfold current_resolver, is_default in *. by rewrite Ho, Hd.
Qed.

(** Once the rate sits at [100 t + 1/2], cycles that take [t] keep it. *)
Lemma raised_rate_stays (t : Q) (cycles : list (Q * outcome)) :
  forall (s : ConnectionResolver) (r : string),
    truthy_str (current_resolver s) = Some r ->
    all_ok t cycles ->
    defaultRate s = (100 * t + (1 # 2))%Q ->
    defaultRate (poll_cycles s cycles) = (100 * t + (1 # 2))%Q.
Proof.
  induction cycles as [|[now o] cycles IH]; intros s r Hr Hall Hrate; [done|].
  apply Forall_cons in Hall as [[conns Ho] Hall]. simpl in Ho. subst o.
  unfold poll_cycles. simpl. apply (IH _ r); [by apply poll_ok_resolver|done|].
  destruct (poll_ok s now t conns r Hr) as (_ & _ & _ & _ & _ & _ & _ & _ & Hp).
  rewrite Hrate in Hp.
  destruct (Qlt_le_dec _ _) as [Hlt|_]; [lra|].
  by injection Hp as -> _.
Qed.

(** A slow cycle while fewer than three slow cycles were counted. *)
Lemma poll_ok_counts (s : ConnectionResolver) (now t : Q)
    (conns : list connection) (r : string) :
  truthy_str (current_resolver s) = Some r ->
  (defaultRate s < 100 * t)%Q -> _rateThresholdBroken s < 3 ->
  let s' := state (poll_cycle now (QueryOk conns t) s) in
  truthy_str (current_resolver s') = Some r /\
  defaultRate s' = defaultRate s /\
  _rateThresholdBroken s' = _rateThresholdBroken s + 1.
Proof.
  intros Hr Hlt Hc s'. split; [by apply poll_ok_resolver|].
  destruct (poll_ok s now t conns r Hr) as (_ & _ & _ & _ & _ & _ & _ & _ & Hp).
  destruct (Qlt_le_dec _ _) as [_|Hle]; [|lra].
  destruct (Z.leb_spec 3 (_rateThresholdBroken s)); [lia|].
  injection Hp as H1 H2. by split.
Qed.

(** A slow cycle once three slow cycles were counted. *)
Lemma poll_ok_raises (s : ConnectionResolver) (now t : Q)
    (conns : list connection) (r : string) :
  truthy_str (current_resolver s) = Some r ->
  (defaultRate s < 100 * t)%Q -> 3 <= _rateThresholdBroken s ->
  let s' := state (poll_cycle now (QueryOk conns t) s) in
  truthy_str (current_resolver s') = Some r /\
  defaultRate s' = (100 * t + (1 # 2))%Q.
Proof.
  intros Hr Hlt Hc s'. split; [by apply poll_ok_resolver|].
  destruct (poll_ok s now t conns r Hr) as (_ & _ & _ & _ & _ & _ & _ & _ & Hp).
  destruct (Qlt_le_dec _ _) as [_|Hle]; [|lra].
  destruct (Z.leb_spec 3 (_rateThresholdBroken s)); [|lia].
  by injection Hp as H1 _.
Qed.

Lemma truthy_str_Some (o : option string) (r : string) :
  truthy_str o = Some r -> o = Some r /\ r <> EmptyString.
Proof. destruct o as [[|a x]|]; simpl; intros [= <-]; done. Qed.

(** A failed cycle on the default resolver, attribute by attribute. *)
Lemma poll_fail_default (s : ConnectionResolver) (now : Q) (exc r : string) :
  overwriteResolver s = None -> truthy_str (defaultResolver s) = Some r ->
  let s' := state (poll_cycle now (QueryFail exc) s) in
  did (poll_cycle now (QueryFail exc) s) = Queried r /\
  overwriteResolver s' = None /\
  resolverOptions s' = resolverOptions s /\
  lastLookup s' = now /\
  if RESOLVER_FAILURE_TOLERANCE <=? _subsiquentFailures s + 1 then
    _resolverBlacklist s' = _resolverBlacklist s ++ [r] /\
    _subsiquentFailures s' = 0 /\
    defaultResolver s' =
      pick_resolver (resolverOptions s) (_resolverBlacklist s ++ [r])
  else
    _resolverBlacklist s' = _resolverBlacklist s /\
    _subsiquentFailures s' = _subsiquentFailures s + 1 /\
    defaultResolver s' = defaultResolver s.
Proof.
  intros Ho Hr. unfold poll_cycle, current_resolver, is_default.
  rewrite Ho, Hr. unfold note_failure. simpl.
  destruct (RESOLVER_FAILURE_TOLERANCE <=? _); simpl; by rewrite ?Ho.
Qed.

(** The loop of lines 293-296 stops at the first option off the blacklist. *)
Lemma pick_resolver_spec (options blacklist : list string) :
  match pick_resolver options blacklist with
  | Some n =>
      exists before after,
        options = before ++ n :: after /\ (n ∉ blacklist) /\
        Forall (fun o => o ∈ blacklist) before
  | None => Forall (fun o => o ∈ blacklist) options
  end.
Proof.
  induction options as [|o options IH]; simpl; [done|].
  case_bool_decide as Hin.
  - destruct (pick_resolver options blacklist) as [n|].
    + destruct IH as (before & after & -> & Hn & Hb).
      exists (o :: before), after. by repeat split; [|constructor].
    + by constructor.
  - by exists [], options.
Qed.

(** And the first option off the blacklist is where it stops. *)
Lemma pick_resolver_first (blacklist before after : list string) (n : string) :
  Forall (fun o => o ∈ blacklist) before -> n ∉ blacklist ->
  pick_resolver (before ++ n :: after) blacklist = Some n.
Proof.
  intros Hb Hn. induction Hb as [|o before Ho _ IH]; simpl.
  - by rewrite bool_decide_eq_false_2.
  - by rewrite bool_decide_eq_true_2.
Qed.

(** Without a resolver a cycle only stamps [lastLookup]. *)
Lemma poll_without_resolver (s : ConnectionResolver) (now : Q) (o : outcome) :
  truthy_str (current_resolver s) = None ->
  poll_cycle now o s = mkResult (set_lastLookup now s) NoResolver [].
Proof. intros H. unfold poll_cycle. by rewrite H. Qed.

Lemma poll_cycles_without_resolver (cycles : list (Q * outcome)) :
  forall s : ConnectionResolver,
    truthy_str (current_resolver s) = None ->
    truthy_str (current_resolver (poll_cycles s cycles)) = None /\
    same_but_lastLookup (poll_cycles s cycles) s.
Proof.
  induction cycles as [|[now o] cycles IH]; intros s H.
  - split; [done|]. unfold same_but_lastLookup. by repeat split.
  - unfold poll_cycles. simpl. rewrite (poll_without_resolver s now o H). simpl.
    destruct (IH (set_lastLookup now s) H) as [Hk Hsame].
    split; [exact Hk|]. unfold same_but_lastLookup in *. simpl in Hsame.
    exact Hsame.
Qed.

(** Nothing clears [_halt]. *)
Lemma apply_op_halted (s : ConnectionResolver) (x : op) :
  _halt s = true -> _halt (apply_op s x) = true.
Proof.
  intros H. destruct x as [r|pid|b| |start now o]; simpl; try done.
  - unfold setPaused. by destruct (Bool.eqb _ _).
  - unfold run_iteration. by rewrite H.
Qed.

Lemma apply_ops_halted (xs : list op) :
  forall s : ConnectionResolver, _halt s = true -> _halt (apply_ops s xs) = true.
Proof.
  induction xs as [|x xs IH]; intros s H; [done|].
  apply (IH (apply_op s x)). by apply apply_op_halted.
Qed.

End ConnResolverFacts.

(** C1, as the code has it.  From a debounce count of zero, a run of
    successful cycles that each take [t] with [100 t] above [defaultRate]
    leaves the rate alone on cycles 1, 2 and 3, which only count, and raises
    it to [100 t + 0.5] on cycle 4, where it stays; and a successful cycle
    whose [100 t] does not exceed the rate sets the count back to zero. *)
Theorem rate_debounce (s : ConnResolver.ConnectionResolver) (r : string) (t : Q)
    (Hr : ConnResolver.truthy_str (ConnResolver.current_resolver s) = Some r) :
  (ConnResolver._rateThresholdBroken s = 0 ->
   (ConnResolver.defaultRate s < 100 * t)%Q ->
   forall cycles, ConnResolver.all_ok t cycles ->
     let s' := ConnResolver.poll_cycles s cycles in
     ((length cycles <= 3)%nat ->
        ConnResolver.defaultRate s' = ConnResolver.defaultRate s /\
        ConnResolver._rateThresholdBroken s' = Z.of_nat (length cycles)) /\
     ((4 <= length cycles)%nat ->
        ConnResolver.defaultRate s' = (100 * t + (1 # 2))%Q)) /\
  (forall now conns, (100 * t <= ConnResolver.defaultRate s)%Q ->
     let s' := ConnResolver.state (ConnResolver.poll_cycle now (ConnResolver.QueryOk conns t) s) in
     ConnResolver._rateThresholdBroken s' = 0 /\
     ConnResolver.defaultRate s' = ConnResolver.defaultRate s).
Proof.
  split.
  - intros Hzero Hlt cycles Hall s'. subst s'.
    destruct cycles as [|[n1 o1] cycles]; [simpl; split; [done|lia]|].
    apply Forall_cons in Hall as [[c1 E1] Hall]. simpl in E1. subst o1.
    destruct (poll_ok_counts s n1 t c1 r Hr Hlt ltac:(lia)) as (Hr1 & Hd1 & Hb1).
    set (s1 := ConnResolver.state (ConnResolver.poll_cycle n1 (ConnResolver.QueryOk c1 t) s)) in *.
    change (ConnResolver.poll_cycles s ((n1, ConnResolver.QueryOk c1 t) :: cycles))
      with (ConnResolver.poll_cycles s1 cycles).
    destruct cycles as [|[n2 o2] cycles]; [simpl; split; [split; [done|lia]|lia]|].
    apply Forall_cons in Hall as [[c2 E2] Hall]. simpl in E2. subst o2.
    destruct (poll_ok_counts s1 n2 t c2 r Hr1 ltac:(by rewrite Hd1) ltac:(lia))
      as (Hr2 & Hd2 & Hb2).
    set (s2 := ConnResolver.state (ConnResolver.poll_cycle n2 (ConnResolver.QueryOk c2 t) s1)) in *.
    change (ConnResolver.poll_cycles s1 ((n2, ConnResolver.QueryOk c2 t) :: cycles))
      with (ConnResolver.poll_cycles s2 cycles).
    destruct cycles as [|[n3 o3] cycles];
      [simpl; split; [split; [congruence|lia]|lia]|].
    apply Forall_cons in Hall as [[c3 E3] Hall]. simpl in E3. subst o3.
    destruct (poll_ok_counts s2 n3 t c3 r Hr2 ltac:(by rewrite Hd2, Hd1) ltac:(lia))
      as (Hr3 & Hd3 & Hb3).
    set (s3 := ConnResolver.state (ConnResolver.poll_cycle n3 (ConnResolver.QueryOk c3 t) s2)) in *.
    change (ConnResolver.poll_cycles s2 ((n3, ConnResolver.QueryOk c3 t) :: cycles))
      with (ConnResolver.poll_cycles s3 cycles).
    destruct cycles as [|[n4 o4] cycles];
      [simpl; split; [split; [congruence|lia]|lia]|].
    apply Forall_cons in Hall as [[c4 E4] Hall]. simpl in E4. subst o4.
    destruct (poll_ok_raises s3 n4 t c4 r Hr3 ltac:(by rewrite Hd3, Hd2, Hd1) ltac:(lia))
      as (Hr4 & Hd4).
    set (s4 := ConnResolver.state (ConnResolver.poll_cycle n4 (ConnResolver.QueryOk c4 t) s3)) in *.
    change (ConnResolver.poll_cycles s3 ((n4, ConnResolver.QueryOk c4 t) :: cycles))
      with (ConnResolver.poll_cycles s4 cycles).
    split; [simpl; lia|]. intros _.
    by apply (raised_rate_stays t cycles s4 r).
  - intros now conns Hle s'.
    destruct (poll_ok s now t conns r Hr) as (_ & _ & _ & _ & _ & _ & _ & _ & Hp).
    destruct (Qlt_le_dec _ _) as [Hlt|_]; [lra|].
    injection Hp as H1 H2. by split.
Qed.

(** C1 on a fresh resolver with the default rate of five seconds and cycles
    of one second: nothing after three cycles, 100.5 after four and five. *)
Lemma rate_debounce_witness :
  let s := ConnResolver.init 5 ["netstat"] "tor" "" None None in
  let ok := fun now : Q => (now, ConnResolver.QueryOk [] 1) in
  ConnResolver.defaultRate (ConnResolver.poll_cycles s [ok 10; ok 20; ok 30]%Q) = 5%Q /\
  ConnResolver.defaultRate
    (ConnResolver.poll_cycles s [ok 10; ok 20; ok 30; ok 40; ok 200]%Q)
    = (100 * 1 + (1 # 2))%Q.
Proof.
  intros s ok.
  assert (Hall : forall l, ConnResolver.all_ok 1 (map ok l)).
  { intros l. induction l as [|now l IH]; constructor; [by exists []|exact IH]. }
  destruct (rate_debounce s "netstat" 1 eq_refl) as [H _].
  assert (Hlt : (ConnResolver.defaultRate s < 100 * 1)%Q) by (by compute).
  split.
  - exact (proj1 (proj1 (H eq_refl Hlt _ (Hall [10; 20; 30]%Q)) ltac:(simpl; lia))).
  - exact (proj2 (H eq_refl Hlt _ (Hall [10; 20; 30; 40; 200]%Q)) ltac:(simpl; lia)).
Defined.

(** C1 as stated fails: after the third slow cycle the rate is still the
    old one, not [100 t + 0.5]. *)
Lemma rate_raised_at_third_cycle_counterexample :
  let s := ConnResolver.init 5 ["netstat"] "tor" "" None None in
  let ok := fun now : Q => (now, ConnResolver.QueryOk [] 1) in
  let s3 := ConnResolver.poll_cycles s [ok 10; ok 20; ok 30]%Q in
  ConnResolver._rateThresholdBroken s = 0 /\
  (ConnResolver.defaultRate s < 100 * 1)%Q /\
  ConnResolver.all_ok 1 [ok 10; ok 20; ok 30]%Q /\
  ConnResolver.defaultRate s3 = 5%Q /\
  ~ (ConnResolver.defaultRate s3 == 100 * 1 + (1 # 2))%Q.
Proof.
  repeat split.
  - repeat constructor; by exists [].
  - by compute.
Qed.

(** C2. Three failures in a row of the default resolver [r], with no
    overwrite set: the first two only count (one, then two), and each cycle
    records its time; the third appends [r] to the blacklist, resets the
    counter and makes the first option that is not on the blacklist the
    default: an option with only blacklisted options before it is chosen, and
    the default is [None] when every option is on the blacklist.  Without a
    resolver every later cycle queries nothing, logs nothing and changes
    [lastLookup], to the time of the cycle, and no other attribute. *)
Theorem backend_fallback (s : ConnResolver.ConnectionResolver) (r : string)
    (Ho : ConnResolver.overwriteResolver s = None)
    (Hd : ConnResolver.truthy_str (ConnResolver.defaultResolver s) = Some r)
    (Hf : ConnResolver._subsiquentFailures s = 0)
    (n1 n2 n3 : Q) (e1 e2 e3 : string) :
  let s1 := ConnResolver.poll_cycles s [(n1, ConnResolver.QueryFail e1)] in
  let s2 := ConnResolver.poll_cycles s1 [(n2, ConnResolver.QueryFail e2)] in
  let s3 := ConnResolver.poll_cycles s2 [(n3, ConnResolver.QueryFail e3)] in
  (ConnResolver.defaultResolver s1 = Some r /\
   ConnResolver._resolverBlacklist s1 = ConnResolver._resolverBlacklist s /\
   ConnResolver._subsiquentFailures s1 = 1 /\
   ConnResolver.lastLookup s1 = n1) /\
  (ConnResolver.defaultResolver s2 = Some r /\
   ConnResolver._resolverBlacklist s2 = ConnResolver._resolverBlacklist s /\
   ConnResolver._subsiquentFailures s2 = 2 /\
   ConnResolver.lastLookup s2 = n2) /\
  ConnResolver._resolverBlacklist s3 = ConnResolver._resolverBlacklist s ++ [r] /\
  ConnResolver._subsiquentFailures s3 = 0 /\
  ConnResolver.lastLookup s3 = n3 /\
  ConnResolver.resolverOptions s3 = ConnResolver.resolverOptions s /\
  (forall before n after,
     ConnResolver.resolverOptions s = before ++ n :: after ->
     Forall (fun o => o ∈ ConnResolver._resolverBlacklist s3) before ->
     (n ∉ ConnResolver._resolverBlacklist s3) ->
     ConnResolver.defaultResolver s3 = Some n) /\
  (forall n, ConnResolver.defaultResolver s3 = Some n ->
     exists before after,
       ConnResolver.resolverOptions s = before ++ n :: after /\
       (n ∉ ConnResolver._resolverBlacklist s3) /\
       Forall (fun o => o ∈ ConnResolver._resolverBlacklist s3) before) /\
  (Forall (fun o => o ∈ ConnResolver._resolverBlacklist s3)
          (ConnResolver.resolverOptions s) ->
   ConnResolver.defaultResolver s3 = None) /\
  (ConnResolver.defaultResolver s3 = None ->
   forall cycles now o,
     let s' := ConnResolver.poll_cycles s3 cycles in
     let cycle := ConnResolver.poll_cycle now o s' in
     ConnResolver.did cycle = ConnResolver.NoResolver /\
     ConnResolver.logged cycle = [] /\
     ConnResolver.lastLookup (ConnResolver.state cycle) = now /\
     ConnResolver.same_but_lastLookup (ConnResolver.state cycle) s' /\
     ConnResolver.same_but_lastLookup s' s3).
Proof.
  intros s1 s2 s3. subst s1 s2 s3.
  repeat match goal with
  | |- context [ConnResolver.poll_cycles ?a [(?n, ?o)]] =>
      change (ConnResolver.poll_cycles a [(n, o)])
        with (ConnResolver.state (ConnResolver.poll_cycle n o a))
  end.
  destruct (truthy_str_Some _ _ Hd) as [Hd' _].
  destruct (poll_fail_default s n1 e1 r Ho Hd) as (_ & Ho1 & Hopt1 & Hl1 & H1).
  rewrite Hf in H1. simpl in H1. destruct H1 as (Hb1 & Hf1 & Hd1).
  set (s1 := ConnResolver.state (ConnResolver.poll_cycle n1 (ConnResolver.QueryFail e1) s)) in *.
  assert (Ht1 : ConnResolver.truthy_str (ConnResolver.defaultResolver s1) = Some r)
    by (by rewrite Hd1).
  destruct (poll_fail_default s1 n2 e2 r Ho1 Ht1) as (_ & Ho2 & Hopt2 & Hl2 & H2).
  rewrite Hf1 in H2. simpl in H2. destruct H2 as (Hb2 & Hf2 & Hd2).
  set (s2 := ConnResolver.state (ConnResolver.poll_cycle n2 (ConnResolver.QueryFail e2) s1)) in *.
  assert (Ht2 : ConnResolver.truthy_str (ConnResolver.defaultResolver s2) = Some r)
    by (by rewrite Hd2).
  destruct (poll_fail_default s2 n3 e3 r Ho2 Ht2) as (_ & Ho3 & Hopt3 & Hl3 & H3).
  rewrite Hf2 in H3. simpl in H3. destruct H3 as (Hb3 & Hf3 & Hd3).
  set (s3 := ConnResolver.state (ConnResolver.poll_cycle n3 (ConnResolver.QueryFail e3) s2)) in *.
  split; [by rewrite Hd1, Hb1|]. split; [by rewrite Hd2, Hd1, Hb2, Hb1|].
  split; [by rewrite Hb3, Hb2, Hb1|]. split; [done|]. split; [done|].
  split; [by rewrite Hopt3, Hopt2, Hopt1|].
  pose proof (pick_resolver_spec (ConnResolver.resolverOptions s2)
                (ConnResolver._resolverBlacklist s2 ++ [r])) as Hpick.
  rewrite <- Hd3, <- Hb3, Hopt2, Hopt1 in Hpick.
  split; [|split; [|split]].
  - intros before n after Hopts Hbefore Hn.
    rewrite Hd3, <- Hb3, Hopt2, Hopt1, Hopts. by apply pick_resolver_first.
  - intros n Hn. by rewrite Hn in Hpick.
  - intros Hall. destruct (ConnResolver.defaultResolver s3) as [n|]; [|done].
    destruct Hpick as (before & after & Hopts & Hnot & _).
    exfalso. apply Hnot. rewrite Forall_forall in Hall. apply Hall.
    rewrite Hopts. apply elem_of_app. right. apply list_elem_of_here.
  - intros Hn cycles now o s' cycle.
    assert (Hnone : ConnResolver.truthy_str (ConnResolver.current_resolver s3) = None).
    { unfold ConnResolver.current_resolver, ConnResolver.is_default. by rewrite Ho3, Hn. }
    destruct (poll_cycles_without_resolver cycles s3 Hnone) as (Hk & Hsame).
    subst cycle. rewrite (poll_without_resolver s' now o Hk). simpl.
    split; [done|]. split; [done|]. split; [done|]. split; [|exact Hsame].
    unfold ConnResolver.same_but_lastLookup. simpl. by repeat split.
Qed.

(** C2 on the two cases of the specification: with options [A; B; C] the
    third failure blacklists [A] and switches to [B]; with [A] alone it leaves
    no resolver, and a later cycle asks nothing and records its time. *)
Lemma backend_fallback_witness :
  let fail := ConnResolver.QueryFail "No results found using: A" in
  let three := [(10, fail); (20, fail); (30, fail)]%Q in
  let abc := ConnResolver.poll_cycles (ConnResolver.init 5 ["A"; "B"; "C"] "tor" "" None None) three in
  let a := ConnResolver.poll_cycles (ConnResolver.init 5 ["A"] "tor" "" None None) three in
  let later := ConnResolver.poll_cycle 40 (ConnResolver.QueryOk [] 1) a in
  (ConnResolver._resolverBlacklist abc = ["A"] /\
   ConnResolver._subsiquentFailures abc = 0 /\
   ConnResolver.defaultResolver abc = Some "B") /\
  (ConnResolver._resolverBlacklist a = ["A"] /\
   ConnResolver.defaultResolver a = None /\
   ConnResolver.did later = ConnResolver.NoResolver /\
   ConnResolver.lastLookup (ConnResolver.state later) = 40%Q).
Proof.
  intros fail three abc a later.
  pose proof (backend_fallback (ConnResolver.init 5 ["A"; "B"; "C"] "tor" "" None None)
                "A" eq_refl eq_refl eq_refl 10 20 30
                "No results found using: A" "No results found using: A"
                "No results found using: A") as Habc.
  pose proof (backend_fallback (ConnResolver.init 5 ["A"] "tor" "" None None)
                "A" eq_refl eq_refl eq_refl 10 20 30
                "No results found using: A" "No results found using: A"
                "No results found using: A") as Ha.
  cbv zeta in Habc, Ha.
  destruct Habc as (_ & _ & Hb & Hf & _ & _ & Hpick & _ & _ & _).
  destruct Ha as (_ & _ & Hb' & _ & _ & _ & _ & _ & Hnone & Hskip).
  specialize (Hpick ["A"] "B" ["C"] eq_refl).
  match type of Hpick with
  | ?P -> ?Q -> _ =>
      assert (H1 : P) by (vm_compute; apply Forall_cons_2; [constructor|apply Forall_nil_2]);
      assert (H2 : Q) by (vm_compute; by intros ?%list_elem_of_singleton)
  end.
  specialize (Hpick H1 H2).
  match type of Hnone with
  | ?P -> _ =>
      assert (Hall : P) by (vm_compute; apply Forall_cons_2; [constructor|apply Forall_nil_2])
  end.
  specialize (Hnone Hall).
  specialize (Hskip Hnone [] 40%Q (ConnResolver.QueryOk [] 1)).
  destruct Hskip as (Hdid & _ & Hlast & _).
  vm_compute in Hb, Hf, Hpick, Hb', Hnone, Hdid, Hlast. vm_compute.
  exact (conj (conj Hb (conj Hf Hpick)) (conj Hb' (conj Hnone (conj Hdid Hlast)))).
Defined.

(** C4, as the code has it.  A cycle whose query succeeded on the default
    resolver leaves [_subsiquentFailures] at zero, and so does every cycle
    that changes the default resolver or the blacklist; a successful query on
    an overwrite resolver leaves the counter as it was. *)
Theorem failures_reset (s : ConnResolver.ConnectionResolver) (now : Q) :
  (forall conns t r,
     ConnResolver.overwriteResolver s = None ->
     ConnResolver.truthy_str (ConnResolver.defaultResolver s) = Some r ->
     let res := ConnResolver.poll_cycle now (ConnResolver.QueryOk conns t) s in
     ConnResolver.did res = ConnResolver.Queried r /\
     ConnResolver._subsiquentFailures (ConnResolver.state res) = 0) /\
  (forall conns t r,
     ConnResolver.truthy_str (ConnResolver.overwriteResolver s) = Some r ->
     let res := ConnResolver.poll_cycle now (ConnResolver.QueryOk conns t) s in
     ConnResolver.did res = ConnResolver.Queried r /\
     ConnResolver._subsiquentFailures (ConnResolver.state res) =
       ConnResolver._subsiquentFailures s) /\
  (forall o,
     let s' := ConnResolver.state (ConnResolver.poll_cycle now o s) in
     ConnResolver.defaultResolver s' <> ConnResolver.defaultResolver s \/
     ConnResolver._resolverBlacklist s' <> ConnResolver._resolverBlacklist s ->
     ConnResolver._subsiquentFailures s' = 0).
Proof.
  split; [|split].
  - intros conns t r Ho Hr res.
    assert (Hc : ConnResolver.truthy_str (ConnResolver.current_resolver s) = Some r).
    { unfold ConnResolver.current_resolver, ConnResolver.is_default. by rewrite Ho. }
    destruct (poll_ok s now t conns r Hc) as (Hdid & _ & _ & _ & _ & _ & _ & Hf & _).
    split; [exact Hdid|]. unfold ConnResolver.is_default in Hf. by rewrite Ho in Hf.
  - intros conns t r Hr res.
    destruct (truthy_str_Some _ _ Hr) as [Ho _].
    assert (Hc : ConnResolver.truthy_str (ConnResolver.current_resolver s) = Some r).
    { unfold ConnResolver.current_resolver, ConnResolver.is_default.
      rewrite Ho. by rewrite Ho in Hr. }
    destruct (poll_ok s now t conns r Hc) as (Hdid & _ & _ & _ & _ & _ & _ & Hf & _).
    split; [exact Hdid|]. unfold ConnResolver.is_default in Hf. by rewrite Ho in Hf.
  - intros o s' Hchg.
    destruct (ConnResolver.truthy_str (ConnResolver.current_resolver s)) as [r|] eqn:Hc.
    + destruct o as [conns t|exc].
      * destruct (poll_ok s now t conns r Hc) as (_ & _ & Hd & Hb & _).
        fold s' in Hd, Hb. destruct Hchg as [H|H]; by destruct H.
      * destruct (ConnResolver.overwriteResolver s) as [ow|] eqn:Ho.
        -- exfalso. subst s'. unfold ConnResolver.poll_cycle in Hchg.
           rewrite Hc in Hchg. unfold ConnResolver.is_default in Hchg.
           rewrite Ho in Hchg. simpl in Hchg. by destruct Hchg as [H|H]; apply H.
        -- assert (Hr : ConnResolver.truthy_str (ConnResolver.defaultResolver s) = Some r).
           { unfold ConnResolver.current_resolver, ConnResolver.is_default in Hc.
             by rewrite Ho in Hc. }
           destruct (poll_fail_default s now exc r Ho Hr) as (_ & _ & _ & _ & H).
           fold s' in H.
           destruct (ConnResolver.RESOLVER_FAILURE_TOLERANCE <=? _).
           ++ by destruct H as (_ & Hf & _).
           ++ destruct H as (Hb & _ & Hd). destruct Hchg as [H|H]; by destruct H.
    + exfalso. subst s'. rewrite (poll_without_resolver s now o Hc) in Hchg.
      simpl in Hchg. by destruct Hchg as [H|H]; apply H.
Qed.

(** C4 on a resolver with one failure behind it: a success on the default
    resolver clears the counter, a success on an overwrite resolver keeps it,
    and the third failure, which switches resolvers, clears it. *)
Lemma failures_reset_witness :
  let fail := ConnResolver.QueryFail "" in
  let s0 := ConnResolver.init 5 ["netstat"; "lsof"] "tor" "" None None in
  let s1 := ConnResolver.poll_cycles s0 [(10, fail)]%Q in
  let s2 := ConnResolver.poll_cycles s1 [(20, fail)]%Q in
  ConnResolver._subsiquentFailures s1 = 1 /\
  ConnResolver._subsiquentFailures
    (ConnResolver.state (ConnResolver.poll_cycle 20 (ConnResolver.QueryOk [] 1) s1)) = 0 /\
  ConnResolver._subsiquentFailures
    (ConnResolver.state (ConnResolver.poll_cycle 20 (ConnResolver.QueryOk [] 1)
       (ConnResolver.setOverwriteResolver (Some "ss") s1))) = 1 /\
  ConnResolver._subsiquentFailures
    (ConnResolver.state (ConnResolver.poll_cycle 30 fail s2)) = 0.
Proof.
  intros fail s0 s1 s2. split; [reflexivity|]. split; [|split].
  - destruct (failures_reset s1 20) as (H & _ & _).
    exact (proj2 (H [] 1%Q "netstat" eq_refl eq_refl)).
  - destruct (failures_reset (ConnResolver.setOverwriteResolver (Some "ss") s1) 20)
      as (_ & H & _).
    exact (proj2 (H [] 1%Q "ss" eq_refl)).
  - destruct (failures_reset s2 30) as (_ & _ & H).
    apply (H fail). left. vm_compute. discriminate.
Defined.

(** C4 as stated fails for an overwrite resolver: after two failures of the
    default resolver and a switch to an overwrite one, a successful query
    leaves the counter at two. *)
Lemma overwrite_success_counterexample :
  let fail := ConnResolver.QueryFail "" in
  let s0 := ConnResolver.init 5 ["netstat"; "lsof"] "tor" "" None None in
  let s2 := ConnResolver.poll_cycles s0 [(10, fail); (20, fail)]%Q in
  let res := ConnResolver.poll_cycle 30 (ConnResolver.QueryOk [] 1)
               (ConnResolver.setOverwriteResolver (Some "ss") s2) in
  ConnResolver.did res = ConnResolver.Queried "ss" /\
  ConnResolver._resolutionCounter (ConnResolver.state res) = 1 /\
  ConnResolver._subsiquentFailures (ConnResolver.state res) = 2 /\
  ConnResolver._subsiquentFailures (ConnResolver.state res) <> 0.
Proof. vm_compute. repeat split. discriminate. Qed.

(** C6. Once [stop] was called, [getConnections] returns the empty list
    whatever was cached and whatever is called or polled afterwards; on a
    resolver that is not halted it returns the cached list.  It is a total
    function of the instance: it waits for nothing and raises nothing. *)
Theorem connections_after_stop (s : ConnResolver.ConnectionResolver) :
  (forall xs, ConnResolver.getConnections
                (ConnResolver.apply_ops (ConnResolver.stop s) xs) = []) /\
  (ConnResolver._halt s = false ->
   ConnResolver.getConnections s = ConnResolver._connections s).
Proof.
  split.
  - intros xs. unfold ConnResolver.getConnections.
    by rewrite (apply_ops_halted xs (ConnResolver.stop s)).
  - intros H. unfold ConnResolver.getConnections. by rewrite H.
Qed.

(** C6 on a resolver that cached one connection: the list is served until
    [stop], and no later poll brings it back. *)
Lemma connections_after_stop_witness :
  let conn := ("127.0.0.1", 9051, "127.0.0.1", 37277) in
  let s := ConnResolver.poll_cycles
             (ConnResolver.init 5 ["netstat"] "tor" "" None None)
             [(10%Q, ConnResolver.QueryOk [conn] 1)] in
  ConnResolver.getConnections s = [conn] /\
  ConnResolver.getConnections
    (ConnResolver.apply_ops (ConnResolver.stop s)
       [ConnResolver.OpRun 500 501 (ConnResolver.QueryOk [conn] 1);
        ConnResolver.OpSetPaused true]) = [].
Proof.
  intros conn s.
  destruct (connections_after_stop s) as [Hstop Hlive].
  exact (conj (Hlive eq_refl) (Hstop _)).
Defined.

(** ** Application resolver *)

Section AppResolverFacts.
Import AppResolver.
Variable ownPid : string.

#[local] Arguments finish : simpl never.
#[local] Arguments after_lsof : simpl never.
#[local] Arguments clear_results : simpl never.
#[local] Arguments partition_ports : simpl never.

Lemma finish_obj (i : nat) (e : ending) (w : world) :
  obj (finish i e w) = match e with Return r _ => r | Raise => obj w end.
Proof. by destruct e as [r []|]. Qed.

Lemma finish_waiting (i : nat) (e : ending) (w : world) :
  waiting (finish i e w) =
    match e with Return _ true => [] | _ => waiting w end.
Proof. by destruct e as [r []|]. Qed.

Lemma finish_threads (i : nat) (e : ending) (w : world) :
  threads (finish i e w) =
    <[i := match e with Return _ _ => Returned | Raise => Died end]> (threads w).
Proof. by destruct e as [r []|]. Qed.

(** The failure branch of lines 470-475. *)
Lemma after_lsof_nothing (ports : list string) (results : gmap string (list entry))
    (lsofResults : option (list string)) (r : AppResolver) :
  nothing lsofResults -> failureCount r <> -1 ->
  after_lsof ownPid ports results lsofResults r =
    Return (mkAppResolver (scriptName r) (queryResults r) false (failureCount r + 1))
           false.
Proof.
  intros [-> | ->] Hf; unfold after_lsof;
    by destruct (Z.eqb_spec (failureCount r) (-1)).
Qed.

End AppResolverFacts.

(** C3, what the code does.  When lsof gave nothing and no query ever
    succeeded, the worker counts the failure, leaves the cache alone and clears
    the flag, and returns without [notifyAll]: the callers asleep in
    [getResults] stay asleep until their [maxWait] runs out.  The two other
    ways out of the body do call [notifyAll]. *)
Theorem failed_query_wakes_nobody (ownPid : string) (w : AppResolver.world)
    (i : nat) (ports : list string)
    (results : gmap string (list AppResolver.entry)) (command : string)
    (lsofResults : option (list string))
    (Hi : AppResolver.threads w !! i = Some (AppResolver.Calling ports results command))
    (Hnothing : AppResolver.nothing lsofResults)
    (Hnever : AppResolver.failureCount (AppResolver.obj w) <> -1) :
  let w' := AppResolver.step ownPid w (AppResolver.LsofReturns i lsofResults) in
  AppResolver.failureCount (AppResolver.obj w') =
    AppResolver.failureCount (AppResolver.obj w) + 1 /\
  AppResolver.queryResults (AppResolver.obj w') =
    AppResolver.queryResults (AppResolver.obj w) /\
  AppResolver.isResolving (AppResolver.obj w') = false /\
  AppResolver.threads w' !! i = Some AppResolver.Returned /\
  AppResolver.waiting w' = AppResolver.waiting w.
Proof.
  intros w'. subst w'. simpl. rewrite Hi.
  rewrite (after_lsof_nothing ownPid _ _ _ _ Hnothing Hnever). simpl.
  repeat split. apply list_lookup_insert_eq. by eapply lookup_lt_Some.
Qed.

(** C3 on a fresh resolver: [resolve(["80"])], a caller that waits up to five
    seconds, and an lsof that returns nothing.  The caller is still asleep
    after the worker has returned. *)
Lemma failed_query_wakes_nobody_witness :
  let w := AppResolver.run "2462" (AppResolver.fresh "python")
             [AppResolver.CallResolve ["80"];
              AppResolver.CallGetResults 7 5;
              AppResolver.WorkerStarts 0] in
  let w' := AppResolver.step "2462" w (AppResolver.LsofReturns 0 None) in
  AppResolver.waiting w = [7%nat] /\
  AppResolver.failureCount (AppResolver.obj w') = 1 /\
  AppResolver.queryResults (AppResolver.obj w') = ∅ /\
  AppResolver.isResolving (AppResolver.obj w') = false /\
  AppResolver.threads w' = [AppResolver.Returned] /\
  AppResolver.waiting w' = [7%nat].
Proof.
  intros w w'.
  pose proof (failed_query_wakes_nobody "2462" w 0 ["80"] ∅ "lsof -nP -i tcp:80" None
                eq_refl (or_introl eq_refl) ltac:(discriminate)) as H.
  cbv zeta in H. fold w' in H. destruct H as (Hf & Hq & Hr & _ & Hw).
  exact (conj eq_refl (conj Hf (conj Hq (conj Hr (conj eq_refl Hw))))).
Defined.

Section FailureCounter.
Import AppThreads.
Variable ownPid : string.

#[local] Arguments after_call : simpl never.
#[local] Arguments partition_ports : simpl never.

Lemma set_thread_keeps (P : thread -> Prop) (i : nat) (t : thread) (w : world) :
  P t -> Forall P (threads w) -> Forall P (threads (set_thread i t w)).
Proof. intros Ht Hw. by apply Forall_insert. Qed.

Lemma after_call_obj (ports : list string) (results : dict)
    (o : option (list string)) (i : nat) (w : world) :
  obj (after_call ownPid ports results o i w) = obj w.
Proof.
  unfold after_call. destruct o as [[|line rest]|]; simpl;
    try by destruct (failureCount (obj w) =? -1).
  by destruct (read_lsof _ _ _ _ _ _).
Qed.






End FailureCounter.




(** The other half of C5 fails as well, when a worker that found nothing is
    between the test of line 470 and line 473 while another publishes.  Worker
    0 finds nothing and takes the branch of line 470; worker 1 reads a line
    and publishes, which sets the counter to [-1]; worker 0 then reads the
    [-1] and writes [0]: the success is forgotten, with its results in the
    cache.  Three more calls of [resolve] for the cached port then each count
    a failure without lsof being called, since line 470 takes [None] for a
    failed call, and [resolve] is a no-op from then on. *)
Lemma forgotten_success_counterexample :
  let line := "tor 2001 atagar 14u IPv4 14048 0t0 TCP localhost:9051->localhost:37277 (ESTABLISHED)" in
  let w1 := AppThreads.run "2462" (AppThreads.fresh "python")
              [AppThreads.CallResolve ["80"]; AppThreads.CallResolve ["37277"];
               AppThreads.WorkerStarts 0; AppThreads.WorkerStarts 1;
               AppThreads.LsofReturns 0 None;
               AppThreads.LsofReturns 1 (Some [line]); AppThreads.Publishes 1]%nat in
  let w2 := AppThreads.run "2462" w1
              [AppThreads.ReadsCount 0; AppThreads.WritesCount 0;
               AppThreads.ClearsFlag 0]%nat in
  let cached := fun i : nat =>
    [AppThreads.CallResolve ["37277"]; AppThreads.WorkerStarts i;
     AppThreads.ReadsCount i; AppThreads.WritesCount i; AppThreads.ClearsFlag i] in
  let w3 := AppThreads.run "2462" w2 (cached 2 ++ cached 3 ++ cached 4)%nat in
  AppThreads.failureCount (AppThreads.obj w1) = -1 /\
  AppThreads.threads w1 = [AppThreads.Failing; AppThreads.Returned] /\
  AppThreads.failureCount (AppThreads.obj w2) = 0 /\
  AppThreads.getResults_value w2 !! "37277" =
    Some [("9051", "37277", "tor", "2001")] /\
  AppThreads.failureCount (AppThreads.obj w3) = 3 /\
  AppThreads.threads w3 = replicate 5 AppThreads.Returned /\
  AppThreads.getResults_value w3 !! "37277" =
    Some [("9051", "37277", "tor", "2001")] /\
  AppThreads.threads (AppThreads.resolve ["37277"] w3) = AppThreads.threads w3.
Proof. vm_compute. by repeat split. Qed.

(** C7, as the code has it.  While fewer than three failures are counted,
    [resolve] with no ports starts a worker, and that worker, whenever it
    runs and whatever the cache holds, empties the cache, clears the flag and
    wakes every caller asleep in [getResults]; the failure counter is left as
    it is.  With three failures counted the call does nothing. *)
Theorem resolve_nothing (ownPid : string) (w : AppResolver.world) :
  (AppResolver.failureCount (AppResolver.obj w) < 3 ->
   let w1 := AppResolver.resolve [] w in
   let i := length (AppResolver.threads w) in
   AppResolver.threads w1 !! i = Some (AppResolver.Started []) /\
   AppResolver.isResolving (AppResolver.obj w1) = true /\
   let w2 := AppResolver.step ownPid w1 (AppResolver.WorkerStarts i) in
   AppResolver.queryResults (AppResolver.obj w2) = ∅ /\
   AppResolver.isResolving (AppResolver.obj w2) = false /\
   AppResolver.waiting w2 = [] /\
   AppResolver.failureCount (AppResolver.obj w2) =
     AppResolver.failureCount (AppResolver.obj w)) /\
  (forall i, AppResolver.threads w !! i = Some (AppResolver.Started []) ->
   let w' := AppResolver.step ownPid w (AppResolver.WorkerStarts i) in
   AppResolver.queryResults (AppResolver.obj w') = ∅ /\
   AppResolver.isResolving (AppResolver.obj w') = false /\
   AppResolver.waiting w' = []) /\
  (3 <= AppResolver.failureCount (AppResolver.obj w) -> AppResolver.resolve [] w = w).
Proof.
  split; [|split].
  - intros Hf w1 i.
    assert (Hw1 : w1 = AppResolver.mkWorld
              (AppResolver.mkAppResolver
                 (AppResolver.scriptName (AppResolver.obj w))
                 (AppResolver.queryResults (AppResolver.obj w)) true
                 (AppResolver.failureCount (AppResolver.obj w)))
              (AppResolver.threads w ++ [AppResolver.Started []])
              (AppResolver.waiting w)).
    { subst w1. unfold AppResolver.resolve.
      by destruct (Z.ltb_spec (AppResolver.failureCount (AppResolver.obj w)) 3); [|lia]. }
    assert (Hi : AppResolver.threads w1 !! i = Some (AppResolver.Started [])).
    { rewrite Hw1. simpl. apply list_lookup_middle. done. }
    split; [exact Hi|]. split; [by rewrite Hw1|].
    intros w2. subst w2. simpl. rewrite Hi. by rewrite Hw1.
  - intros i Hi w'. subst w'. simpl. by rewrite Hi.
  - intros Hf. unfold AppResolver.resolve.
    by destruct (Z.ltb_spec (AppResolver.failureCount (AppResolver.obj w)) 3); [lia|].
Qed.

(** C7 on a resolver that has never resolved anything and on one that holds
    results and has a caller asleep behind a pending query. *)
Lemma resolve_nothing_witness :
  let line := "tor 2001 atagar 14u IPv4 14048 0t0 TCP localhost:9051->localhost:37277 (ESTABLISHED)" in
  let w := AppResolver.fresh "python" in
  let busy := AppResolver.run "2462" w
                [AppResolver.CallResolve ["37277"]; AppResolver.WorkerStarts 0;
                 AppResolver.LsofReturns 0 (Some [line]);
                 AppResolver.CallResolve ["80"]; AppResolver.CallGetResults 7 5] in
  (let w2 := AppResolver.run "2462" w
               [AppResolver.CallResolve []; AppResolver.WorkerStarts 0] in
   AppResolver.queryResults (AppResolver.obj w2) = ∅ /\
   AppResolver.isResolving (AppResolver.obj w2) = false) /\
  AppResolver.queryResults (AppResolver.obj busy)
    = {[ "37277" := [("9051", "37277", "tor", "2001")] ]} /\
  AppResolver.waiting busy = [7%nat] /\
  (let w2 := AppResolver.run "2462" busy
               [AppResolver.CallResolve []; AppResolver.WorkerStarts 2] in
   AppResolver.queryResults (AppResolver.obj w2) = ∅ /\
   AppResolver.isResolving (AppResolver.obj w2) = false /\
   AppResolver.waiting w2 = []).
Proof.
  intros line w busy.
  destruct (resolve_nothing "2462" w) as (Hfresh & _ & _).
  destruct (resolve_nothing "2462" busy) as (Hbusy & _ & _).
  specialize (Hfresh ltac:(by vm_compute)). specialize (Hbusy ltac:(by vm_compute)).
  cbv zeta in Hfresh, Hbusy.
  destruct Hfresh as (_ & _ & Hq & Hr & _).
  destruct Hbusy as (_ & _ & Hq' & Hr' & Hw' & _).
  vm_compute in Hq, Hr, Hq', Hr', Hw'. vm_compute.
  exact (conj (conj Hq Hr) (conj eq_refl (conj eq_refl (conj Hq' (conj Hr' Hw'))))).
Defined.

(** C7 as stated fails once three failures are counted: a caller that went
    to sleep behind the third query is still asleep after it failed, and
    [resolve] with no ports neither starts a worker nor wakes the caller. *)
Lemma resolve_nothing_after_giving_up_counterexample :
  let attempt := fun i : nat =>
    [AppResolver.CallResolve ["80"]; AppResolver.WorkerStarts i;
     AppResolver.CallGetResults (7 + i) 60; AppResolver.LsofReturns i None] in
  let w := AppResolver.run "2462" (AppResolver.fresh "python")
             (attempt 0 ++ attempt 1 ++ attempt 2)%nat in
  AppResolver.failureCount (AppResolver.obj w) = 3 /\
  AppResolver.waiting w = [7; 8; 9]%nat /\
  AppResolver.resolve [] w = w /\
  AppResolver.waiting
    (AppResolver.run "2462" w [AppResolver.CallResolve []; AppResolver.WorkerStarts 3])
    = [7; 8; 9]%nat.
Proof. vm_compute. repeat split. Qed.

(** ** Two overlapping resolutions of one port *)

Section TwoResolves.
Import AppResolver.
Variables (ownPid p : string) (oA oB : option (list string)).
Variables (script : string) (c0 : gmap string (list entry)).

#[local] Arguments finish : simpl never.
#[local] Arguments after_lsof : simpl never.
#[local] Arguments clear_results : simpl never.
#[local] Arguments partition_ports : simpl never.

#[local] Abbreviation whole := (AppResolver.whole ownPid script p c0 oA oB).
#[local] Abbreviation thread_ok := (AppResolver.thread_ok p c0).
#[local] Abbreviation inv := (AppResolver.inv ownPid script p c0 oA oB).

Lemma partition_one (cache : gmap string (list entry)) :
  partition_ports cache [p] =
    match cache !! p with
    | Some cached => ({[p := cached]}, [])
    | None => (∅, ["-i tcp:" +:+ p])
    end.
Proof.
  unfold partition_ports. simpl. destruct (cache !! p); simpl; [|done].
  by rewrite insert_empty.
Qed.

Lemma add_entry_only_asked (ports : list string) (e : entry)
    (results : gmap string (list entry)) (portMatch : string) :
  only_asked ports results -> only_asked ports (add_entry ports e results portMatch).
Proof.
  intros H q Hq. unfold add_entry. case_bool_decide as Hin; [|by apply H].
  assert (portMatch <> q) by (by intros ->).
  destruct (results !! portMatch); rewrite lookup_insert_ne by done; by apply H.
Qed.

Lemma parse_line_only_asked (ports : list string)
    (acc acc' : gmap string (list entry) * option (string * string)) (line : string) :
  parse_line ownPid script ports acc line = Some acc' ->
  only_asked ports (fst acc) -> only_asked ports (fst acc').
Proof.
  unfold parse_line. intros Hp H.
  repeat (case_match; simplify_eq/=; try done);
    by repeat apply add_entry_only_asked.
Qed.

Lemma parse_lines_only_asked (ports : list string) (lines : list string) :
  forall acc acc',
    parse_lines ownPid script ports acc lines = Some acc' ->
    only_asked ports (fst acc) -> only_asked ports (fst acc').
Proof.
  induction lines as [|line lines IH]; intros acc acc' Hp H; simpl in Hp.
  - by injection Hp as <-.
  - destruct (parse_line ownPid script ports acc line) as [acc1|] eqn:Hl; [|done].
    apply (IH acc1 acc' Hp). by eapply parse_line_only_asked.
Qed.

Lemma read_lsof_only_asked (ports : list string)
    (results res : gmap string (list entry)) (lines : list string) :
  read_lsof ownPid script ports results lines = Some res ->
  only_asked ports results -> only_asked ports res.
Proof.
  unfold read_lsof. intros Hr H.
  destruct (parse_lines _ _ _ _ _) as [[results' ourConnection]|] eqn:Hp; [|done].
  injection Hr as <-.
  pose proof (parse_lines_only_asked _ _ _ _ Hp H) as H'. simpl in H'.
  intros q Hq. unfold drop_own_sh. destruct ourConnection as [[iPort oPort]|].
  - rewrite !lookup_alter. repeat case_decide; simplify_eq; by rewrite (H' _ Hq).
  - by apply H'.
Qed.

Lemma built_cached (o : option (list string)) (cached : list entry) :
  c0 !! p = Some cached -> built ownPid script [p] c0 o = Some {[p := cached]}.
Proof. intros H. unfold built. by rewrite partition_one, H. Qed.

Lemma built_queried (o : option (list string)) :
  c0 !! p = None ->
  built ownPid script [p] c0 o =
    match o with
    | Some (line :: rest) => read_lsof ownPid script [p] ∅ (line :: rest)
    | _ => Some ∅
    end.
Proof. intros H. unfold built. by rewrite partition_one, H. Qed.

(** What a worker builds for the one port holds at most that port. *)
Lemma built_only_asked (o : option (list string)) (c : gmap string (list entry)) :
  built ownPid script [p] c0 o = Some c -> only_asked [p] c.
Proof.
  destruct (c0 !! p) as [cached|] eqn:Hc.
  - rewrite (built_cached o cached Hc). intros [= <-] q Hq.
    apply lookup_singleton_ne. intros ->. apply Hq. apply list_elem_of_here.
  - rewrite (built_queried o Hc). intros Hb.
    assert (He : only_asked [p] (∅ : gmap string (list entry))) by (by intros q _).
    destruct o as [[|line rest]|]; try (by injection Hb as <-).
    by eapply read_lsof_only_asked.
Qed.

Lemma whole_reused (c : gmap string (list entry)) (cached : list entry) :
  whole c -> c !! p = Some cached -> whole {[p := cached]}.
Proof.
  intros Hw Hc.
  assert (Hsame : forall o, Some c = built ownPid script [p] c0 o -> {[p := cached]} = c).
  { intros o Hb. symmetry in Hb. apply built_only_asked in Hb.
    apply map_eq. intros q. destruct (decide (q = p)) as [->|Hne].
    - by rewrite lookup_singleton_eq.
    - rewrite lookup_singleton_ne by done. symmetry. apply Hb.
      intros Hq. apply list_elem_of_singleton in Hq. done. }
  destruct Hw as [->|[Hb|Hb]].
  - right. left. by rewrite (built_cached oA cached Hc).
  - rewrite (Hsame oA Hb). by right; left.
  - rewrite (Hsame oB Hb). by right; right.
Qed.

Lemma whole_missing (c : gmap string (list entry)) :
  whole c -> c !! p = None -> c0 !! p = None.
Proof.
  intros Hw Hc. destruct (c0 !! p) as [cached|] eqn:H0; [|done].
  destruct Hw as [->|[Hb|Hb]]; [congruence| |];
    rewrite (built_cached _ cached H0) in Hb; injection Hb as ->;
    by rewrite lookup_singleton_eq in Hc.
Qed.

Lemma inv_finish (w : world) (i : nat) (e : ending) :
  inv w ->
  match e with
  | Return r _ => scriptName r = script /\ whole (queryResults r)
  | Raise => True
  end ->
  inv (finish i e w).
Proof.
  intros (Hs & Hc & Ht) He. unfold inv.
  rewrite finish_obj, finish_threads.
  destruct e as [r notified|].
  - destruct He as [Hs' Hc']. repeat split; [done..|].
    by apply Forall_insert.
  - repeat split; [done..|]. by apply Forall_insert.
Qed.

Lemma inv_step (w : world) (e : event) :
  answers oA oB e -> inv w -> inv (step ownPid w e).
Proof.
  intros He Hinv. pose proof Hinv as (Hs & Hc & Ht).
  destruct e as [ports|caller maxWait|i|i out|caller]; simpl.
  - done.
  - by destruct (getResults_blocks _ _).
  - destruct (threads w !! i) as [t|] eqn:Hi; [|done].
    pose proof (Forall_lookup_1 _ _ _ _ Ht Hi) as Hok.
    destruct t as [ports|ports results cmd| |]; try done.
    simpl in Hok. subst ports. rewrite partition_one.
    destruct (queryResults (obj w) !! p) as [cached|] eqn:Hp.
    + apply inv_finish; [done|]. unfold after_lsof.
      destruct (negb _); simpl; split; try done.
      by eapply whole_reused.
    + split; [done|]. split; [done|]. simpl. apply Forall_insert; [done|].
      simpl. repeat split. by eapply whole_missing.
  - destruct (threads w !! i) as [t|] eqn:Hi; [|done].
    pose proof (Forall_lookup_1 _ _ _ _ Ht Hi) as Hok.
    destruct t as [ports|ports results cmd| |]; try done.
    simpl in Hok. destruct Hok as (-> & -> & H0).
    apply inv_finish; [done|]. unfold after_lsof.
    assert (Hout : forall c, built ownPid script [p] c0 out = Some c -> whole c).
    { intros c Hb. destruct He as [->| ->]; [by right; left|by right; right]. }
    rewrite (built_queried out H0) in Hout.
    destruct out as [[|line rest]|].
    * destruct (negb _); simpl; split; try done. by apply Hout.
    * rewrite Hs. destruct (read_lsof _ _ _ _ _) as [res|] eqn:Hr; [|done].
      simpl. split; [done|]. by apply Hout.
    * destruct (negb _); simpl; split; try done. by apply Hout.
  - done.
Qed.

Lemma inv_run (es : list event) :
  forall w : world, Forall (answers oA oB) es -> inv w -> inv (run ownPid w es).
Proof.
  induction es as [|e es IH]; intros w Hes Hinv; [done|].
  apply Forall_cons in Hes as [He Hes].
  apply (IH (step ownPid w e) Hes). by apply inv_step.
Qed.

Lemma inv_resolve (w : world) : inv w -> inv (resolve [p] w).
Proof.
  intros (Hs & Hc & Ht). unfold resolve.
  destruct (failureCount (obj w) <? 3); [|done].
  repeat split; [done..|]. simpl. apply Forall_app. split; [done|].
  by repeat constructor.
Qed.

End TwoResolves.

Section TwoResolvesStart.
Import AppResolver.

Lemma idle_filter (w : world) :
  idle w -> filter (fun t => in_flight t = true) (threads w) = [].
Proof.
  unfold idle. induction (threads w) as [|t ts IH]; intros H; [done|].
  apply Forall_cons in H as [Ht Hts].
  rewrite filter_cons_False by congruence. by apply IH.
Qed.

Lemma idle_thread_ok (p : string) (c0 : gmap string (list entry)) (w : world) :
  idle w -> Forall (thread_ok p c0) (threads w).
Proof. unfold idle. intros H. eapply Forall_impl; [exact H|]. by intros [| | |]. Qed.

(** Run on its own, the body publishes what [built] says. *)
Lemma lone_worker_publishes (ownPid p : string) (o : option (list string))
    (r r' : AppResolver) :
  _queryApplications ownPid (fun _ => o) [p] r = Return r' true ->
  Some (queryResults r') = built ownPid (scriptName r) [p] (queryResults r) o.
Proof.
  unfold _queryApplications, built.
  destruct (partition_ports (queryResults r) [p]) as [results [|a lsofArgs]];
    unfold after_lsof.
  - destruct (negb _); by intros [= <-].
  - destruct o as [[|line rest]|].
    + destruct (negb _); by intros [= <-].
    + destruct (read_lsof _ _ _ _ _); [|done]. by intros [= <-].
    + destruct (negb _); by intros [= <-].
Qed.

End TwoResolvesStart.

(** C9, as the code has it.  [resolve] does not look at the flag: two calls
    for port [p] on an idle resolver put two workers in the body at once.
    Each worker assigns the mapping it built in one piece, so whatever the
    order in which the two start, get their lsof answers [oA] and [oB] and
    finish, the cache is afterwards the one the calls found, or all of the
    mapping one of the two built, which is what that worker would publish
    had it run on its own. *)
Theorem two_resolves (ownPid p : string) (oA oB : option (list string))
    (w0 : AppResolver.world) (es : list AppResolver.event)
    (Hidle : AppResolver.idle w0)
    (Hes : Forall (AppResolver.answers oA oB) es) :
  let script := AppResolver.scriptName (AppResolver.obj w0) in
  let c0 := AppResolver.queryResults (AppResolver.obj w0) in
  let w2 := AppResolver.resolve [p] (AppResolver.resolve [p] w0) in
  let c := AppResolver.queryResults (AppResolver.obj (AppResolver.run ownPid w2 es)) in
  (AppResolver.failureCount (AppResolver.obj w0) < 3 ->
   AppResolver.count_in_flight w2 = 2%nat) /\
  (c = c0 \/
   Some c = AppResolver.built ownPid script [p] c0 oA \/
   Some c = AppResolver.built ownPid script [p] c0 oB) /\
  (forall o r',
     AppResolver._queryApplications ownPid (fun _ => o) [p] (AppResolver.obj w0)
       = AppResolver.Return r' true ->
     Some (AppResolver.queryResults r') = AppResolver.built ownPid script [p] c0 o).
Proof.
  intros script c0 w2 c. split; [|split].
  - intros Hf. subst w2. unfold AppResolver.count_in_flight, AppResolver.resolve.
    destruct (Z.ltb_spec (AppResolver.failureCount (AppResolver.obj w0)) 3); [|lia].
    simpl.
    destruct (Z.ltb_spec (AppResolver.failureCount (AppResolver.obj w0)) 3); [|lia].
    simpl. rewrite !filter_app, (idle_filter w0 Hidle). done.
  - assert (Hinv : AppResolver.inv ownPid script p c0 oA oB w0).
    { split; [done|]. split; [by left|]. by apply idle_thread_ok. }
    apply (inv_resolve ownPid p oA oB script c0) in Hinv.
    apply (inv_resolve ownPid p oA oB script c0) in Hinv.
    apply (inv_run ownPid p oA oB script c0 es _ Hes) in Hinv.
    by destruct Hinv as (_ & Hw & _).
  - intros o r'. apply lone_worker_publishes.
Qed.

(** C9 on a fresh resolver and port 80, with the second worker started and
    answered first: both are in the body at once, and the cache ends as the
    first worker's mapping, whole. *)
Lemma two_resolves_witness :
  let lineA := "tor 2001 atagar 14u IPv4 14048 0t0 TCP localhost:80->localhost:37277 (ESTABLISHED)" in
  let lineB := "tor 2001 atagar 15u IPv4 22024 0t0 TCP localhost:80->localhost:51849 (ESTABLISHED)" in
  let w2 := AppResolver.resolve ["80"] (AppResolver.resolve ["80"] (AppResolver.fresh "python")) in
  let es := [AppResolver.WorkerStarts 1; AppResolver.WorkerStarts 0;
             AppResolver.LsofReturns 1 (Some [lineB]);
             AppResolver.LsofReturns 0 (Some [lineA])] in
  let c := AppResolver.queryResults (AppResolver.obj (AppResolver.run "2462" w2 es)) in
  AppResolver.count_in_flight w2 = 2%nat /\
  c = {[ "80" := [("80", "37277", "tor", "2001")] ]} /\
  (c = ∅ \/
   Some c = AppResolver.built "2462" "python" ["80"] ∅ (Some [lineA]) \/
   Some c = AppResolver.built "2462" "python" ["80"] ∅ (Some [lineB])).
Proof.
  intros lineA lineB w2 es c.
  assert (Hidle : AppResolver.idle (AppResolver.fresh "python")) by constructor.
  assert (Hes : Forall (AppResolver.answers (Some [lineA]) (Some [lineB])) es).
  { subst es. repeat (apply Forall_cons; split); simpl; auto. }
  pose proof (two_resolves "2462" "80" (Some [lineA]) (Some [lineB])
                (AppResolver.fresh "python") es Hidle Hes) as H.
  cbv zeta in H. destruct H as (Hcount & Hwhole & _).
  split; [apply Hcount; by vm_compute|]. split; [by vm_compute|exact Hwhole].
Defined.

(** C9 as stated fails: nothing keeps a second resolution from starting
    while the first is under way.  After two calls in a row both workers are
    in the body, and both sit in their lsof call at the same time. *)
Lemma two_in_flight_counterexample :
  let w2 := AppResolver.resolve ["80"] (AppResolver.resolve ["80"] (AppResolver.fresh "python")) in
  let w := AppResolver.run "2462" w2 [AppResolver.WorkerStarts 0; AppResolver.WorkerStarts 1] in
  AppResolver.count_in_flight w2 = 2%nat /\
  AppResolver.threads w =
    [AppResolver.Calling ["80"] ∅ "lsof -nP -i tcp:80";
     AppResolver.Calling ["80"] ∅ "lsof -nP -i tcp:80"] /\
  ~ (AppResolver.count_in_flight w <= 1)%nat.
Proof. vm_compute. repeat split. lia. Qed.

(** * Further properties *)

(** ** The polling loop *)

Section PollingFacts.
Import ConnResolver.

(** What a cycle does to the attributes the fallback works on. *)
Lemma poll_cycle_backend (s : ConnectionResolver) (now : Q) (o : outcome) :
  let s' := state (poll_cycle now o s) in
  resolverOptions s' = resolverOptions s /\
  overwriteResolver s' = overwriteResolver s /\
  ((_resolverBlacklist s' = _resolverBlacklist s /\
    defaultResolver s' = defaultResolver s /\
    (_subsiquentFailures s' = _subsiquentFailures s \/
     _subsiquentFailures s' = 0 \/
     (_subsiquentFailures s' = _subsiquentFailures s + 1 /\
      _subsiquentFailures s + 1 < RESOLVER_FAILURE_TOLERANCE))) \/
   (exists r, overwriteResolver s = None /\
      truthy_str (defaultResolver s) = Some r /\
      (exists exc, o = QueryFail exc) /\
      RESOLVER_FAILURE_TOLERANCE <= _subsiquentFailures s + 1 /\
      _resolverBlacklist s' = _resolverBlacklist s ++ [r] /\
      _subsiquentFailures s' = 0 /\
      defaultResolver s' =
        pick_resolver (resolverOptions s) (_resolverBlacklist s ++ [r]))).
Proof.
  intros s'. subst s'.
  destruct (truthy_str (current_resolver s)) as [r|] eqn:Hc.
  - destruct o as [conns t|exc].
    + destruct (poll_ok s now t conns r Hc) as (_ & Ho & Hd & Hb & _ & _ & _ & Hf & _).
      assert (Hopt : resolverOptions (state (poll_cycle now (QueryOk conns t) s))
                     = resolverOptions s).
      { unfold poll_cycle. rewrite Hc. unfold adapt_rate. simpl.
        destruct (Qlt_le_dec _ _); [destruct (3 <=? _)|];
          by destruct (is_default s). }
      split; [done|]. split; [done|]. left. split; [done|]. split; [done|].
      destruct (is_default s); auto.
    + destruct (overwriteResolver s) as [ow|] eqn:Ho.
      * unfold poll_cycle. rewrite Hc. unfold is_default. rewrite Ho. simpl.
        split; [done|]. split; [done|]. left. auto.
      * assert (Hr : truthy_str (defaultResolver s) = Some r).
        { unfold current_resolver, is_default in Hc. by rewrite Ho in Hc. }
        destruct (poll_fail_default s now exc r Ho Hr) as (_ & Ho' & Hopt & _ & H).
        split; [done|]. split; [done|].
        destruct (Z.leb_spec RESOLVER_FAILURE_TOLERANCE (_subsiquentFailures s + 1)).
        -- right. exists r. destruct H as (Hb & Hf & Hd). eauto 10.
        -- left. destruct H as (Hb & Hf & Hd). auto 10.
  - rewrite (poll_without_resolver s now o Hc). simpl.
    split; [done|]. split; [done|]. left. auto.
Qed.

Lemma backend_inv_init (minRate : Q) (options : list string) (name pid : string)
    (rate : option Q) (alias : option string) :
  backend_inv (init minRate options name pid rate alias).
Proof.
  split; [|split; [|split]]; simpl.
  - constructor.
  - intros r Hr. by apply elem_of_nil in Hr.
  - unfold RESOLVER_FAILURE_TOLERANCE. lia.
  - destruct options as [|r options]; simpl; [done|].
    split; [apply list_elem_of_here|apply not_elem_of_nil].
Qed.

Lemma backend_inv_poll (s : ConnectionResolver) (now : Q) (o : outcome) :
  backend_inv s -> backend_inv (state (poll_cycle now o s)).
Proof.
  intros (Hnd & Hsub & Hf & Hd).
  destruct (poll_cycle_backend s now o) as (Hopt & _ & [(Hb & Hd' & Hf')|Hsw]).
  - unfold backend_inv. rewrite Hopt, Hb, Hd'.
    split; [done|]. split; [done|]. split; [|done].
    destruct Hf' as [->|[->|[-> ?]]]; unfold RESOLVER_FAILURE_TOLERANCE in *; lia.
  - destruct Hsw as (r & _ & Hr & _ & _ & Hb & Hf' & Hd').
    apply truthy_str_Some in Hr as [Hr _]. rewrite Hr in Hd. destruct Hd as [Hin Hnot].
    unfold backend_inv. rewrite Hopt, Hb, Hf', Hd'.
    split; [|split; [|split]].
    + apply NoDup_app. repeat split; [done| |apply NoDup_singleton].
      intros x Hx Hx'. apply list_elem_of_singleton in Hx'. by subst.
    + intros x Hx. apply elem_of_app in Hx as [Hx|Hx]; [by apply Hsub|].
      apply list_elem_of_singleton in Hx. by subst.
    + unfold RESOLVER_FAILURE_TOLERANCE. lia.
    + pose proof (pick_resolver_spec (resolverOptions s) (_resolverBlacklist s ++ [r]))
        as Hpick.
      destruct (pick_resolver _ _) as [n|]; [|done].
      destruct Hpick as (before & after & Hopts & Hn & _). split; [|done].
      rewrite Hopts. apply elem_of_app. right. apply list_elem_of_here.
Qed.

Lemma backend_inv_op (s : ConnectionResolver) (x : op) :
  backend_inv s -> backend_inv (apply_op s x).
Proof.
  intros H. destruct x as [r|pid|b| |start now o]; simpl; try done.
  - unfold setPaused. by destruct (Bool.eqb _ _).
  - unfold run_iteration. destruct (_halt s); [done|].
    destruct (_isPaused s || _); [done|]. by apply backend_inv_poll.
Qed.

Lemma backend_inv_ops (xs : list op) :
  forall s : ConnectionResolver, backend_inv s -> backend_inv (apply_ops s xs).
Proof.
  induction xs as [|x xs IH]; intros s H; [done|].
  apply (IH (apply_op s x)). by apply backend_inv_op.
Qed.

End PollingFacts.

(** X1. Whatever is called on a resolver and however its polls end, the
    default resolver is [None] or one of the options that is not blacklisted,
    the blacklist holds options only and none of them twice, so it is never
    longer than the list of options, and the failure counter stays below the
    tolerance of three. *)
Theorem backend_invariant (minRate : Q) (options : list string) (name pid : string)
    (rate : option Q) (alias : option string) (xs : list ConnResolver.op) :
  let s := ConnResolver.apply_ops
             (ConnResolver.init minRate options name pid rate alias) xs in
  match ConnResolver.defaultResolver s with
  | Some r => r ∈ ConnResolver.resolverOptions s /\
              r ∉ ConnResolver._resolverBlacklist s
  | None => True
  end /\
  NoDup (ConnResolver._resolverBlacklist s) /\
  (forall r, r ∈ ConnResolver._resolverBlacklist s -> r ∈ options) /\
  (length (ConnResolver._resolverBlacklist s) <= length options)%nat /\
  0 <= ConnResolver._subsiquentFailures s < 3.
Proof.
  intros s.
  assert (Hopt : forall ys s0, ConnResolver.resolverOptions (ConnResolver.apply_ops s0 ys)
                               = ConnResolver.resolverOptions s0).
  { induction ys as [|y ys IH]; intros s0; [done|].
    unfold ConnResolver.apply_ops. simpl. etrans; [apply IH|].
    destruct y as [r|p|b| |start now o]; simpl; try done.
    - unfold ConnResolver.setPaused. by destruct (Bool.eqb _ _).
    - unfold ConnResolver.run_iteration. destruct (ConnResolver._halt s0); [done|].
      destruct (ConnResolver._isPaused s0 || _); [done|].
      by destruct (poll_cycle_backend s0 now o) as [-> _]. }
  destruct (backend_inv_ops xs _ (backend_inv_init minRate options name pid rate alias))
    as (Hnd & Hsub & Hf & Hd).
  fold s in Hnd, Hsub, Hf, Hd. specialize (Hopt xs (ConnResolver.init minRate options name pid rate alias)).
  fold s in Hopt. simpl in Hopt. rewrite Hopt in Hsub.
  split; [exact Hd|]. split; [exact Hnd|]. split; [exact Hsub|]. split; [|exact Hf].
  apply submseteq_length, NoDup_submseteq; [exact Hnd|exact Hsub].
Qed.

Section ExhaustionFacts.
Import ConnResolver.

Lemma apply_ops_options (xs : list op) :
  forall s : ConnectionResolver, resolverOptions (apply_ops s xs) = resolverOptions s.
Proof.
  induction xs as [|x xs IH]; intros s; [done|].
  unfold apply_ops. simpl. etrans; [apply IH|].
  destruct x as [r|p|b| |start now o]; simpl; try done.
  - unfold setPaused. by destruct (Bool.eqb _ _).
  - unfold run_iteration. destruct (_halt s); [done|].
    destruct (_isPaused s || _); [done|].
    by destruct (poll_cycle_backend s now o) as [-> _].
Qed.

(** Blacklisting an option that was still free leaves fewer free options. *)
Lemma remaining_shrinks (options blacklist : list string) (r : string) :
  (length (filter (fun x => x ∉ blacklist ++ [r]) options)
   <= length (filter (fun x => x ∉ blacklist) options))%nat /\
  (r ∈ options -> r ∉ blacklist ->
   (length (filter (fun x => x ∉ blacklist ++ [r]) options)
    < length (filter (fun x => x ∉ blacklist) options))%nat).
Proof.
  induction options as [|o options [IHle IHlt]]; [split; [done|]|].
  { intros H. by apply elem_of_nil in H. }
  rewrite !filter_cons.
  destruct (decide (o ∉ blacklist ++ [r])) as [Ho|Ho];
    destruct (decide (o ∉ blacklist)) as [Ho'|Ho']; simpl.
  - split; [lia|]. intros Hin Hr. apply elem_of_cons in Hin as [->|Hin].
    + exfalso. apply Ho. apply elem_of_app. right. apply list_elem_of_here.
    + specialize (IHlt Hin Hr). lia.
  - exfalso. apply Ho'. intros H. apply Ho. apply elem_of_app. by left.
  - split; [lia|]. intros _ _. lia.
  - split; [done|]. intros Hin Hr. apply elem_of_cons in Hin as [->|Hin]; [done|].
    by apply IHlt.
Qed.

Lemma failures_left_positive (s : ConnectionResolver) (r : string) :
  backend_inv s -> truthy_str (defaultResolver s) = Some r -> 1 <= failures_left s.
Proof.
  intros (_ & _ & Hf & Hd) Hr. unfold failures_left. rewrite Hr.
  apply truthy_str_Some in Hr as [Hr _]. rewrite Hr in Hd. destruct Hd as [Hin Hnot].
  assert (r ∈ remaining s) as Hrem by (by apply list_elem_of_filter).
  destruct (remaining s); [by apply elem_of_nil in Hrem|].
  unfold RESOLVER_FAILURE_TOLERANCE in Hf. simpl length. lia.
Qed.

Lemma failed_cycle_progress (s : ConnectionResolver) (now : Q) (exc r : string) :
  backend_inv s -> overwriteResolver s = None ->
  truthy_str (defaultResolver s) = Some r ->
  failures_left (state (poll_cycle now (QueryFail exc) s)) <= failures_left s - 1.
Proof.
  intros Hinv Ho Hr.
  pose proof (failures_left_positive s r Hinv Hr) as Hpos.
  pose proof (backend_inv_poll s now (QueryFail exc) Hinv) as Hinv'.
  destruct (poll_fail_default s now exc r Ho Hr) as (_ & _ & Hopt & _ & H).
  set (s' := state (poll_cycle now (QueryFail exc) s)) in *.
  destruct Hinv as (_ & _ & Hf & Hd).
  destruct (truthy_str_Some _ _ Hr) as [Hr' _].
  rewrite Hr' in Hd. destruct Hd as [Hin Hnot].
  unfold RESOLVER_FAILURE_TOLERANCE in *.
  unfold failures_left in *. rewrite Hr in *.
  destruct (Z.leb_spec 3 (_subsiquentFailures s + 1)).
  - destruct H as (Hb & Hf' & Hd').
    destruct (remaining_shrinks (resolverOptions s) (_resolverBlacklist s) r) as [_ Hlt].
    specialize (Hlt Hin Hnot).
    destruct (truthy_str (defaultResolver s')); [|lia].
    unfold remaining in *. rewrite Hopt, Hb, Hf'. lia.
  - destruct H as (Hb & Hf' & Hd').
    rewrite Hd', Hr. unfold remaining. rewrite Hopt, Hb, Hf'. lia.
Qed.

Lemma failures_exhaust (cycles : list (Q * outcome)) :
  forall s : ConnectionResolver,
    backend_inv s -> overwriteResolver s = None -> all_failed cycles ->
    failures_left s <= Z.of_nat (length cycles) ->
    truthy_str (defaultResolver (poll_cycles s cycles)) = None.
Proof.
  induction cycles as [|[now o] cycles IH]; intros s Hinv Ho Hall Hleft.
  - destruct (truthy_str (defaultResolver s)) as [r|] eqn:Hr; [|done].
    pose proof (failures_left_positive s r Hinv Hr). simpl in Hleft. lia.
  - apply Forall_cons in Hall as [[exc Hexc] Hall]. simpl in Hexc. subst o.
    change (poll_cycles s ((now, QueryFail exc) :: cycles))
      with (poll_cycles (state (poll_cycle now (QueryFail exc) s)) cycles).
    destruct (poll_cycle_backend s now (QueryFail exc)) as (_ & Ho' & _).
    apply IH; [by apply backend_inv_poll|by rewrite Ho'|done|].
    destruct (truthy_str (defaultResolver s)) as [r|] eqn:Hr.
    + pose proof (failed_cycle_progress s now exc r Hinv Ho Hr).
      rewrite length_cons in Hleft. lia.
    + assert (Hc : truthy_str (current_resolver s) = None).
      { unfold current_resolver, is_default. by rewrite Ho. }
      rewrite (poll_without_resolver s now _ Hc). simpl.
      unfold failures_left. simpl. rewrite Hr. lia.
Qed.

Lemma poll_cycles_overwrite (cycles : list (Q * outcome)) :
  forall s : ConnectionResolver,
    overwriteResolver (poll_cycles s cycles) = overwriteResolver s.
Proof.
  induction cycles as [|[now o] cycles IH]; intros s; [done|].
  unfold poll_cycles. simpl. etrans; [apply IH|].
  by destruct (poll_cycle_backend s now o) as (_ & -> & _).
Qed.

End ExhaustionFacts.

(** X2. A resolver without an overwrite whose queries keep failing runs out
    of resolvers: after three failed cycles per option, at most, it has no
    default resolver left, and every later cycle queries nothing. *)
Theorem persistent_failure_exhausts (minRate : Q) (options : list string)
    (name pid : string) (rate : option Q) (alias : option string)
    (xs : list ConnResolver.op) (cycles : list (Q * ConnResolver.outcome))
    (Hover : ConnResolver.overwriteResolver
               (ConnResolver.apply_ops
                  (ConnResolver.init minRate options name pid rate alias) xs) = None)
    (Hall : ConnResolver.all_failed cycles)
    (Hlen : (3 * length options <= length cycles)%nat) :
  let s := ConnResolver.apply_ops
             (ConnResolver.init minRate options name pid rate alias) xs in
  let s' := ConnResolver.poll_cycles s cycles in
  ConnResolver.truthy_str (ConnResolver.defaultResolver s') = None /\
  forall now o,
    ConnResolver.did (ConnResolver.poll_cycle now o s') = ConnResolver.NoResolver /\
    ConnResolver.getConnections (ConnResolver.state (ConnResolver.poll_cycle now o s'))
      = ConnResolver.getConnections s'.
Proof.
  intros s s'.
  pose proof (backend_inv_ops xs _ (backend_inv_init minRate options name pid rate alias))
    as Hinv. fold s in Hinv.
  assert (Hleft : ConnResolver.failures_left s <= Z.of_nat (length cycles)).
  { unfold ConnResolver.failures_left. destruct (ConnResolver.truthy_str _); [|lia].
    destruct Hinv as (_ & _ & Hf & _). unfold ConnResolver.remaining.
    pose proof (apply_ops_options xs (ConnResolver.init minRate options name pid rate alias))
      as Hopt. fold s in Hopt. simpl in Hopt. rewrite Hopt.
    pose proof (length_filter (fun r => r ∉ ConnResolver._resolverBlacklist s) options).
    lia. }
  pose proof (failures_exhaust cycles s Hinv Hover Hall Hleft) as Hnone. fold s' in Hnone.
  split; [exact Hnone|]. intros now o.
  assert (Ho' : ConnResolver.overwriteResolver s' = None).
  { subst s'. by rewrite poll_cycles_overwrite. }
  assert (Hc : ConnResolver.truthy_str (ConnResolver.current_resolver s') = None).
  { unfold ConnResolver.current_resolver, ConnResolver.is_default. by rewrite Ho'. }
  rewrite (poll_without_resolver s' now o Hc). done.
Qed.

(** X2 on a resolver with two options and six failed cycles. *)
Lemma persistent_failure_exhausts_witness :
  let fail := ConnResolver.QueryFail "" in
  let s' := ConnResolver.poll_cycles
              (ConnResolver.init 5 ["netstat"; "lsof"] "tor" "" None None)
              [(10, fail); (20, fail); (30, fail); (40, fail); (50, fail); (60, fail)]%Q in
  ConnResolver.truthy_str (ConnResolver.defaultResolver s') = None /\
  ConnResolver.did (ConnResolver.poll_cycle 70 (ConnResolver.QueryOk [] 1) s')
    = ConnResolver.NoResolver.
Proof.
  intros fail s'.
  assert (Hall : ConnResolver.all_failed
            [(10, fail); (20, fail); (30, fail); (40, fail); (50, fail); (60, fail)]%Q).
  { unfold ConnResolver.all_failed.
    repeat (apply Forall_cons_2; [by eexists|]). apply Forall_nil_2. }
  assert (Hlen : (3 * length ["netstat"; "lsof"] <= 6)%nat) by (simpl; lia).
  pose proof (persistent_failure_exhausts 5 ["netstat"; "lsof"] "tor" "" None None []
                [(10, fail); (20, fail); (30, fail); (40, fail); (50, fail); (60, fail)]%Q
                eq_refl Hall Hlen) as H.
  cbv zeta in H. destruct H as [Hnone Hlater].
  exact (conj Hnone (proj1 (Hlater 70%Q (ConnResolver.QueryOk [] 1)))).
Defined.

Section CounterFacts.
Import ConnResolver.

Lemma run_iteration_count (s : ConnectionResolver) (start now : Q) (o : outcome) :
  let res := run_iteration start now o s in
  match did res, o with
  | Queried _, QueryOk conns _ =>
      _resolutionCounter (state res) = _resolutionCounter s + 1 /\
      _connections (state res) = conns
  | _, _ =>
      _resolutionCounter (state res) = _resolutionCounter s /\
      _connections (state res) = _connections s
  end.
Proof.
  unfold run_iteration. destruct (_halt s); [done|].
  destruct (_isPaused s || _); [done|].
  destruct (truthy_str (current_resolver s)) as [r|] eqn:Hc.
  - destruct o as [conns t|exc].
    + destruct (poll_ok s now t conns r Hc) as (-> & _ & _ & _ & Hconn & Hn & _). done.
    + unfold poll_cycle. rewrite Hc. unfold note_failure. simpl.
      destruct (is_default s); [|done].
      by destruct (RESOLVER_FAILURE_TOLERANCE <=? _).
  - rewrite (poll_without_resolver s now o Hc). by destruct o.
Qed.

Lemma apply_op_count (s : ConnectionResolver) (x : op) :
  _resolutionCounter s <= _resolutionCounter (apply_op s x).
Proof.
  destruct x as [r|pid|b| |start now o]; simpl; try done.
  - unfold setPaused. by destruct (Bool.eqb _ _).
  - pose proof (run_iteration_count s start now o) as H. simpl in H.
    destruct (did _); try (destruct H as [-> _]; lia).
    destruct o; destruct H as [-> _]; lia.
Qed.

(** With an overwrite resolver in force a cycle leaves the fallback state
    alone, however the query ends. *)
Lemma poll_overwritten (s : ConnectionResolver) (now : Q) (o : outcome) (r : string) :
  truthy_str (overwriteResolver s) = Some r ->
  let res := poll_cycle now o s in
  did res = Queried r /\
  overwriteResolver (state res) = overwriteResolver s /\
  defaultResolver (state res) = defaultResolver s /\
  _resolverBlacklist (state res) = _resolverBlacklist s /\
  _subsiquentFailures (state res) = _subsiquentFailures s.
Proof.
  intros Hr. destruct (truthy_str_Some _ _ Hr) as [Ho _].
  assert (Hc : truthy_str (current_resolver s) = Some r).
  { unfold current_resolver, is_default. rewrite Ho. by rewrite Ho in Hr. }
  destruct o as [conns t|exc].
  - destruct (poll_ok s now t conns r Hc) as (Hdid & Ho' & Hd & Hb & _ & _ & _ & Hf & _).
    unfold is_default in Hf. rewrite Ho in Hf. done.
  - unfold poll_cycle. rewrite Hc. unfold is_default. by rewrite Ho.
Qed.

End CounterFacts.

(** X3. A pass of the loop that queried successfully raises the resolution
    count by exactly one and installs the new connections; every other pass
    (halted, asleep, no resolver, failed query) leaves both the count and the
    cached connections as they were.  So the count never goes down, whatever
    is called on the resolver. *)
Theorem resolution_count_steps (s : ConnResolver.ConnectionResolver) :
  (forall start now o,
     let res := ConnResolver.run_iteration start now o s in
     match ConnResolver.did res, o with
     | ConnResolver.Queried _, ConnResolver.QueryOk conns _ =>
         ConnResolver.getResolutionCount (ConnResolver.state res)
           = ConnResolver.getResolutionCount s + 1 /\
         ConnResolver._connections (ConnResolver.state res) = conns
     | _, _ =>
         ConnResolver.getResolutionCount (ConnResolver.state res)
           = ConnResolver.getResolutionCount s /\
         ConnResolver._connections (ConnResolver.state res)
           = ConnResolver._connections s
     end) /\
  (forall xs, ConnResolver.getResolutionCount s
              <= ConnResolver.getResolutionCount (ConnResolver.apply_ops s xs)).
Proof.
  split.
  - intros start now o. apply run_iteration_count.
  - intros xs. revert s. induction xs as [|x xs IH]; intros s; [done|].
    etrans; [apply (apply_op_count s x)|]. apply (IH (ConnResolver.apply_op s x)).
Qed.

(** X4. While the resolver is paused, or less than [minWait] has passed since
    the last lookup, a pass of the loop touches nothing and asks nothing: it
    sleeps, for at least 0.2 seconds and at least the rest of the wait.  Every
    poll cycle stamps [lastLookup] with its own time, whatever its outcome,
    so two queries are never closer than [minWait]. *)
Theorem waits_between_polls (s : ConnResolver.ConnectionResolver) :
  (forall start now o,
     ConnResolver._halt s = false ->
     ConnResolver._isPaused s = true \/
     (start - ConnResolver.lastLookup s < ConnResolver.minWait s)%Q ->
     let res := ConnResolver.run_iteration start now o s in
     ConnResolver.state res = s /\
     exists sleepTime,
       ConnResolver.did res = ConnResolver.Slept sleepTime /\
       (2 # 10 <= sleepTime)%Q /\
       (ConnResolver.minWait s - (start - ConnResolver.lastLookup s) <= sleepTime)%Q) /\
  (forall now o,
     ConnResolver.lastLookup (ConnResolver.state (ConnResolver.poll_cycle now o s)) = now).
Proof.
  split.
  - intros start now o Hh Hw res. subst res. unfold ConnResolver.run_iteration.
    rewrite Hh. fold (ConnResolver.minWait s).
    assert (Hif : ConnResolver._isPaused s ||
              (if Qlt_le_dec (start - ConnResolver.lastLookup s) (ConnResolver.minWait s)
               then true else false) = true).
    { destruct Hw as [->|Hlt]; [done|].
      destruct (Qlt_le_dec _ _) as [_|Hle]; [by rewrite orb_true_r|].
      exfalso. by apply (Qlt_not_le _ _ Hlt). }
    rewrite Hif. simpl. split; [done|]. eexists. split; [done|].
    unfold ConnResolver.Qmax.
    destruct (Qlt_le_dec (2 # 10) _) as [Hlt|Hle]; split; lra.
  - intros now o. unfold ConnResolver.poll_cycle.
    destruct (ConnResolver.truthy_str _); [|done].
    destruct o as [conns t|exc].
    + by destruct (ConnResolver.adapt_rate _ _).
    + by destruct (if ConnResolver.is_default s then _ else _).
Qed.

(** X4 on a fresh resolver polled at time 1000: a pass two seconds later
    sleeps for the three seconds that are left of the default five. *)
Lemma waits_between_polls_witness :
  let s := ConnResolver.state
             (ConnResolver.poll_cycle 1000 (ConnResolver.QueryFail "")
                (ConnResolver.init 5 ["netstat"] "tor" "" None None)) in
  let res := ConnResolver.run_iteration 1002 1003 (ConnResolver.QueryOk [] 1) s in
  ConnResolver.lastLookup s = 1000%Q /\
  ConnResolver.state res = s /\
  exists sleepTime,
    ConnResolver.did res = ConnResolver.Slept sleepTime /\ (3 <= sleepTime)%Q.
Proof.
  intros s res.
  destruct (waits_between_polls s) as [Hwait _].
  destruct (waits_between_polls (ConnResolver.init 5 ["netstat"] "tor" "" None None))
    as [_ Hstamp].
  assert (Hlt : (1002 - ConnResolver.lastLookup s < ConnResolver.minWait s)%Q)
    by (by vm_compute).
  destruct (Hwait 1002%Q 1003%Q (ConnResolver.QueryOk [] 1) eq_refl (or_intror Hlt))
    as (Hsame & sleepTime & Hdid & _ & Hrest).
  split; [apply Hstamp|]. split; [exact Hsame|].
  exists sleepTime. split; [exact Hdid|].
  eapply Qle_trans; [|exact Hrest]. by vm_compute.
Defined.

(** X5. While an overwrite resolver is set, every cycle queries that
    resolver, and no outcome, success or failure, touches the failure counter,
    the blacklist or the default resolver: a forced resolver is never given up
    and never falls back. *)
Theorem overwrite_never_falls_back (s : ConnResolver.ConnectionResolver) (r : string)
    (cycles : list (Q * ConnResolver.outcome))
    (Hr : ConnResolver.truthy_str (ConnResolver.overwriteResolver s) = Some r) :
  let s' := ConnResolver.poll_cycles s cycles in
  ConnResolver.overwriteResolver s' = ConnResolver.overwriteResolver s /\
  ConnResolver.defaultResolver s' = ConnResolver.defaultResolver s /\
  ConnResolver._resolverBlacklist s' = ConnResolver._resolverBlacklist s /\
  ConnResolver._subsiquentFailures s' = ConnResolver._subsiquentFailures s /\
  forall now o, ConnResolver.did (ConnResolver.poll_cycle now o s') = ConnResolver.Queried r.
Proof.
  revert s Hr. induction cycles as [|[now o] cycles IH]; intros s Hr s'.
  - subst s'. simpl. repeat split. intros now o. by apply poll_overwritten.
  - destruct (poll_overwritten s now o r Hr) as (_ & Ho & Hd & Hb & Hf).
    subst s'.
    change (ConnResolver.poll_cycles s ((now, o) :: cycles))
      with (ConnResolver.poll_cycles
              (ConnResolver.state (ConnResolver.poll_cycle now o s)) cycles).
    destruct (IH (ConnResolver.state (ConnResolver.poll_cycle now o s)))
      as (Ho' & Hd' & Hb' & Hf' & Hq); [by rewrite Ho|].
    rewrite Ho', Hd', Hb', Hf'. done.
Qed.

(** X5 on a resolver forced to [ss]: four failures in a row change nothing
    of the fallback state. *)
Lemma overwrite_never_falls_back_witness :
  let fail := ConnResolver.QueryFail "" in
  let s := ConnResolver.setOverwriteResolver (Some "ss")
             (ConnResolver.init 5 ["netstat"; "lsof"] "tor" "" None None) in
  let s' := ConnResolver.poll_cycles s [(10, fail); (20, fail); (30, fail); (40, fail)]%Q in
  ConnResolver.defaultResolver s' = Some "netstat" /\
  ConnResolver._resolverBlacklist s' = [] /\
  ConnResolver._subsiquentFailures s' = 0.
Proof.
  intros fail s s'.
  destruct (overwrite_never_falls_back s "ss"
              [(10, fail); (20, fail); (30, fail); (40, fail)]%Q eq_refl)
    as (_ & Hd & Hb & Hf & _).
  exact (conj Hd (conj Hb Hf)).
Defined.

(** ** The resolver registry *)

Section RegistryFacts.
Import ConnResolver Registry.
Variables (recreate : bool) (requestHandle pid : string).

#[local] Abbreviation matches := (handle_matches requestHandle pid).
#[local] Abbreviation skipped := (fun r : ConnectionResolver => _halt r && recreate).

Lemma scan_cons (i : nat) (h : option nat) (r : ConnectionResolver)
    (l : list ConnectionResolver) :
  scan recreate requestHandle pid i h (r :: l) =
    if matches r then
      if skipped r then scan recreate requestHandle pid (S i) (Some i) l
      else Existing i
    else scan recreate requestHandle pid (S i) h l.
Proof. done. Qed.

(** What the loop found, and what it passed on the way. *)
Lemma scan_spec (l : list ConnectionResolver) :
  forall (i0 : nat) (h0 : option nat),
    match scan recreate requestHandle pid i0 h0 l with
    | Existing i =>
        exists k r, i = (i0 + k)%nat /\ l !! k = Some r /\
          matches r = true /\ skipped r = false /\
          forall j r', (j < k)%nat -> l !! j = Some r' -> matches r' = true ->
                       skipped r' = true
    | Missing h =>
        (forall j r', l !! j = Some r' -> matches r' = true -> skipped r' = true) /\
        (h = h0 \/
         exists k r, h = Some (i0 + k)%nat /\ l !! k = Some r /\ matches r = true)
    end.
Proof.
  induction l as [|r l IH]; intros i0 h0.
  - simpl. split; [|by left]. intros j r' H. by rewrite lookup_nil in H.
  - rewrite scan_cons. destruct (matches r) eqn:Hm; [destruct (skipped r) eqn:Hs|].
    + specialize (IH (S i0) (Some i0)).
      destruct (scan recreate requestHandle pid (S i0) (Some i0) l) as [i|h].
      * destruct IH as (k & r1 & -> & Hk & Hm1 & Hs1 & Hbefore).
        exists (S k), r1. split; [lia|]. split; [done|]. split; [done|]. split; [done|].
        intros [|j] r' Hj Hr' Hm'; simpl in Hr'; [by injection Hr' as <-|].
        apply (Hbefore j r'); [lia|done..].
      * destruct IH as (Hall & Hh). split.
        -- intros [|j] r' Hr' Hm'; simpl in Hr'; [by injection Hr' as <-|].
           by apply (Hall j r').
        -- right. destruct Hh as [->|(k & r1 & -> & Hk & Hm1)].
           ++ exists 0%nat, r. split; [f_equal; lia|done].
           ++ exists (S k), r1. split; [f_equal; lia|done].
    + exists 0%nat, r. split; [lia|]. split; [done|]. split; [done|]. split; [done|].
      intros j r' Hj. lia.
    + specialize (IH (S i0) h0).
      destruct (scan recreate requestHandle pid (S i0) h0 l) as [i|h].
      * destruct IH as (k & r1 & -> & Hk & Hm1 & Hs1 & Hbefore).
        exists (S k), r1. split; [lia|]. split; [done|]. split; [done|]. split; [done|].
        intros [|j] r' Hj Hr' Hm'; simpl in Hr'; [injection Hr' as <-; congruence|].
        apply (Hbefore j r'); [lia|done..].
      * destruct IH as (Hall & Hh). split.
        -- intros [|j] r' Hr' Hm'; simpl in Hr'; [injection Hr' as <-; congruence|].
           by apply (Hall j r').
        -- destruct Hh as [->|(k & r1 & -> & Hk & Hm1)]; [by left|].
           right. exists (S k), r1. split; [f_equal; lia|done].
Qed.

(** The loop returns the first match it may not skip. *)
Lemma scan_finds (l : list ConnectionResolver) :
  forall (i0 : nat) (h0 : option nat) (k : nat) (r : ConnectionResolver),
    l !! k = Some r -> matches r = true -> skipped r = false ->
    (forall j r', (j < k)%nat -> l !! j = Some r' -> matches r' = true ->
                  skipped r' = true) ->
    scan recreate requestHandle pid i0 h0 l = Existing (i0 + k).
Proof.
  induction l as [|x l IH]; intros i0 h0 k r Hk Hm Hs Hbefore.
  - by rewrite lookup_nil in Hk.
  - rewrite scan_cons. destruct k as [|k]; simpl in Hk.
    + injection Hk as ->. rewrite Hm, Hs. f_equal. lia.
    + assert (Hx : matches x = true -> skipped x = true).
      { apply (Hbefore 0%nat x); [lia|done]. }
      assert (Hrest : forall h, scan recreate requestHandle pid (S i0) h l
                                = Existing (i0 + S k)).
      { intros h. replace (i0 + S k)%nat with (S i0 + k)%nat by lia.
        apply (IH (S i0) h k r Hk Hm Hs). intros j r' Hj Hr'.
        apply (Hbefore (S j) r'); [lia|done]. }
      destruct (matches x); [rewrite Hx by done|]; apply Hrest.
Qed.

End RegistryFacts.

Section RegistryCreate.
Import ConnResolver Registry.

(** The instance the constructor makes answers to the handle and the pid it
    was asked for. *)
Lemma created_matches (minRate : Q) (systemResolvers : list string)
    (name pid : string) (alias : option string) :
  let r := init minRate systemResolvers name pid None
             (Some (request_handle name alias)) in
  handle r = request_handle name alias /\
  handle_matches (request_handle name alias) pid r = true /\
  _halt r = false /\ processName r = name /\ processPid r = pid.
Proof.
  intros r.
  assert (Hh : handle r = request_handle name alias).
  { subst r. simpl. unfold request_handle.
    destruct alias as [[|a alias]|]; simpl; try done; by destruct name. }
  split; [exact Hh|]. split; [|done].
  unfold handle_matches. rewrite Hh, String.eqb_refl. simpl.
  unfold pid_matches. destruct pid; [done|]. apply String.eqb_refl.
Qed.

End RegistryCreate.

Section RegistryFind.

Lemma getResolver_finds_or_creates_aux (recreate : bool) (minRate : Q)
    (systemResolvers : list string) (name pid : string) (alias : option string)
    (RESOLVERS : list ConnResolver.ConnectionResolver) :
  let out := Registry.getResolver_with recreate minRate systemResolvers name pid alias
               RESOLVERS in
  exists r,
    snd out !! fst out = Some r /\
    ConnResolver.handle r = Registry.request_handle name alias /\
    Registry.pid_matches pid r = true /\
    (recreate = true -> ConnResolver._halt r = false) /\
    (length RESOLVERS <= length (snd out) <= S (length RESOLVERS))%nat /\
    (forall j, j <> fst out -> (j < length RESOLVERS)%nat ->
               snd out !! j = RESOLVERS !! j) /\
    (snd out = RESOLVERS \/
     r = ConnResolver.init minRate systemResolvers name pid None
           (Some (Registry.request_handle name alias))).
Proof.
  intros out. subst out. unfold Registry.getResolver_with.
  pose proof (scan_spec recreate (Registry.request_handle name alias) pid RESOLVERS 0 None)
    as Hscan.
  pose proof (created_matches minRate systemResolvers name pid alias) as Hnew.
  cbv zeta in Hnew. destruct Hnew as (Hh & Hm & Hhalt & _ & _).
  apply andb_true_iff in Hm as [_ Hp].
  destruct (Registry.scan _ _ _ _ _ _) as [i|h].
  - destruct Hscan as (k & r & -> & Hk & Hm' & Hs & _). simpl.
    apply andb_true_iff in Hm' as [Hh' Hp']. apply String.eqb_eq in Hh'.
    exists r. repeat split; try done; try lia; [|by left].
    intros ->. rewrite andb_true_r in Hs. exact Hs.
  - destruct Hscan as [_ [->|(k & r & -> & Hk & _)]]; simpl.
    + eexists. split; [apply list_lookup_middle; done|].
      rewrite length_app. simpl.
      repeat split; try done; try lia; [|by right].
      intros j _ Hj. by apply lookup_app_l.
    + apply lookup_lt_Some in Hk as Hlt.
      eexists. split; [by apply list_lookup_insert_eq|].
      rewrite length_insert.
      repeat split; try done; try lia; [|by right].
      intros j Hj _. by apply list_lookup_insert_ne.
Qed.

End RegistryFind.

(** X6. [getResolver] finds or creates.  The instance it returns is in the
    registry, answers to the requested handle and, when a pid is given, that
    pid; the registry keeps every other entry and grows by one at most.  A
    resolver is created only when no usable match exists, and then it is the
    constructor's fresh, running instance for the process asked for.  With
    [RECREATE_HALTED_RESOLVERS] set the instance returned is never a halted
    one. *)
Theorem getResolver_finds_or_creates (recreate : bool) (minRate : Q)
    (systemResolvers : list string) (name pid : string) (alias : option string)
    (RESOLVERS : list ConnResolver.ConnectionResolver) :
  let out := Registry.getResolver_with recreate minRate systemResolvers name pid alias
               RESOLVERS in
  exists r,
    snd out !! fst out = Some r /\
    ConnResolver.handle r = Registry.request_handle name alias /\
    Registry.pid_matches pid r = true /\
    (recreate = true -> ConnResolver._halt r = false) /\
    (length RESOLVERS <= length (snd out) <= S (length RESOLVERS))%nat /\
    (forall j, j <> fst out -> (j < length RESOLVERS)%nat ->
               snd out !! j = RESOLVERS !! j) /\
    (snd out = RESOLVERS \/
     r = ConnResolver.init minRate systemResolvers name pid None
           (Some (Registry.request_handle name alias))).
Proof. apply getResolver_finds_or_creates_aux. Qed.

Section RegistryAgain.
Import ConnResolver Registry.

Lemma getResolver_with_stable (recreate : bool) (minRate : Q)
    (systemResolvers : list string) (name pid : string) (alias : option string)
    (RESOLVERS : list ConnectionResolver) :
  let out := getResolver_with recreate minRate systemResolvers name pid alias
               RESOLVERS in
  getResolver_with recreate minRate systemResolvers name pid alias (snd out) = out.
Proof.
  intros out. subst out. unfold getResolver_with.
  pose proof (scan_spec recreate (request_handle name alias) pid RESOLVERS 0 None)
    as Hscan.
  pose proof (created_matches minRate systemResolvers name pid alias) as Hnew.
  cbv zeta in Hnew. destruct Hnew as (_ & Hm & Hhalt & _ & _).
  destruct (scan _ _ _ _ _ RESOLVERS) as [i|h] eqn:Hfirst.
  - simpl. by rewrite Hfirst.
  - destruct Hscan as [Hall [->|(k & r & -> & Hk & _)]]; simpl.
    + rewrite (scan_finds recreate _ pid _ 0 None (length RESOLVERS) _
                 (list_lookup_middle _ _ _ _ eq_refl) Hm).
      * done.
      * by rewrite Hhalt.
      * intros j r' Hj Hr'. apply (Hall j r'). by rewrite lookup_app_l in Hr'.
    + apply lookup_lt_Some in Hk as Hlt.
      rewrite (scan_finds recreate _ pid _ 0 None k _
                 (list_lookup_insert_eq _ _ _ Hlt) Hm).
      * done.
      * by rewrite Hhalt.
      * intros j r' Hj Hr'. apply (Hall j r').
        rewrite list_lookup_insert_ne in Hr' by lia. done.
Qed.

(** The loop of [getResolver] came back with an entry of the list. *)
Lemma getResolver_with_existing (recreate : bool) (minRate : Q)
    (systemResolvers : list string) (name pid : string) (alias : option string)
    (RESOLVERS : list ConnectionResolver) (i : nat) :
  getResolver_with recreate minRate systemResolvers name pid alias RESOLVERS
    = (i, RESOLVERS) ->
  recreate = false ->
  scan recreate (request_handle name alias) pid 0 None RESOLVERS = Existing i.
Proof.
  intros Hget ->. unfold getResolver_with in Hget.
  pose proof (scan_spec false (request_handle name alias) pid RESOLVERS 0 None) as Hscan.
  destruct (scan _ _ _ _ _ _) as [i0|h].
  - by injection Hget as ->.
  - destruct Hscan as [Hall [->|(k & r & -> & Hk & Hm)]].
    + injection Hget as _ Hl. apply (f_equal length) in Hl.
      rewrite length_app in Hl. simpl in Hl. lia.
    + specialize (Hall k r Hk Hm). by rewrite andb_false_r in Hall.
Qed.

End RegistryAgain.

(** X7. Asking again gives the same instance: a second [getResolver] with
    the same arguments returns the place the first one returned and leaves the
    registry as the first one left it. *)
Theorem getResolver_again (recreate : bool) (minRate : Q)
    (systemResolvers : list string) (name pid : string) (alias : option string)
    (RESOLVERS : list ConnResolver.ConnectionResolver) :
  let out := Registry.getResolver_with recreate minRate systemResolvers name pid alias
               RESOLVERS in
  Registry.getResolver_with recreate minRate systemResolvers name pid alias (snd out)
    = out.
Proof. apply getResolver_with_stable. Qed.

(** X8. When [getResolver] has to create an instance, [isResolverAlive]
    holds afterwards for the process name and pid it was created for. *)
Theorem created_resolver_is_alive (recreate : bool) (minRate : Q)
    (systemResolvers : list string) (name pid : string) (alias : option string)
    (RESOLVERS : list ConnResolver.ConnectionResolver)
    (Hnew : snd (Registry.getResolver_with recreate minRate systemResolvers name pid
                   alias RESOLVERS) <> RESOLVERS) :
  Registry.isResolverAlive name pid
    (snd (Registry.getResolver_with recreate minRate systemResolvers name pid alias
            RESOLVERS)) = true.
Proof.
  destruct (getResolver_finds_or_creates_aux recreate minRate systemResolvers name pid
              alias RESOLVERS) as (r & Hr & _ & _ & _ & _ & _ & [Hsame| ->]); [done|].
  pose proof (created_matches minRate systemResolvers name pid alias) as Hc.
  cbv zeta in Hc. destruct Hc as (_ & Hm & Hhalt & Hname & _).
  apply andb_true_iff in Hm as [_ Hp].
  unfold Registry.isResolverAlive. apply existsb_exists.
  eexists. split; [apply list_elem_of_In; by eapply list_elem_of_lookup_2|].
  by rewrite Hhalt, Hname, String.eqb_refl, Hp.
Qed.

(** X8 on an empty registry. *)
Lemma created_resolver_is_alive_witness :
  Registry.isResolverAlive "tor" "" [] = false /\
  Registry.isResolverAlive "tor" ""
    (snd (Registry.getResolver_with false 5 ["netstat"] "tor" "" None [])) = true.
Proof.
  split; [reflexivity|].
  apply (created_resolver_is_alive false 5 ["netstat"] "tor" "" None []).
  discriminate.
Defined.

(** X9. As shipped, with [RECREATE_HALTED_RESOLVERS] false, a stopped
    resolver keeps its handle: once the instance [getResolver] returned has
    been stopped, [getResolver] returns that same halted instance again and
    creates nothing, so its caller reads no connections from it. *)
Theorem stopped_resolver_keeps_its_handle (minRate : Q)
    (systemResolvers : list string) (name pid : string) (alias : option string)
    (RESOLVERS : list ConnResolver.ConnectionResolver)
    (r : ConnResolver.ConnectionResolver) :
  let out := Registry.getResolver minRate systemResolvers name pid alias RESOLVERS in
  snd out !! fst out = Some r ->
  let stopped := <[fst out := ConnResolver.stop r]> (snd out) in
  Registry.getResolver minRate systemResolvers name pid alias stopped
    = (fst out, stopped) /\
  stopped !! fst out = Some (ConnResolver.stop r) /\
  ConnResolver.getConnections (ConnResolver.stop r) = [].
Proof.
  intros out Hr stopped. subst stopped out.
  unfold Registry.getResolver in *.
  change Registry.RECREATE_HALTED_RESOLVERS with false in *.
  set (out := Registry.getResolver_with false minRate systemResolvers name pid alias
                RESOLVERS) in *.
  pose proof (getResolver_with_stable false minRate systemResolvers name pid alias RESOLVERS)
    as Hagain. cbv zeta in Hagain. fold out in Hagain.
  assert (Hout : out = (fst out, snd out)) by (by destruct out).
  rewrite Hout in Hagain at 2.
  apply getResolver_with_existing in Hagain; [|done].
  pose proof (scan_spec false (Registry.request_handle name alias) pid (snd out) 0 None)
    as Hscan. rewrite Hagain in Hscan.
  destruct Hscan as (k & r' & Hk & Hk' & Hm & _ & Hbefore). simpl in Hk. subst k.
  rewrite Hr in Hk'. injection Hk' as <-.
  apply lookup_lt_Some in Hr as Hlt.
  split; [|split; [by apply list_lookup_insert_eq|done]].
  unfold Registry.getResolver_with.
  rewrite (scan_finds false _ pid _ 0 None (fst out) (ConnResolver.stop r)).
  - done.
  - by apply list_lookup_insert_eq.
  - exact Hm.
  - apply andb_false_r.
  - intros j r' Hj Hr' Hm'. apply (Hbefore j r' Hj); [|done].
    by rewrite list_lookup_insert_ne in Hr' by lia.
Qed.

(** X9 on an empty registry: create, stop, ask again. *)
Lemma stopped_resolver_keeps_its_handle_witness :
  let r := ConnResolver.init 5 ["netstat"] "tor" "" None (Some "tor") in
  Registry.getResolver 5 ["netstat"] "tor" "" None [] = (0%nat, [r]) /\
  Registry.getResolver 5 ["netstat"] "tor" "" None [ConnResolver.stop r]
    = (0%nat, [ConnResolver.stop r]) /\
  Registry.isResolverAlive "tor" "" [ConnResolver.stop r] = false.
Proof.
  intros r.
  destruct (stopped_resolver_keeps_its_handle 5 ["netstat"] "tor" "" None [] r eq_refl)
    as (Hget & _ & _).
  exact (conj eq_refl (conj Hget eq_refl)).
Defined.

(** ** The application resolver's worker *)

Section WorkerFacts.
Import AppResolver.
Variables (ownPid script : string).

#[local] Arguments finish : simpl never.
#[local] Arguments after_lsof : simpl never.
#[local] Arguments clear_results : simpl never.
#[local] Arguments partition_ports : simpl never.

#[local] Abbreviation ok := (results_ok ownPid script).

(** The loop of lines 461-464 from any point on. *)
Lemma partition_fold {V : Type} (cache : gmap string V) (ports : list string) :
  forall (results : gmap string V) (lsofArgs : list string),
    let out := foldl (fun acc port =>
                        match cache !! port with
                        | Some cached => (<[port := cached]> (fst acc), snd acc)
                        | None => (fst acc, snd acc ++ ["-i tcp:" +:+ port])
                        end) (results, lsofArgs) ports in
    (forall q, fst out !! q =
               if bool_decide (q ∈ ports)
               then match cache !! q with Some v => Some v | None => results !! q end
               else results !! q) /\
    snd out = lsofArgs ++
      ((fun port => "-i tcp:" +:+ port) <$> filter (fun port => cache !! port = None) ports).
Proof.
  induction ports as [|p ports IH]; intros results lsofArgs; simpl.
  - split; [done|]. by rewrite app_nil_r.
  - destruct (cache !! p) as [cached|] eqn:Hp; simpl.
    + destruct (IH (<[p := cached]> results) lsofArgs) as [Hl Ha]. split.
      * intros q. rewrite Hl. destruct (decide (q = p)) as [->|Hne].
        -- rewrite Hp, lookup_insert_eq.
           rewrite (bool_decide_eq_true_2 (_ ∈ _ :: _)) by apply list_elem_of_here.
           by case_bool_decide.
        -- rewrite lookup_insert_ne by done.
           rewrite (bool_decide_ext _ _ (elem_of_cons ports q p)).
           repeat case_bool_decide; try done; tauto.
      * rewrite Ha. by rewrite filter_cons_False by (by rewrite Hp).
    + destruct (IH results (lsofArgs ++ ["-i tcp:" +:+ p])) as [Hl Ha]. split.
      * intros q. rewrite Hl. destruct (decide (q = p)) as [->|Hne].
        -- rewrite Hp.
           rewrite (bool_decide_eq_true_2 (_ ∈ _ :: _)) by apply list_elem_of_here.
           by case_bool_decide.
        -- rewrite (bool_decide_ext _ _ (elem_of_cons ports q p)).
           repeat case_bool_decide; try done; tauto.
      * rewrite Ha, filter_cons_True by done. by rewrite <- app_assoc.
Qed.

Lemma partition_ports_lookup (cache : gmap string (list entry)) (ports : list string)
    (q : string) :
  fst (partition_ports cache ports) !! q =
    if bool_decide (q ∈ ports) then cache !! q else None.
Proof.
  unfold partition_ports.
  destruct (partition_fold cache ports ∅ []) as [Hl _]. rewrite Hl.
  rewrite lookup_empty. case_bool_decide; [|done]. by destruct (cache !! q).
Qed.

Lemma partition_ports_args (cache : gmap string (list entry)) (ports : list string) :
  snd (partition_ports cache ports) =
    (fun port => "-i tcp:" +:+ port) <$> filter (fun port => cache !! port = None) ports.
Proof.
  unfold partition_ports. by destruct (partition_fold cache ports ∅ []) as [_ ->].
Qed.

Lemma partition_ports_ok (cache : gmap string (list entry)) (ports : list string) :
  ok cache -> ok (fst (partition_ports cache ports)).
Proof.
  intros H key l e Hk. rewrite partition_ports_lookup in Hk.
  case_bool_decide; [|done]. by apply H.
Qed.

Lemma add_entry_ok (ports : list string) (e : entry)
    (results : gmap string (list entry)) (portMatch : string) :
  ok results -> entry_ok ownPid script portMatch e ->
  ok (add_entry ports e results portMatch).
Proof.
  intros H He key l x. unfold add_entry. case_bool_decide; [|by apply H].
  destruct (results !! portMatch) as [old|] eqn:Hold;
    (destruct (decide (key = portMatch)) as [->|Hne];
     [rewrite lookup_insert_eq|rewrite lookup_insert_ne by done; by apply H]).
  - intros [= <-] Hx. apply elem_of_app in Hx as [Hx|Hx]; [by eapply H|].
    apply list_elem_of_singleton in Hx. by subst.
  - intros [= <-] Hx. apply list_elem_of_singleton in Hx. by subst.
Qed.

Lemma parse_line_ok (ports : list string)
    (acc acc' : gmap string (list entry) * option (string * string)) (line : string) :
  parse_line ownPid script ports acc line = Some acc' ->
  ok (fst acc) -> ok (fst acc').
Proof.
  unfold parse_line. intros Hp H.
  repeat (case_match; simplify_eq/=; try done).
  all: match goal with
       | Hd : _ && _ = true |- _ => apply andb_true_iff in Hd as [Hd1 Hd2]
       end.
  all: repeat apply add_entry_ok; try done.
  all: unfold entry_ok, entry_iPort, entry_oPort, entry_pid, entry_cmd; simpl.
  all: repeat split; auto.
  all: intros ->; by rewrite ?String.eqb_refl in *.
Qed.

Lemma parse_lines_ok (ports : list string) (lines : list string) :
  forall acc acc',
    parse_lines ownPid script ports acc lines = Some acc' ->
    ok (fst acc) -> ok (fst acc').
Proof.
  induction lines as [|line lines IH]; intros acc acc' Hp H; simpl in Hp.
  - by injection Hp as <-.
  - destruct (parse_line ownPid script ports acc line) as [acc1|] eqn:Hl; [|done].
    apply (IH acc1 acc' Hp). by eapply parse_line_ok.
Qed.

(** [drop_sh] only takes away. *)
Lemma drop_sh_subset (l : list entry) (e : entry) : e ∈ drop_sh l -> e ∈ l.
Proof.
  induction l as [|x l IH]; simpl; [done|].
  destruct (String.eqb (entry_cmd x) "sh").
  - intros H. by apply list_elem_of_further.
  - intros H. apply elem_of_cons in H as [->|H];
      [apply list_elem_of_here|by apply list_elem_of_further, IH].
Qed.

Lemma alter_drop_sh_ok (port : string) (results : gmap string (list entry)) :
  ok results -> ok (alter drop_sh port results).
Proof.
  intros H key l e. rewrite lookup_alter. case_decide as Hk; [|by apply H].
  subst key. destruct (results !! port) as [old|] eqn:Hold; [|done].
  simpl. intros [= <-] He. apply (H port old e Hold). by apply drop_sh_subset.
Qed.

Lemma read_lsof_ok (ports : list string) (results res : gmap string (list entry))
    (lines : list string) :
  read_lsof ownPid script ports results lines = Some res -> ok results -> ok res.
Proof.
  unfold read_lsof. intros Hr H.
  destruct (parse_lines _ _ _ _ _) as [[results' ourConnection]|] eqn:Hp; [|done].
  injection Hr as <-.
  pose proof (parse_lines_ok _ _ _ _ Hp H) as H'. simpl in H'.
  unfold drop_own_sh. destruct ourConnection as [[iPort oPort]|]; [|done].
  by repeat apply alter_drop_sh_ok.
Qed.

Lemma ok_empty : ok ∅.
Proof. intros key l e H. by rewrite lookup_empty in H. Qed.

Lemma sound_finish (w : world) (i : nat) (e : ending) :
  sound ownPid script w ->
  match e with
  | Return r _ =>
      scriptName r = script /\ -1 <= failureCount r /\
      (failureCount r <> -1 -> queryResults r = ∅) /\ ok (queryResults r)
  | Raise => True
  end ->
  sound ownPid script (finish i e w).
Proof.
  intros (Hs & Hf & He & Hc & Ht) H. unfold sound.
  rewrite finish_obj, finish_threads.
  assert (Hthreads : forall t, t = Returned \/ t = Died ->
            Forall (fun t => ok (thread_results t)) (<[i := t]> (threads w))).
  { intros t Hdone. apply Forall_insert; [done|].
    destruct Hdone as [-> | ->]; apply ok_empty. }
  destruct e as [r notified|].
  - destruct H as (? & ? & ? & ?).
    split; [done|]. split; [done|]. split; [done|]. split; [done|].
    apply Hthreads. by left.
  - split; [done|]. split; [done|]. split; [done|]. split; [done|].
    apply Hthreads. by right.
Qed.

Lemma sound_after_lsof (w : world) (ports : list string)
    (results : gmap string (list entry)) (out : option (list string)) :
  sound ownPid script w -> ok results ->
  match after_lsof ownPid ports results out (obj w) with
  | Return r _ =>
      scriptName r = script /\ -1 <= failureCount r /\
      (failureCount r <> -1 -> queryResults r = ∅) /\ ok (queryResults r)
  | Raise => True
  end.
Proof.
  intros (Hs & Hf & He & Hc & Ht) Hres. unfold after_lsof.
  assert (Hfail : negb (failureCount (obj w) =? -1) = true ->
            scriptName (obj w) = script /\ -1 <= failureCount (obj w) + 1 /\
            (failureCount (obj w) + 1 <> -1 -> queryResults (obj w) = ∅) /\
            ok (queryResults (obj w))).
  { intros Hn. apply negb_true_iff, Z.eqb_neq in Hn.
    split; [done|]. split; [lia|]. split; [|done]. intros _. by apply He. }
  assert (Hpub : forall res, ok res ->
            scriptName (obj w) = script /\ -1 <= -1 /\
            (-1 <> -1 -> res = ∅) /\ ok res).
  { intros res Hok. split; [done|]. split; [lia|]. split; [done|done]. }
  destruct out as [[|line rest]|].
  - destruct (negb _) eqn:Hn; simpl; [by apply Hfail|by apply Hpub].
  - rewrite Hs. destruct (read_lsof _ _ _ _ _) as [res|] eqn:Hr; [|done].
    simpl. rewrite <- Hs at 1. apply Hpub. by eapply read_lsof_ok.
  - destruct (negb _) eqn:Hn; simpl; [by apply Hfail|by apply Hpub].
Qed.

Lemma sound_step (w : world) (e : event) :
  sound ownPid script w -> sound ownPid script (step ownPid w e).
Proof.
  intros Hw. pose proof Hw as (Hs & Hf & He & Hc & Ht).
  destruct e as [ports|caller maxWait|i|i out|caller]; simpl.
  - unfold resolve. destruct (failureCount (obj w) <? 3); [|done].
    split; [done|]. split; [done|]. split; [done|]. split; [done|].
    simpl. apply Forall_app. split; [done|].
    apply Forall_singleton. apply ok_empty.
  - by destruct (getResults_blocks _ _).
  - destruct (threads w !! i) as [t|] eqn:Hi; [|done].
    destruct t as [ports|ports results cmd| |]; try done.
    destruct ports as [|p ports].
    + apply sound_finish; [done|]. unfold clear_results.
      split; [done|]. split; [done|]. split; [done|]. apply ok_empty.
    + pose proof (partition_ports_ok (queryResults (obj w)) (p :: ports) Hc) as Hpart.
      destruct (partition_ports _ _) as [results [|a lsofArgs]]; simpl in Hpart.
      * apply sound_finish; [done|]. by apply sound_after_lsof.
      * split; [done|]. split; [done|]. split; [done|]. split; [done|].
        simpl. by apply Forall_insert.
  - destruct (threads w !! i) as [t|] eqn:Hi; [|done].
    pose proof (Forall_lookup_1 _ _ _ _ Ht Hi) as Hres.
    destruct t as [ports|ports results cmd| |]; try done.
    apply sound_finish; [done|]. by apply sound_after_lsof.
  - done.
Qed.

Lemma sound_run (es : list event) :
  forall w : world, sound ownPid script w -> sound ownPid script (run ownPid w es).
Proof.
  induction es as [|e es IH]; intros w Hw; [done|].
  apply (IH (step ownPid w e)). by apply sound_step.
Qed.

Lemma sound_fresh : sound ownPid script (fresh script).
Proof.
  split; [done|]. split; [simpl; lia|]. split; [done|]. split; [apply ok_empty|].
  constructor.
Qed.

End WorkerFacts.

Section WorkerFacts2.
Import AppResolver.

#[local] Arguments partition_ports : simpl never.

Lemma all_cached_no_args (cache : gmap string (list entry)) (ports : list string) :
  (forall p, p ∈ ports -> is_Some (cache !! p)) ->
  snd (partition_ports cache ports) = [].
Proof.
  intros H. rewrite partition_ports_args.
  replace (filter (fun port => cache !! port = None) ports) with (@nil string); [done|].
  symmetry. induction ports as [|p ports IH]; [done|].
  rewrite filter_cons_False.
  - apply IH. intros q Hq. apply H. by apply list_elem_of_further.
  - destruct (H p (list_elem_of_here _ _)) as [v Hv]. by rewrite Hv.
Qed.

(** [drop_sh] takes out the first entry whose command is [sh], and only it. *)
Lemma drop_sh_spec (l : list entry) :
  (Forall (fun e => entry_cmd e <> "sh") l /\ drop_sh l = l) \/
  (exists before e after,
     l = before ++ e :: after /\ entry_cmd e = "sh" /\
     Forall (fun x => entry_cmd x <> "sh") before /\
     drop_sh l = before ++ after).
Proof.
  induction l as [|x l IH]; [by left|]. simpl.
  destruct (String.eqb_spec (entry_cmd x) "sh") as [Hx|Hx].
  - right. by exists [], x, l.
  - destruct IH as [[Hall ->]|(before & e & after & -> & He & Hb & ->)].
    + left. split; [by constructor|done].
    + right. exists (x :: before), e, after. repeat split; try done. by constructor.
Qed.

End WorkerFacts2.


(** X11. Every entry [getResults] can hand out is filed under one of its own
    two ports, both of its ports are numeric, and an entry of the resolver's
    own process carries [scriptName] as its command. *)
Theorem results_are_well_formed (ownPid script : string) (es : list AppResolver.event)
    (key : string) (l : list AppResolver.entry) (e : AppResolver.entry) :
  let w := AppResolver.run ownPid (AppResolver.fresh script) es in
  AppResolver.getResults_value (AppResolver.obj w) !! key = Some l -> e ∈ l ->
  (key = AppResolver.entry_iPort e \/ key = AppResolver.entry_oPort e) /\
  Py.isdigit (AppResolver.entry_iPort e) = true /\
  Py.isdigit (AppResolver.entry_oPort e) = true /\
  (AppResolver.entry_pid e = ownPid -> AppResolver.entry_cmd e = script).
Proof.
  intros w Hk He.
  destruct (sound_run ownPid script es _ (sound_fresh ownPid script))
    as (_ & _ & _ & Hok & _).
  exact (Hok key l e Hk He).
Qed.

(** X11 on the listing of the source's comment: the entry of our own process
    2462 found under port 37277. *)
Lemma results_are_well_formed_witness :
  let es := [AppResolver.CallResolve ["37277"]; AppResolver.WorkerStarts 0;
             AppResolver.LsofReturns 0 (Some
               ["python  2462 atagar    3u  IPv4  14047      0t0  TCP localhost:37277->localhost:9051 (ESTABLISHED)"])] in
  let e := ("37277", "9051", "arm", "2462") in
  AppResolver.getResults_value
    (AppResolver.obj (AppResolver.run "2462" (AppResolver.fresh "arm") es)) !! "37277"
    = Some [e] /\
  Py.isdigit (AppResolver.entry_iPort e) = true /\
  AppResolver.entry_cmd e = "arm".
Proof.
  intros es e.
  assert (Hk : AppResolver.getResults_value
                 (AppResolver.obj (AppResolver.run "2462" (AppResolver.fresh "arm") es))
                 !! "37277" = Some [e]) by (vm_compute; reflexivity).
  destruct (results_are_well_formed "2462" "arm" es "37277" [e] e Hk
              (list_elem_of_here _ _)) as (_ & Hi & _ & Hc).
  exact (conj Hk (conj Hi (Hc eq_refl))).
Defined.

(** X12. A worker reuses what is cached and asks lsof for the rest: its
    [results] start as the cache cut down to the requested ports, and when
    some requested port is not cached it issues one lsof command with one
    [-i tcp:<port>] for each such port, in the order requested, leaving the
    instance untouched until lsof answers. *)
Theorem worker_asks_for_uncached_ports (ownPid : string) (w : AppResolver.world)
    (i : nat) (ports : list string) (p : string)
    (Hi : AppResolver.threads w !! i = Some (AppResolver.Started ports))
    (Hp : p ∈ ports)
    (Hmiss : AppResolver.queryResults (AppResolver.obj w) !! p = None) :
  let cache := AppResolver.queryResults (AppResolver.obj w) in
  exists results,
    AppResolver.step ownPid w (AppResolver.WorkerStarts i) =
      AppResolver.set_thread i
        (AppResolver.Calling ports results
           ("lsof -nP " +:+
            Py.join " " ((fun port => "-i tcp:" +:+ port) <$>
                         filter (fun port => cache !! port = None) ports)))
        w /\
    forall q, results !! q = if bool_decide (q ∈ ports) then cache !! q else None.
Proof.
  intros cache. exists (fst (AppResolver.partition_ports cache ports)).
  split; [|intros q; apply partition_ports_lookup].
  simpl. rewrite Hi.
  destruct ports as [|p0 ports]; [by apply elem_of_nil in Hp|].
  pose proof (partition_ports_args cache (p0 :: ports)) as Ha.
  fold cache. destruct (AppResolver.partition_ports cache (p0 :: ports))
    as [results lsofArgs]. simpl in Ha |- *. rewrite <- Ha.
  destruct lsofArgs as [|a lsofArgs]; [|done].
  exfalso. symmetry in Ha. apply fmap_nil_inv in Ha.
  assert (Hin : p ∈ filter (fun port => cache !! port = None) (p0 :: ports))
    by (by apply list_elem_of_filter).
  rewrite Ha in Hin. by apply elem_of_nil in Hin.
Qed.

(** X12 on a resolver that holds port 37277 and is asked for three ports. *)
Lemma worker_asks_for_uncached_ports_witness :
  let line := "tor 2001 atagar 14u IPv4 14048 0t0 TCP localhost:9051->localhost:37277 (ESTABLISHED)" in
  let w := AppResolver.run "2462" (AppResolver.fresh "python")
             [AppResolver.CallResolve ["37277"]; AppResolver.WorkerStarts 0;
              AppResolver.LsofReturns 0 (Some [line]);
              AppResolver.CallResolve ["80"; "37277"; "443"]] in
  exists results,
    AppResolver.threads (AppResolver.step "2462" w (AppResolver.WorkerStarts 1)) !! 1%nat
      = Some (AppResolver.Calling ["80"; "37277"; "443"] results
                "lsof -nP -i tcp:80 -i tcp:443") /\
    results !! "37277" = Some [("9051", "37277", "tor", "2001")] /\
    results !! "80" = None.
Proof.
  intros line w.
  destruct (worker_asks_for_uncached_ports "2462" w 1 ["80"; "37277"; "443"] "80")
    as (results & Hstep & Hl); [reflexivity|apply list_elem_of_here|reflexivity|].
  exists results. split; [by rewrite Hstep|].
  split; [exact (Hl "37277")|exact (Hl "80")].
Defined.

(** X13. When every requested port is cached, and a query has succeeded
    before, the worker calls lsof not at all: whatever lsof would answer, it
    publishes the cache cut down to the requested ports, clears the flag and
    notifies the waiters. *)
Theorem cached_ports_skip_lsof (ownPid : string) (r : AppResolver.AppResolver)
    (ports : list string)
    (Hports : ports <> [])
    (Hcached : forall p, p ∈ ports -> is_Some (AppResolver.queryResults r !! p))
    (Hok : AppResolver.failureCount r = -1) :
  exists r',
    (forall call, AppResolver._queryApplications ownPid call ports r
                  = AppResolver.Return r' true) /\
    AppResolver.failureCount r' = -1 /\ AppResolver.isResolving r' = false /\
    forall q, AppResolver.queryResults r' !! q =
              if bool_decide (q ∈ ports) then AppResolver.queryResults r !! q else None.
Proof.
  pose proof (all_cached_no_args _ _ Hcached) as Hargs.
  pose proof (partition_ports_lookup (AppResolver.queryResults r) ports) as Hl.
  destruct (AppResolver.partition_ports (AppResolver.queryResults r) ports)
    as [results lsofArgs] eqn:Hpart. simpl in Hargs, Hl. subst lsofArgs.
  exists (AppResolver.mkAppResolver (AppResolver.scriptName r) results false (-1)).
  split; [|by repeat split].
  intros call. unfold AppResolver._queryApplications.
  destruct ports as [|p ports]; [done|]. rewrite Hpart.
  unfold AppResolver.after_lsof. by rewrite Hok.
Qed.

(** X13 on a resolver that holds ports 37277 and 9051 and is asked for the
    first: the second is dropped from the cache. *)
Lemma cached_ports_skip_lsof_witness :
  let entry := ("9051", "37277", "tor", "2001") in
  let r := AppResolver.mkAppResolver "python"
             {[ "37277" := [entry]; "9051" := [entry] ]} true (-1) in
  let published :=
    AppResolver.Return
      (AppResolver.mkAppResolver "python" {[ "37277" := [entry] ]} false (-1)) true in
  AppResolver._queryApplications "2462" (fun _ => None) ["37277"] r = published /\
  AppResolver._queryApplications "2462" (fun _ => Some ["x"]) ["37277"] r = published.
Proof.
  intros entry r published.
  destruct (cached_ports_skip_lsof "2462" r ["37277"]) as (r' & Hcall & _).
  - discriminate.
  - intros p Hp. apply list_elem_of_singleton in Hp as ->. by eexists.
  - reflexivity.
  - assert (Hr' : AppResolver.Return r' true = published).
    { rewrite <- (Hcall (fun _ => None)). by vm_compute. }
    split; [by rewrite (Hcall (fun _ => None))|by rewrite (Hcall (fun _ => Some ["x"]))].
Defined.

(** X14. The clean-up of lines 511-519 removes from a list of entries the
    first one whose command is [sh] and nothing else; a list without such an
    entry is left as it is. *)
Theorem drop_sh_removes_first_sh (l : list AppResolver.entry) :
  (Forall (fun e => AppResolver.entry_cmd e <> "sh") l /\ AppResolver.drop_sh l = l) \/
  (exists before e after,
     l = before ++ e :: after /\ AppResolver.entry_cmd e = "sh" /\
     Forall (fun x => AppResolver.entry_cmd x <> "sh") before /\
     AppResolver.drop_sh l = before ++ after).
Proof. apply drop_sh_spec. Qed.

Section MalformedLines.
Import AppThreads.
Variables ownPid script : string.
Variable ports : list string.

#[local] Arguments add_entry : simpl never.

#[local] Abbreviation malformed := (fun line => AppResolver.malformed_shape line = true).
#[local] Abbreviation wellformed := (fun line => AppResolver.malformed_shape line = false).

Lemma grown_refl (h : heap) : grown h h.
Proof. intros a l Hl. exists []. by rewrite app_nil_r. Qed.

Lemma grown_trans (h1 h2 h3 : heap) : grown h1 h2 -> grown h2 h3 -> grown h1 h3.
Proof.
  intros H12 H23 a l Hl. destruct (H12 a l Hl) as [m1 H1].
  destruct (H23 a _ H1) as [m2 H2]. exists (m1 ++ m2). by rewrite app_assoc.
Qed.

Lemma add_entry_grown (newEntry : entry) (acc : heap * dict) (portMatch : string) :
  grown (fst acc) (fst (add_entry ports newEntry acc portMatch)).
Proof.
  unfold add_entry. case_bool_decide; [|apply grown_refl].
  destruct acc as [h results]. cbn [fst snd].
  destruct (results !! portMatch) as [a|]; intros b l Hl; cbn [fst].
  - destruct (decide (a = b)) as [->|Hne].
    + exists [newEntry]. by rewrite list_lookup_alter_eq, Hl.
    + exists []. by rewrite list_lookup_alter_ne, app_nil_r.
  - exists []. rewrite app_nil_r. by apply lookup_app_l_Some.
Qed.

Lemma parse_line_raises (acc : heap * dict * option (string * string)) (line : string) :
  parse_line ownPid script ports acc line = None <-> malformed line.
Proof.
  unfold AppResolver.malformed_shape, parse_line.
  repeat (case_match; simplify_eq/=; try done).
Qed.

Lemma parse_line_grown (acc acc' : heap * dict * option (string * string))
    (line : string) :
  parse_line ownPid script ports acc line = Some acc' ->
  grown (fst (fst acc)) (fst (fst acc')).
Proof.
  unfold parse_line. intros H.
  repeat (case_match; simplify_eq/=; try apply grown_refl);
    match goal with
    | |- grown _ (fst (add_entry _ ?e (add_entry _ _ ?a ?p) _)) =>
        eapply grown_trans; [apply (add_entry_grown e a p)|apply add_entry_grown]
    end.
Qed.

(** The reading ends with an exception exactly when a line is malformed, and
    then the lists are as the lines before the first such line left them. *)
Lemma parse_lines_raises (lines : list string) :
  forall acc,
    (exists h, parse_lines ownPid script ports acc lines = Raised h) <->
    Exists malformed lines.
Proof.
  induction lines as [|line lines IH]; intros acc; simpl.
  - split; [by intros [h ?]|]. intros H. by apply Exists_nil in H.
  - rewrite Exists_cons.
    destruct (parse_line ownPid script ports acc line) as [acc'|] eqn:Hl.
    + rewrite IH. split; [by right|]. intros [Hm|He]; [|done].
      apply (parse_line_raises acc) in Hm. congruence.
    + split; [|by eexists]. intros _. left. by eapply parse_line_raises.
Qed.

Lemma parse_lines_raised (lines : list string) :
  forall acc h,
    parse_lines ownPid script ports acc lines = Raised h ->
    exists good bad rest results ours,
      lines = good ++ bad :: rest /\ Forall wellformed good /\ malformed bad /\
      parse_lines ownPid script ports acc good = Parsed h results ours.
Proof.
  induction lines as [|line lines IH]; intros acc h; simpl; [done|].
  destruct (parse_line ownPid script ports acc line) as [acc'|] eqn:Hl.
  - intros H. destruct (IH acc' h H) as (good & bad & rest & res & ours & -> & Hg & Hb & Hp).
    exists (line :: good), bad, rest, res, ours. simpl. rewrite Hl.
    split; [done|]. split; [|done]. apply Forall_cons_2; [|done].
    destruct (AppResolver.malformed_shape line) eqn:Hm; [|done].
    apply (parse_line_raises acc) in Hm. congruence.
  - intros [= <-]. exists [], line, lines, (snd (fst acc)), (snd acc).
    split; [done|]. split; [apply Forall_nil_2|]. split; [|done].
    by eapply parse_line_raises.
Qed.

Lemma parse_lines_grown (lines : list string) :
  forall acc,
    grown (fst (fst acc))
          match parse_lines ownPid script ports acc lines with
          | Parsed h _ _ | Raised h => h
          end.
Proof.
  induction lines as [|line lines IH]; intros acc; simpl; [apply grown_refl|].
  destruct (parse_line ownPid script ports acc line) as [acc'|] eqn:Hl;
    [|apply grown_refl].
  eapply grown_trans; [by eapply parse_line_grown|apply IH].
Qed.

End MalformedLines.

(** X15. The worker ends with an exception exactly when lsof printed a line
    of ten fields ending in [(ESTABLISHED)] whose port map has an arrow but
    does not split into two sides with a colon each.  Then nothing is
    published: no attribute of the instance is assigned, so the cache holds
    the lists it held, the counter and the flag stay as they were, and nobody
    asleep in [getResults] is woken.  The lists themselves are as the lines
    before the first such line left them: every list that was there is still
    there and has kept what it held, with the entries of these lines appended
    to those the worker had taken from the cache. *)
Theorem malformed_line_kills_worker (ownPid : string) (w : AppThreads.world)
    (i : nat) (ports : list string) (results : AppThreads.dict)
    (command line : string) (rest : list string)
    (Hi : AppThreads.threads w !! i = Some (AppThreads.Calling ports results command)) :
  let script := AppThreads.scriptName (AppThreads.obj w) in
  let w' := AppThreads.step ownPid w (AppThreads.LsofReturns i (Some (line :: rest))) in
  (AppThreads.threads w' !! i = Some AppThreads.Died <->
   Exists (fun l => AppResolver.malformed_shape l = true) (line :: rest)) /\
  (Exists (fun l => AppResolver.malformed_shape l = true) (line :: rest) ->
   AppThreads.obj w' = AppThreads.obj w /\
   AppThreads.waiting w' = AppThreads.waiting w /\
   AppThreads.threads w' = <[i := AppThreads.Died]> (AppThreads.threads w) /\
   (exists good bad after results' ours,
      line :: rest = good ++ bad :: after /\
      Forall (fun l => AppResolver.malformed_shape l = false) good /\
      AppResolver.malformed_shape bad = true /\
      AppThreads.parse_lines ownPid script ports
        (AppThreads.lists w, results, None) good =
        AppThreads.Parsed (AppThreads.lists w') results' ours) /\
   AppThreads.grown (AppThreads.lists w) (AppThreads.lists w')).
Proof.
  intros script w'. subst w'. simpl. rewrite Hi. unfold AppThreads.after_call.
  fold script. unfold AppThreads.read_lsof.
  pose proof (parse_lines_raises ownPid script ports (line :: rest)
                (AppThreads.lists w, results, None)) as Hraise.
  pose proof (parse_lines_raised ownPid script ports (line :: rest)
                (AppThreads.lists w, results, None)) as Hprefix.
  pose proof (parse_lines_grown ownPid script ports (line :: rest)
                (AppThreads.lists w, results, None)) as Hgrown.
  apply lookup_lt_Some in Hi as Hlt.
  destruct (AppThreads.parse_lines _ _ _ _ _) as [h res ours|h].
  - simpl. rewrite list_lookup_insert_eq by done. split.
    + split; [done|]. intros H. apply Hraise in H as [h' H]. done.
    + intros H. apply Hraise in H as [h' H]. done.
  - simpl. rewrite list_lookup_insert_eq by done. split.
    + split; [intros _; apply Hraise; by eexists|done].
    + intros _. split; [done|]. split; [done|]. split; [done|].
      split; [exact (Hprefix h eq_refl)|exact Hgrown].
Qed.

(** X15 on a worker that died with a list of the cache in its hands.  Port
    80 is cached with one entry; a worker for the ports 80 and 81 takes the
    cached list and asks lsof for port 81; lsof prints a connection between
    the two ports and then a line whose port map has no colon on its left.
    The worker is gone and has published nothing, the flag is still set and
    the caller still asleep, yet [getResults] now finds the entry of the first
    line under port 80. *)
Lemma malformed_line_kills_worker_witness :
  let first := "tor 2001 atagar 14u IPv4 14048 0t0 TCP localhost:9051->localhost:80 (ESTABLISHED)" in
  let good := "wget 3001 atagar 14u IPv4 14048 0t0 TCP localhost:81->localhost:80 (ESTABLISHED)" in
  let bad := "tor 2001 atagar 14u IPv4 14048 0t0 TCP localhost->remote:80 (ESTABLISHED)" in
  let w := AppThreads.run "2462" (AppThreads.fresh "python")
             [AppThreads.CallResolve ["80"]; AppThreads.WorkerStarts 0;
              AppThreads.LsofReturns 0 (Some [first]); AppThreads.Publishes 0;
              AppThreads.CallResolve ["80"; "81"]; AppThreads.CallGetResults 7 5;
              AppThreads.WorkerStarts 1]%nat in
  let w' := AppThreads.step "2462" w (AppThreads.LsofReturns 1 (Some [good; bad])) in
  AppThreads.getResults_value w !! "80" = Some [("9051", "80", "tor", "2001")] /\
  AppThreads.threads w' = [AppThreads.Returned; AppThreads.Died] /\
  AppThreads.obj w' = AppThreads.obj w /\
  AppThreads.isResolving (AppThreads.obj w') = true /\
  AppThreads.waiting w' = [7%nat] /\
  AppThreads.getResults_value w' !! "80" =
    Some [("9051", "80", "tor", "2001"); ("81", "80", "wget", "3001")] /\
  AppResolver.malformed_shape
    "tor 2001 atagar 14u IPv4 14048 0t0 TCP a:1->b:2->c:80 (ESTABLISHED)" = true.
Proof.
  intros first good bad w w'.
  destruct (malformed_line_kills_worker "2462" w 1 ["80"; "81"] {[ "80" := 0%nat ]}
              "lsof -nP -i tcp:81" good [bad] ltac:(by vm_compute)) as (_ & H).
  destruct (H ltac:(apply Exists_cons_tl, Exists_cons_hd; by vm_compute))
    as (Ho & Hw & Ht & _ & _).
  fold w' in Ho, Hw, Ht.
  split; [by vm_compute|]. split; [by rewrite Ht|]. split; [exact Ho|].
  split; [by rewrite Ho|]. split; [by rewrite Hw|].
  split; by vm_compute.
Defined.

Section OtherLines.
Import AppResolver.

Lemma parse_line_other (ownPid script : string) (ports : list string)
    (acc : gmap string (list entry) * option (string * string)) (line : string) :
  established_shape line = false ->
  parse_line ownPid script ports acc line = Some acc.
Proof.
  unfold established_shape, parse_line. intros H.
  repeat (case_match; simplify_eq/=; try done).
Qed.

Lemma parse_lines_other (ownPid script : string) (ports : list string)
    (lines : list string) :
  forall acc,
    Forall (fun line => established_shape line = false) lines ->
    parse_lines ownPid script ports acc lines = Some acc.
Proof.
  induction lines as [|line lines IH]; intros acc H; [done|].
  apply Forall_cons in H as [Hl H]. simpl.
  rewrite (parse_line_other _ _ _ _ _ Hl). by apply IH.
Qed.

End OtherLines.

(** X16. Lines that do not have the shape of an established connection (the
    header, listening sockets, short lines) are passed over without effect and
    without error.  A listing made of such lines only still counts as a
    success: the worker publishes the cached entries it reused and nothing
    else, sets the failure counter to [-1] and notifies the waiters. *)
Theorem other_lines_are_ignored (ownPid : string) (r : AppResolver.AppResolver)
    (ports : list string) (results : gmap string (list AppResolver.entry))
    (line : string) (rest : list string)
    (Hshape : Forall (fun l => AppResolver.established_shape l = false) (line :: rest)) :
  AppResolver.read_lsof ownPid (AppResolver.scriptName r) ports results (line :: rest)
    = Some results /\
  AppResolver.after_lsof ownPid ports results (Some (line :: rest)) r
    = AppResolver.Return
        (AppResolver.mkAppResolver (AppResolver.scriptName r) results false (-1)) true.
Proof.
  assert (Hread : AppResolver.read_lsof ownPid (AppResolver.scriptName r) ports results
                    (line :: rest) = Some results).
  { unfold AppResolver.read_lsof. by rewrite (parse_lines_other _ _ _ _ _ Hshape). }
  split; [exact Hread|]. unfold AppResolver.after_lsof. by rewrite Hread.
Qed.

(** X16 on a header line and a listening socket, for a resolver that has
    failed twice. *)
Lemma other_lines_are_ignored_witness :
  let lines := ["COMMAND  PID   USER   FD   TYPE DEVICE SIZE/OFF NODE NAME";
                "tor     2001 atagar    7u  IPv4  14000      0t0  TCP *:9051 (LISTEN)"] in
  AppResolver.after_lsof "2462" ["9051"] ∅ (Some lines)
    (AppResolver.mkAppResolver "python" ∅ true 2)
    = AppResolver.Return (AppResolver.mkAppResolver "python" ∅ false (-1)) true.
Proof.
  intros lines.
  apply (other_lines_are_ignored "2462" (AppResolver.mkAppResolver "python" ∅ true 2)
           ["9051"] ∅).
  repeat (apply Forall_cons_2; [by vm_compute|]). apply Forall_nil_2.
Defined.

(** ** More on the port usage registry *)

Section PortUsageMore.
Import PortUsage.

Lemma digit_is_no_dash (c : ascii) : Py.is_digit_char c = true -> Ascii.eqb c "-" = false.
Proof.
  unfold Py.is_digit_char. destruct (Ascii.eqb_spec c "-") as [->|]; [|done].
  by vm_compute.
Qed.

Lemma all_digits_no_dash (s : string) :
  Py.all_digits s = true -> Py.find_char "-" s = None.
Proof.
  induction s as [|c s IH]; simpl; [done|].
  intros H. apply andb_true_iff in H as [Hc Hs].
  rewrite (digit_is_no_dash c Hc). by rewrite IH.
Qed.

Lemma isdigit_all_digits (s : string) : Py.isdigit s = true -> Py.all_digits s = true.
Proof. by destruct s. Qed.

(** A range entry that parses, in one equation. *)
Lemma conf_handler_range (r : registry) (value los his : string) (lo hi : Z) :
  Py.int los = Some lo -> Py.int his = Some hi -> Py.find_char "-" los = None ->
  conf_handler ("port.label." +:+ los +:+ "-" +:+ his) value r =
    if lo >? hi
    then log_notice ("Unable to parse port range for entry: "
                     +:+ "port.label." +:+ los +:+ "-" +:+ his) r
    else fill_range lo hi value r.
Proof.
  intros Hlo Hhi Hdash. unfold conf_handler.
  rewrite (startswith_app "port.label.").
  change (Py.drop 11 ("port.label." +:+ los +:+ "-" +:+ his))
    with (los +:+ String "-" his).
  rewrite (find_char_app _ _ _ Hdash), take_app.
  replace (Py.drop (S (String.length los)) (los +:+ String "-" his)) with his.
  - by rewrite Hlo, Hhi.
  - clear. induction los as [|a l IH]; simpl; [by destruct his|done].
Qed.


Lemma same_table_keeps (value : string) (r r' : registry) :
  PORT_USAGE r' = PORT_USAGE r ->
  (notices r' = notices r \/ exists msg, notices r' = notices r ++ [msg]) ->
  (forall k, is_Some (PORT_USAGE r !! k) -> is_Some (PORT_USAGE r' !! k)) /\
  (forall k label, PORT_USAGE r' !! k = Some label ->
                   label = value \/ PORT_USAGE r !! k = Some label) /\
  (notices r' = notices r \/ exists msg, notices r' = notices r ++ [msg]).
Proof. intros -> Hn. split; [done|]. split; [by right|done]. Qed.

(** One entry never takes a label away and logs one notice at most. *)
Lemma conf_handler_keeps (key value : string) (r : registry) :
  (forall k, is_Some (PORT_USAGE r !! k) ->
             is_Some (PORT_USAGE (conf_handler key value r) !! k)) /\
  (forall k label, PORT_USAGE (conf_handler key value r) !! k = Some label ->
                   label = value \/ PORT_USAGE r !! k = Some label) /\
  (notices (conf_handler key value r) = notices r \/
   exists msg, notices (conf_handler key value r) = notices r ++ [msg]).
Proof.
  assert (Hlog : forall msg,
            PORT_USAGE (log_notice msg r) = PORT_USAGE r /\
            (notices (log_notice msg r) = notices r \/
             exists m, notices (log_notice msg r) = notices r ++ [m])).
  { intros msg. split; [done|]. right. by exists msg. }
  unfold conf_handler.
  destruct (Py.startswith _ key); [|by apply same_table_keeps; [|left]].
  destruct (Py.find_char _ _) as [divIndex|].
  - destruct (Py.int _) as [minPort|]; [|apply same_table_keeps; apply Hlog].
    destruct (Py.int _) as [maxPort|]; [|apply same_table_keeps; apply Hlog].
    destruct (minPort >? maxPort); [apply same_table_keeps; apply Hlog|].
    unfold fill_range. split; [|split].
    + intros k Hk.
      destruct (fill_ports_lookup value (Py.range minPort (maxPort + 1)) r k) as [_ ->].
      by case_bool_decide.
    + intros k label.
      destruct (fill_ports_lookup value (Py.range minPort (maxPort + 1)) r k) as [_ ->].
      case_bool_decide; [intros [= <-]; by left|by right].
    + left. apply (fill_ports_lookup value _ r (PyStr "")).
  - destruct (Py.isdigit _); [|apply same_table_keeps; apply Hlog].
    split; [|split; [|by left]]; simpl.
    + intros k Hk. destruct (decide (PyStr (Py.drop 11 key) = k)) as [<-|Hne].
      * by rewrite lookup_insert_eq.
      * by rewrite lookup_insert_ne.
    + intros k label. destruct (decide (PyStr (Py.drop 11 key) = k)) as [<-|Hne].
      * rewrite lookup_insert_eq. intros [= <-]. by left.
      * rewrite lookup_insert_ne by done. by right.
Qed.

End PortUsageMore.

(** X17. A single-port entry [port.label.<port>] whose port is numeric labels
    that port, under its text, and changes nothing else: every other lookup
    answers as before and nothing is logged. *)
Theorem single_port_entry (r : PortUsage.registry) (port value : string)
    (Hd : Py.isdigit port = true) :
  let r' := PortUsage.conf_handler ("port.label." +:+ port) value r in
  PortUsage.getPortUsage (PortUsage.PyStr port) r' = Some value /\
  (forall k, k <> PortUsage.PyStr port ->
             PortUsage.getPortUsage k r' = PortUsage.getPortUsage k r) /\
  PortUsage.notices r' = PortUsage.notices r.
Proof.
  intros r'. subst r'. unfold PortUsage.conf_handler.
  rewrite (startswith_app "port.label.").
  change (Py.drop 11 ("port.label." +:+ port)) with port.
  rewrite (all_digits_no_dash port (isdigit_all_digits port Hd)), Hd.
  unfold PortUsage.getPortUsage. simpl. split; [apply lookup_insert_eq|].
  split; [|done]. intros k Hk. by apply lookup_insert_ne.
Qed.

(** X17 for port 443 on a table that labels port 80. *)
Lemma single_port_entry_witness :
  let r := PortUsage.conf_handler "port.label.80" "HTTP" PortUsage.initial in
  let r' := PortUsage.conf_handler "port.label.443" "HTTPS" r in
  PortUsage.getPortUsage (PortUsage.PyStr "443") r' = Some "HTTPS" /\
  PortUsage.getPortUsage (PortUsage.PyStr "80") r' = Some "HTTP" /\
  PortUsage.notices r' = [].
Proof.
  intros r r'.
  destruct (single_port_entry r "443" "HTTPS" eq_refl) as (Hnew & Hold & Hlog).
  exact (conj Hnew (conj (Hold (PortUsage.PyStr "80") ltac:(discriminate)) Hlog)).
Defined.

(** X18. Loading configuration entries never takes a label away: a port that
    has a label keeps one, every label in the table afterwards is an old one
    or the value of a loaded entry, and the log only grows, by one notice per
    entry at most. *)
Theorem load_keeps_labels (entries : list (string * string)) (r : PortUsage.registry) :
  let r' := PortUsage.load entries r in
  (forall k, is_Some (PortUsage.getPortUsage k r) ->
             is_Some (PortUsage.getPortUsage k r')) /\
  (forall k label, PortUsage.getPortUsage k r' = Some label ->
     PortUsage.getPortUsage k r = Some label \/ label ∈ snd <$> entries) /\
  exists more, PortUsage.notices r' = PortUsage.notices r ++ more /\
               (length more <= length entries)%nat.
Proof.
  revert r. induction entries as [|[key value] entries IH]; intros r r'.
  - subst r'. simpl. split; [done|]. split; [by left|].
    exists []. by rewrite app_nil_r.
  - subst r'. unfold PortUsage.load. simpl.
    fold (PortUsage.load entries (PortUsage.conf_handler key value r)).
    destruct (conf_handler_keeps key value r) as (Hk1 & Hv1 & Hn1).
    destruct (IH (PortUsage.conf_handler key value r)) as (Hk2 & Hv2 & more & Hn2 & Hlen).
    unfold PortUsage.getPortUsage in *. split; [|split].
    + intros k Hk. by apply Hk2, Hk1.
    + intros k label Hl. destruct (Hv2 k label Hl) as [Hmid|Hin].
      * destruct (Hv1 k label Hmid) as [->|Hold]; [|by left].
        right. apply list_elem_of_here.
      * right. by apply list_elem_of_further.
    + destruct Hn1 as [Hsame|[msg Hmsg]].
      * exists more. rewrite Hn2, Hsame. split; [done|lia].
      * exists (msg :: more). rewrite Hn2, Hmsg, <- app_assoc. split; [done|simpl; lia].
Qed.



(** ** Decimal text of a port and back *)

Section Decimal.

Lemma pretty_char_digit (d : N) :
  (d < 10)%N -> Ascii.is_nat (pretty_N_char d) = Some (N.to_nat d).
Proof.
  intros H.
  assert (d = 0 \/ d = 1 \/ d = 2 \/ d = 3 \/ d = 4 \/ d = 5 \/ d = 6 \/ d = 7
          \/ d = 8 \/ d = 9)%N as Hd by lia.
  repeat (destruct Hd as [->|Hd]; [done|]). by subst.
Qed.

(** Reading back what [pretty_N_go] wrote in front of [s]. *)
Lemma digits_value_go (x : N) :
  forall s, Py.digits_value 0 (pretty_N_go x s) = Py.digits_value (Z.of_N x) s.
Proof.
  induction (N.lt_wf_0 x) as [x _ IH]. intros s.
  destruct (decide (x = 0%N)) as [->|Hx]; [by rewrite pretty_N_go_0|].
  rewrite pretty_N_go_step by lia. rewrite IH by (apply N.div_lt; lia).
  simpl. rewrite pretty_char_digit by (apply N.mod_lt; lia).
  f_equal. rewrite N_nat_Z. pose proof (N.div_mod x 10). lia.
Qed.

Lemma all_digits_go (x : N) :
  forall s, Py.all_digits s = true -> Py.all_digits (pretty_N_go x s) = true.
Proof.
  induction (N.lt_wf_0 x) as [x _ IH]. intros s Hs.
  destruct (decide (x = 0%N)) as [->|Hx]; [by rewrite pretty_N_go_0|].
  rewrite pretty_N_go_step by lia. apply IH; [apply N.div_lt; lia|].
  simpl. rewrite Hs, andb_true_r. unfold Py.is_digit_char.
  by rewrite pretty_char_digit by (apply N.mod_lt; lia).
Qed.

Lemma go_not_empty (x : N) :
  forall s, s <> EmptyString -> pretty_N_go x s <> EmptyString.
Proof.
  induction (N.lt_wf_0 x) as [x _ IH]. intros s Hs.
  destruct (decide (x = 0%N)) as [->|Hx]; [by rewrite pretty_N_go_0|].
  rewrite pretty_N_go_step by lia. apply IH; [apply N.div_lt; lia|done].
Qed.

(** The text of a port number is a string of digits that reads as that
    number. *)
Lemma str_digits (n : Z) :
  0 <= n ->
  Py.isdigit (Py.str n) = true /\ Py.digits_value 0 (Py.str n) = Some n.
Proof.
  intros Hn. destruct n as [|x|x]; [done| |lia].
  unfold Py.str, pretty, pretty_Z, pretty, pretty_positive, pretty, pretty_N.
  rewrite decide_False by done. split.
  - assert (Hne : pretty_N_go (N.pos x) "" <> EmptyString).
    { rewrite pretty_N_go_step by lia. by apply go_not_empty. }
    assert (Hall : Py.all_digits (pretty_N_go (N.pos x) "") = true)
      by (by apply all_digits_go).
    by destruct (pretty_N_go (N.pos x) "").
  - by rewrite digits_value_go.
Qed.

Lemma rev_app_rev_app (s a b : string) :
  String.rev_app (String.rev_app s a) b = String.rev_app a (s +:+ b).
Proof.
  revert a b. induction s as [|c s IH]; intros a b; [done|].
  change (String.rev_app (String.rev_app s (String c a)) b
          = String.rev_app a (String c (s +:+ b))).
  by rewrite IH.
Qed.

Lemma string_app_empty (s : string) : s +:+ EmptyString = s.
Proof.
  induction s as [|c s IH]; [done|].
  change (String c s +:+ EmptyString) with (String c (s +:+ EmptyString)).
  by rewrite IH.
Qed.

Lemma rev_rev (s : string) : String.rev (String.rev s) = s.
Proof.
  unfold String.rev. rewrite rev_app_rev_app. apply string_app_empty.
Qed.

Lemma rev_app_all_digits (s a : string) :
  Py.all_digits s = true -> Py.all_digits a = true ->
  Py.all_digits (String.rev_app s a) = true.
Proof.
  revert a. induction s as [|c s IH]; intros a Hs Ha; [done|].
  simpl in Hs. apply andb_true_iff in Hs as [Hc Hs].
  simpl. apply IH; [done|]. simpl. by rewrite Hc, Ha.
Qed.

Lemma digit_is_no_space (c : ascii) : Py.is_digit_char c = true -> Ascii.is_space c = false.
Proof.
  unfold Py.is_digit_char.
  destruct c as [[] [] [] [] [] [] [] []]; try done.
Qed.

Lemma lstrip_digits (s : string) : Py.all_digits s = true -> Py.lstrip s = s.
Proof.
  destruct s as [|c s]; [done|]. simpl. intros H.
  apply andb_true_iff in H as [Hc _]. by rewrite (digit_is_no_space c Hc).
Qed.

Lemma strip_digits (s : string) : Py.all_digits s = true -> Py.strip s = s.
Proof.
  intros H. unfold Py.strip. rewrite (lstrip_digits s H).
  rewrite lstrip_digits by (by apply rev_app_all_digits).
  apply rev_rev.
Qed.

(** [int] of a string of digits is its value. *)
Lemma int_digits (s : string) (v : Z) :
  Py.isdigit s = true -> Py.digits_value 0 s = Some v -> Py.int s = Some v.
Proof.
  intros Hd Hv. unfold Py.int. rewrite strip_digits by (by destruct s).
  destruct s as [|c s]; [done|]. simpl in Hd.
  apply andb_true_iff in Hd as [Hc _]. unfold Py.is_digit_char in Hc.
  destruct c as [[] [] [] [] [] [] [] []]; try done.
Qed.

Lemma int_str (n : Z) : 0 <= n -> Py.int (Py.str n) = Some n.
Proof.
  intros Hn. destruct (str_digits n Hn) as [Hd Hv]. by apply int_digits.
Qed.

End Decimal.

(** X20. [int] undoes [str] on port numbers, which is what makes a range
    entry mean what it says: for port numbers [0 <= lo <= hi <= 65535], the
    entry [port.label.<lo>-<hi>], written in decimal, labels every port from
    [lo] to [hi], changes the answer for no other port, and logs nothing.
    The bound keeps the list of line 55 to at most 65536 numbers; for a range
    too long to be built [range] raises, which is outside [Py.range]. *)
Theorem range_entry_by_numbers (r : PortUsage.registry) (value : string) (lo hi : Z)
    (Hlo : 0 <= lo) (Hhi : lo <= hi) (Hport : hi <= 65535) :
  let key := "port.label." +:+ Py.str lo +:+ "-" +:+ Py.str hi in
  let r' := PortUsage.conf_handler key value r in
  Py.int (Py.str lo) = Some lo /\ Py.int (Py.str hi) = Some hi /\
  PortUsage.notices r' = PortUsage.notices r /\
  forall p : Z,
    PortUsage.getPortUsage (PortUsage.PyStr (Py.str p)) r' =
      if bool_decide (lo <= p <= hi) then Some value
      else PortUsage.getPortUsage (PortUsage.PyStr (Py.str p)) r.
Proof.
  intros key r'.
  pose proof (int_str lo Hlo) as Hilo. pose proof (int_str hi ltac:(lia)) as Hihi.
  destruct (str_digits lo Hlo) as [Hd _].
  pose proof (all_digits_no_dash _ (isdigit_all_digits _ Hd)) as Hdash.
  split; [done|]. split; [done|].
  subst r' key. rewrite (conf_handler_range r value _ _ lo hi Hilo Hihi Hdash).
  destruct (Z.gtb_spec lo hi) as [?|_]; [lia|].
  unfold PortUsage.fill_range. split.
  - apply (fill_ports_lookup value _ r (PortUsage.PyStr "")).
  - intros p. unfold PortUsage.getPortUsage.
    destruct (fill_ports_lookup value (Py.range lo (hi + 1)) r
                (PortUsage.PyStr (Py.str p))) as [_ ->].
    pose proof (str_in_range lo hi p).
    repeat case_bool_decide; try done; tauto.
Qed.

(** X20 for the ports 6660 to 6669. *)
Lemma range_entry_by_numbers_witness :
  let r := PortUsage.conf_handler "port.label.6660-6669" "IRC" PortUsage.initial in
  PortUsage.getPortUsage (PortUsage.PyStr "6667") r = Some "IRC" /\
  PortUsage.getPortUsage (PortUsage.PyStr "6670") r = None.
Proof.
  intros r.
  destruct (range_entry_by_numbers PortUsage.initial "IRC" 6660 6669
              ltac:(lia) ltac:(lia) ltac:(lia)) as (_ & _ & _ & H).
  exact (conj (H 6667) (H 6670)).
Defined.

(** ** The polling rate over time *)

Section RateFacts.
Import ConnResolver.

(** What a cycle does to the rate and its debounce counter. *)
Lemma poll_cycle_rate (s : ConnectionResolver) (now : Q) (o : outcome) :
  let s' := state (poll_cycle now o s) in
  (defaultRate s' = defaultRate s /\
   (_rateThresholdBroken s' = _rateThresholdBroken s \/
    _rateThresholdBroken s' = 0 \/
    (_rateThresholdBroken s' = _rateThresholdBroken s + 1 /\
     _rateThresholdBroken s < 3))) \/
  (exists conns t, o = QueryOk conns t /\ (defaultRate s < 100 * t)%Q /\
     defaultRate s' = (100 * t + (1 # 2))%Q /\
     _rateThresholdBroken s' = _rateThresholdBroken s /\
     3 <= _rateThresholdBroken s).
Proof.
  intros s'. subst s'.
  destruct (truthy_str (current_resolver s)) as [r|] eqn:Hc.
  - destruct o as [conns t|exc].
    + destruct (poll_ok s now t conns r Hc) as (_ & _ & _ & _ & _ & _ & _ & _ & Hp).
      destruct (Qlt_le_dec _ _) as [Hlt|Hle].
      * destruct (Z.leb_spec 3 (_rateThresholdBroken s)); injection Hp as H1 H2.
        -- right. exists conns, t. auto.
        -- left. auto.
      * injection Hp as H1 H2. left. auto.
    + left. unfold poll_cycle. rewrite Hc. unfold note_failure. simpl.
      destruct (is_default s); [|by auto].
      destruct (RESOLVER_FAILURE_TOLERANCE <=? _); by auto.
  - rewrite (poll_without_resolver s now o Hc). left. by auto.
Qed.

Lemma apply_op_rate (s : ConnectionResolver) (x : op) :
  (defaultRate s <= defaultRate (apply_op s x))%Q /\
  (0 <= _rateThresholdBroken s <= 3 -> 0 <= _rateThresholdBroken (apply_op s x) <= 3).
Proof.
  assert (Hsame : (defaultRate s <= defaultRate s)%Q) by apply Qle_refl.
  destruct x as [r|pid|b| |start now o]; simpl; try done.
  - unfold setPaused. by destruct (Bool.eqb _ _).
  - unfold run_iteration. destruct (_halt s); [done|].
    destruct (_isPaused s || _); [done|].
    destruct (poll_cycle_rate s now o)
      as [(-> & Hb)|(conns & t & _ & Hlt & -> & -> & Hb)].
    + split; [done|]. intros Hr. destruct Hb as [->|[->|[-> ?]]]; lia.
    + split; [lra|lia].
Qed.

End RateFacts.

(** X21. The default rate only ever rises: whatever is called on a resolver
    and however its polls end, [defaultRate] afterwards is at least what it
    was, so never below the configured minimum, and the debounce counter
    stays between zero and three. *)
Theorem default_rate_only_rises (minRate : Q) (options : list string)
    (name pid : string) (rate : option Q) (alias : option string)
    (xs ys : list ConnResolver.op) :
  let s := ConnResolver.apply_ops
             (ConnResolver.init minRate options name pid rate alias) xs in
  let s' := ConnResolver.apply_ops s ys in
  (minRate <= ConnResolver.defaultRate s)%Q /\
  (ConnResolver.defaultRate s <= ConnResolver.defaultRate s')%Q /\
  0 <= ConnResolver._rateThresholdBroken s' <= 3.
Proof.
  assert (Hrun : forall zs s0,
            (ConnResolver.defaultRate s0
             <= ConnResolver.defaultRate (ConnResolver.apply_ops s0 zs))%Q /\
            (0 <= ConnResolver._rateThresholdBroken s0 <= 3 ->
             0 <= ConnResolver._rateThresholdBroken (ConnResolver.apply_ops s0 zs) <= 3)).
  { induction zs as [|z zs IH]; intros s0.
    - split; [apply Qle_refl|done].
    - destruct (apply_op_rate s0 z) as [Hr Hb].
      destruct (IH (ConnResolver.apply_op s0 z)) as [Hr' Hb'].
      split; [by eapply Qle_trans|auto]. }
  intros s s'.
  destruct (Hrun xs (ConnResolver.init minRate options name pid rate alias)) as [Hr Hb].
  destruct (Hrun ys s) as [Hr' Hb'].
  split; [exact Hr|]. split; [exact Hr'|]. apply Hb', Hb. simpl. lia.
Qed.

(** ** Lists in place and lists by value *)

Section InPlace.
Import AppThreads.
Variables ownPid script : string.
Variable ports : list string.

#[local] Arguments add_entry : simpl never.
#[local] Arguments AppResolver.add_entry : simpl never.

Lemma contents_lookup (h : heap) (d : dict) (p : string) :
  contents h d !! p = d !! p ≫= (fun a => h !! a).
Proof. unfold contents. by rewrite lookup_omap. Qed.

(** Addresses stay good when no list goes away. *)
Lemma separate_kept (h h' : heap) (d : dict) :
  (forall a, is_Some (h !! a) -> is_Some (h' !! a)) ->
  separate h d -> separate h' d.
Proof. intros Hk [Hv Hi]. split; [|done]. intros p a Hp. apply Hk. by eapply Hv. Qed.

Lemma alter_kept (f : list entry -> list entry) (a : nat) (h : heap) (b : nat) :
  is_Some (h !! b) -> is_Some (alter f a h !! b).
Proof. rewrite !lookup_lt_is_Some. by rewrite length_alter. Qed.

Lemma grown_kept (h h' : heap) (b : nat) :
  grown h h' -> is_Some (h !! b) -> is_Some (h' !! b).
Proof. intros Hg [l Hl]. destruct (Hg b l Hl) as [more Hm]. by eexists. Qed.

(** Changing the list at the address a port holds changes what is found
    under that port, and under no other. *)
Lemma contents_alter (f : list entry -> list entry) (h : heap) (d : dict)
    (p : string) (a : nat) :
  separate h d -> d !! p = Some a ->
  contents (alter f a h) d = alter f p (contents h d).
Proof.
  intros [Hv Hi] Hp. apply map_eq. intros q. rewrite contents_lookup.
  destruct (decide (p = q)) as [<-|Hne].
  - rewrite lookup_alter_eq, contents_lookup, !Hp. simpl.
    by rewrite list_lookup_alter_eq.
  - rewrite lookup_alter_ne, contents_lookup by done.
    destruct (d !! q) as [b|] eqn:Hq; [|done]. simpl.
    rewrite list_lookup_alter_ne; [done|].
    intros <-. apply Hne. by eapply Hi.
Qed.

(** A new list under a port that had none. *)
Lemma contents_new (h : heap) (d : dict) (p : string) (l : list entry) :
  separate h d ->
  contents (h ++ [l]) (<[p := length h]> d) = <[p := l]> (contents h d).
Proof.
  intros [Hv Hi]. apply map_eq. intros q. rewrite contents_lookup.
  destruct (decide (p = q)) as [<-|Hne].
  - rewrite !lookup_insert_eq. simpl. by apply list_lookup_middle.
  - rewrite !lookup_insert_ne, contents_lookup by done.
    destruct (d !! q) as [b|] eqn:Hq; [|done]. simpl.
    destruct (Hv q b Hq) as [x Hx]. rewrite Hx. by apply lookup_app_l_Some.
Qed.

Lemma separate_new (h : heap) (d : dict) (p : string) (l : list entry) :
  separate h d -> d !! p = None -> separate (h ++ [l]) (<[p := length h]> d).
Proof.
  intros [Hv Hi] Hp.  split.
  - intros q a. rewrite lookup_insert_Some. intros [[_ <-]|[_ Hq]].
    + exists l. by apply list_lookup_middle.
    + destruct (Hv q a Hq) as [x Hx]. exists x. by apply lookup_app_l_Some.
  - intros q1 q2 a. rewrite !lookup_insert_Some.
    assert (Hold : forall q, d !! q = Some (length h) -> False).
    { intros q Hq. destruct (Hv q _ Hq) as [x Hx].
      apply lookup_lt_Some in Hx. lia. }
    intros [[<- <-]|[? H1]] [[<- E]|[? H2]]; try done.
    + exfalso. by eapply Hold.
    + exfalso. subst a. by eapply Hold.
    + by eapply Hi.
Qed.

(** Lines 501-505 in place and on the contents. *)
Lemma add_entry_contents (newEntry : entry) (acc : heap * dict) (portMatch : string) :
  separate (fst acc) (snd acc) ->
  let out := add_entry ports newEntry acc portMatch in
  separate (fst out) (snd out) /\
  contents (fst out) (snd out) =
    AppResolver.add_entry ports newEntry (contents (fst acc) (snd acc)) portMatch.
Proof.
  destruct acc as [h d]. cbv zeta. cbn [fst snd].
  intros Hsep. unfold add_entry, AppResolver.add_entry.
  case_bool_decide; [|done]. cbn [fst snd]. rewrite contents_lookup.
  destruct (d !! portMatch) as [a|] eqn:Hp; cbn [fst snd mbind option_bind].
  - destruct Hsep as [Hv Hi]. destruct (Hv _ _ Hp) as [l Hl]. rewrite Hl.
    split.
    + eapply separate_kept; [|by split]. intros b. apply alter_kept.
    + rewrite (contents_alter _ h d portMatch a) by done.
      apply map_eq. intros q. destruct (decide (portMatch = q)) as [<-|Hne].
      * by rewrite lookup_alter_eq, lookup_insert_eq, contents_lookup, Hp; simpl; rewrite Hl.
      * by rewrite lookup_alter_ne, lookup_insert_ne.
  - split; [by apply separate_new|by apply contents_new].
Qed.

Lemma add_entries_contents (newEntry : entry) (acc : heap * dict) (a b : string) :
  separate (fst acc) (snd acc) ->
  let out := add_entry ports newEntry (add_entry ports newEntry acc a) b in
  separate (fst out) (snd out) /\
  contents (fst out) (snd out) =
    AppResolver.add_entry ports newEntry
      (AppResolver.add_entry ports newEntry (contents (fst acc) (snd acc)) a) b.
Proof.
  intros Hsep out. subst out.
  destruct (add_entry_contents newEntry acc a Hsep) as [H1 E1].
  destruct (add_entry_contents newEntry _ b H1) as [H2 E2].
  split; [done|]. by rewrite E2, E1.
Qed.

(** Lines 481-505 in place and on the contents. *)
Lemma parse_line_contents (acc : heap * dict * option (string * string)) (line : string) :
  separate (fst (fst acc)) (snd (fst acc)) ->
  match parse_line ownPid script ports acc line with
  | Some acc' =>
      separate (fst (fst acc')) (snd (fst acc')) /\
      AppResolver.parse_line ownPid script ports
        (contents (fst (fst acc)) (snd (fst acc)), snd acc) line =
        Some (contents (fst (fst acc')) (snd (fst acc')), snd acc')
  | None =>
      AppResolver.parse_line ownPid script ports
        (contents (fst (fst acc)) (snd (fst acc)), snd acc) line = None
  end.
Proof.
  intros Hsep. unfold parse_line, AppResolver.parse_line.
  repeat (case_match; simplify_eq/=; try done);
    match goal with
    | |- context [add_entry _ ?e (add_entry _ _ ?a ?p) ?q] =>
        destruct (add_entries_contents e a p q Hsep) as [Hout Eout];
        cbv zeta in Hout, Eout; split; [exact Hout|by rewrite Eout]
    end.
Qed.

Lemma parse_lines_contents (lines : list string) :
  forall acc : heap * dict * option (string * string),
    separate (fst (fst acc)) (snd (fst acc)) ->
    match parse_lines ownPid script ports acc lines with
    | Parsed h' d' ours' =>
        separate h' d' /\
        AppResolver.parse_lines ownPid script ports
          (contents (fst (fst acc)) (snd (fst acc)), snd acc) lines =
          Some (contents h' d', ours')
    | Raised _ =>
        AppResolver.parse_lines ownPid script ports
          (contents (fst (fst acc)) (snd (fst acc)), snd acc) lines = None
    end.
Proof.
  induction lines as [|line lines IH]; intros acc Hsep; simpl; [done|].
  pose proof (parse_line_contents acc line Hsep) as Hl.
  destruct (parse_line ownPid script ports acc line) as [acc'|].
  - destruct Hl as [Hsep' ->]. apply (IH acc' Hsep').
  - by rewrite Hl.
Qed.

(** Lines 509-519 in place and on the contents. *)
Lemma drop_at_contents (h : heap) (d : dict) (ourPort : string) :
  separate h d ->
  separate (drop_at d h ourPort) d /\
  contents (drop_at d h ourPort) d = alter AppResolver.drop_sh ourPort (contents h d).
Proof.
  intros Hsep. unfold drop_at. destruct (d !! ourPort) as [a|] eqn:Hp.
  - split; [|by apply contents_alter].
    eapply separate_kept; [|done]. intros b. apply alter_kept.
  - split; [done|]. apply map_eq. intros q.
    destruct (decide (ourPort = q)) as [<-|Hne].
    + by rewrite lookup_alter_eq, contents_lookup, Hp.
    + by rewrite lookup_alter_ne.
Qed.

Lemma drop_own_sh_contents (ours : option (string * string)) (h : heap) (d : dict) :
  separate h d ->
  separate (drop_own_sh ours d h) d /\
  contents (drop_own_sh ours d h) d = AppResolver.drop_own_sh ours (contents h d).
Proof.
  intros Hsep. destruct ours as [[iPort oPort]|]; [|done]. simpl.
  destruct (drop_at_contents h d iPort Hsep) as [H1 E1].
  destruct (drop_at_contents _ d oPort H1) as [H2 E2].
  split; [done|]. by rewrite E2, E1.
Qed.

Lemma read_lsof_contents (h : heap) (d : dict) (lines : list string) :
  separate h d ->
  match read_lsof ownPid script ports h d lines with
  | Parsed h' d' _ =>
      separate h' d' /\
      AppResolver.read_lsof ownPid script ports (contents h d) lines =
        Some (contents h' d')
  | Raised _ =>
      AppResolver.read_lsof ownPid script ports (contents h d) lines = None
  end.
Proof.
  intros Hsep. unfold read_lsof, AppResolver.read_lsof.
  pose proof (parse_lines_contents lines (h, d, None) Hsep) as Hp. simpl in Hp.
  destruct (parse_lines ownPid script ports (h, d, None) lines) as [h' d' ours|h'].
  - destruct Hp as [Hsep' ->].
    destruct (drop_own_sh_contents ours h' d' Hsep') as [H E].
    split; [done|]. by rewrite E.
  - by rewrite Hp.
Qed.



(** Lines 461-464 on addresses. *)
Lemma partition_dict_lookup (cache : dict) (ps : list string) (q : string) :
  fst (partition_ports cache ps) !! q =
    if bool_decide (q ∈ ps) then cache !! q else None.
Proof.
  unfold partition_ports.
  destruct (partition_fold cache ps ∅ []) as [Hl _]. rewrite Hl.
  rewrite lookup_empty. case_bool_decide; [|done]. by destruct (cache !! q).
Qed.

Lemma partition_dict_args (cache : dict) (ps : list string) :
  snd (partition_ports cache ps) =
    (fun port => "-i tcp:" +:+ port) <$> filter (fun port => cache !! port = None) ps.
Proof.
  unfold partition_ports. by destruct (partition_fold cache ps ∅ []) as [_ ->].
Qed.

Lemma partition_separate (h : heap) (cache : dict) (ps : list string) :
  separate h cache -> separate h (fst (partition_ports cache ps)).
Proof.
  intros [Hv Hi]. split.
  - intros p a. rewrite partition_dict_lookup. case_bool_decide; [|done]. apply Hv.
  - intros p q a. rewrite !partition_dict_lookup.
    repeat case_bool_decide; try done. apply Hi.
Qed.

Lemma partition_contents (h : heap) (cache : dict) (ps : list string) :
  separate h cache ->
  contents h (fst (partition_ports cache ps)) =
    fst (AppResolver.partition_ports (contents h cache) ps) /\
  snd (partition_ports cache ps) =
    snd (AppResolver.partition_ports (contents h cache) ps).
Proof.
  intros [Hv Hi]. split.
  - apply map_eq. intros q.
    rewrite contents_lookup, partition_dict_lookup, partition_ports_lookup.
    case_bool_decide; [|done]. by rewrite contents_lookup.
  - rewrite partition_dict_args, partition_ports_args. f_equal.
    apply list_filter_iff. intros p. rewrite contents_lookup.
    destruct (cache !! p) as [a|] eqn:Hp; [|done]. simpl.
    destruct (Hv p a Hp) as [l Hl]. by rewrite Hl.
Qed.

(** Reading never takes a list away. *)
Lemma read_lsof_kept (h : heap) (d : dict) (lines : list string) (b : nat) :
  is_Some (h !! b) ->
  is_Some (match read_lsof ownPid script ports h d lines with
           | Parsed h' _ _ | Raised h' => h'
           end !! b).
Proof.
  intros Hb. unfold read_lsof.
  pose proof (parse_lines_grown ownPid script ports lines (h, d, None)) as Hg.
  destruct (parse_lines ownPid script ports (h, d, None) lines) as [h' d' ours|h'];
    simpl in Hg; apply (grown_kept _ _ b Hg) in Hb; [|done].
  destruct ours as [[iPort oPort]|]; [|done]. simpl.
  unfold drop_at. repeat case_match; try done; repeat apply alter_kept; done.
Qed.

End InPlace.

Section ReachableLists.
Import AppThreads.
Variable ownPid : string.

#[local] Arguments after_call : simpl never.
#[local] Arguments partition_ports : simpl never.
#[local] Arguments read_lsof : simpl never.

Lemma separate_empty (h : heap) : separate h ∅.
Proof. split; [intros p a|intros p q a]; by rewrite lookup_empty. Qed.

(** A step that keeps the lists and the cache and moves one worker. *)
Lemma set_thread_separate (i : nat) (t : thread) (w : world) :
  separate (lists w) (thread_results t) -> dicts_separate w ->
  dicts_separate (set_thread i t w).
Proof.
  intros Ht [Hc Hw]. split; [done|]. simpl. by apply Forall_insert.
Qed.

Lemma set_obj_separate (r : AppResolver) (w : world) :
  separate (lists w) (queryResults r) -> dicts_separate w ->
  dicts_separate (set_obj r w).
Proof. intros Hr [Hc Hw]. by split. Qed.

Lemma set_lists_separate (h : heap) (w : world) :
  (forall a, is_Some (lists w !! a) -> is_Some (h !! a)) ->
  dicts_separate w -> dicts_separate (set_lists h w).
Proof.
  intros Hk [Hc Hw]. split; simpl.
  - by eapply separate_kept.
  - eapply Forall_impl; [exact Hw|]. intros t Ht. by eapply separate_kept.
Qed.

Lemma after_call_separate (ports : list string) (results : dict)
    (o : option (list string)) (i : nat) (w : world) :
  separate (lists w) results -> dicts_separate w ->
  dicts_separate (after_call ownPid ports results o i w).
Proof.
  intros Hr Hw. unfold after_call.
  destruct o as [[|line rest]|];
    try (destruct (negb _); apply set_thread_separate; try done; apply separate_empty).
  pose proof (read_lsof_contents ownPid (scriptName (obj w)) ports
                (lists w) results (line :: rest) Hr) as Hread.
  pose proof (read_lsof_kept ownPid (scriptName (obj w)) ports
                (lists w) results (line :: rest)) as Hkept.
  destruct (read_lsof _ _ _ _ _ _) as [h' results' ours|h'].
  - apply set_thread_separate; [by destruct Hread|]. by apply set_lists_separate.
  - apply set_thread_separate; [apply separate_empty|]. by apply set_lists_separate.
Qed.

Lemma separate_step (w : world) (e : event) :
  dicts_separate w -> dicts_separate (step ownPid w e).
Proof.
  intros Hw. pose proof Hw as [Hc Ht].
  assert (Hres : forall i t, threads w !! i = Some t ->
                             separate (lists w) (thread_results t)).
  { intros i t Hi. exact (Forall_lookup_1 _ _ _ _ Ht Hi). }
  destruct e as [ports|caller maxWait|caller|i|i out|i|i|i|i|i]; simpl.
  - unfold resolve. destruct (failureCount (obj w) <? 3); [|done].
    split; [done|]. simpl. apply Forall_app. split; [done|].
    apply Forall_cons_2; [apply separate_empty|apply Forall_nil_2].
  - by destruct (getResults_blocks _ _).
  - done.
  - destruct (threads w !! i) as [[ports| | | | | | |]|] eqn:Hi; try done.
    destruct ports as [|p ports].
    + split; [apply separate_empty|]. simpl. apply Forall_insert; [done|].
      apply separate_empty.
    + pose proof (partition_separate (lists w) (queryResults (obj w)) (p :: ports) Hc)
        as Hp.
      destruct (partition_ports _ _) as [results [|a lsofArgs]].
      * by apply after_call_separate.
      * by apply set_thread_separate.
  - destruct (threads w !! i) as [[|ports results cmd| | | | | |]|] eqn:Hi; try done.
    apply after_call_separate; [|done]. exact (Hres _ _ Hi).
  - destruct (threads w !! i) as [[|ports results cmd| | | | | |]|] eqn:Hi; try done.
    apply set_thread_separate; [apply separate_empty|done].
  - destruct (threads w !! i) as [[| | | | | | |]|] eqn:Hi; try done.
    apply set_thread_separate; [apply separate_empty|done].
  - destruct (threads w !! i) as [[| | |seen| | | |]|] eqn:Hi; try done.
    apply set_thread_separate; [apply separate_empty|]. by apply set_obj_separate.
  - destruct (threads w !! i) as [[| | | | | | |]|] eqn:Hi; try done.
    apply set_thread_separate; [apply separate_empty|]. by apply set_obj_separate.
  - destruct (threads w !! i) as [[| | | | |results| |]|] eqn:Hi; try done.
    pose proof (Hres _ _ Hi) as Hr.
    assert (H : dicts_separate
                  (set_thread i Returned
                     (set_obj (mkAppResolver (scriptName (obj w)) results false (-1)) w))).
    { apply set_thread_separate; [apply separate_empty|]. by apply set_obj_separate. }
    destruct H as [H1 H2]. by split.
Qed.

Lemma separate_run (es : list event) :
  forall w : world, dicts_separate w -> dicts_separate (run ownPid w es).
Proof.
  induction es as [|e es IH]; intros w Hw; [done|].
  apply (IH (step ownPid w e)). by apply separate_step.
Qed.

Lemma separate_fresh (script : string) : dicts_separate (fresh script).
Proof. split; [apply separate_empty|apply Forall_nil_2]. Qed.

(** [scriptName] is never assigned after [__init__]. *)
Lemma scriptName_step (w : world) (e : event) :
  scriptName (obj (step ownPid w e)) = scriptName (obj w).
Proof.
  destruct e as [ports|caller maxWait|caller|i|i out|i|i|i|i|i]; simpl.
  - unfold resolve. by destruct (failureCount (obj w) <? 3).
  - by destruct (getResults_blocks _ _).
  - done.
  - destruct (threads w !! i) as [[ports| | | | | | |]|]; try done.
    destruct ports as [|p ports]; [done|].
    destruct (partition_ports _ _) as [results [|a lsofArgs]]; [|done].
    by rewrite after_call_obj.
  - destruct (threads w !! i) as [[|ports results cmd| | | | | |]|]; try done.
    by rewrite after_call_obj.
  - by destruct (threads w !! i) as [[| | | | | | |]|].
  - by destruct (threads w !! i) as [[| | | | | | |]|].
  - by destruct (threads w !! i) as [[| | | | | | |]|].
  - by destruct (threads w !! i) as [[| | | | | | |]|].
  - by destruct (threads w !! i) as [[| | | | | | |]|].
Qed.

Lemma scriptName_run (es : list event) :
  forall w : world, scriptName (obj (run ownPid w es)) = scriptName (obj w).
Proof.
  induction es as [|e es IH]; intros w; [done|].
  unfold run. simpl. fold (run ownPid (step ownPid w e) es).
  by rewrite IH, scriptName_step.
Qed.

End ReachableLists.

(** X22. Whatever has happened to a resolver since it was made, every
    address in the cache and in the [results] of a worker is that of a list
    that exists, and no dict holds one list under two ports: line 505 makes a
    new list for the port that has none, and line 463 hands a list on under
    the port it is cached under.  So [getResults] finds a list under every
    port of the cache. *)
Theorem lists_stay_separate (ownPid script : string) (es : list AppThreads.event) :
  let w := AppThreads.run ownPid (AppThreads.fresh script) es in
  AppThreads.separate (AppThreads.lists w) (AppThreads.queryResults (AppThreads.obj w)) /\
  (forall i t, AppThreads.threads w !! i = Some t ->
     AppThreads.separate (AppThreads.lists w) (AppThreads.thread_results t)) /\
  (forall p, is_Some (AppThreads.getResults_value w !! p) <->
             is_Some (AppThreads.queryResults (AppThreads.obj w) !! p)).
Proof.
  intros w.
  destruct (separate_run ownPid es _ (separate_fresh script)) as [Hc Ht].
  fold w in Hc, Ht. split; [exact Hc|]. split.
  - intros i t Hi. exact (Forall_lookup_1 _ _ _ _ Ht Hi).
  - intros p. unfold AppThreads.getResults_value. rewrite contents_lookup.
    destruct (AppThreads.queryResults (AppThreads.obj w) !! p) as [a|] eqn:Hp; simpl.
    + split; [by eexists|]. intros _. destruct Hc as [Hv _]. by eapply Hv.
    + split; by intros [? ?].
Qed.

(** X23. In every state a resolver can get into, what a worker does to the
    list objects comes to what the functions of [AppResolver] compute on
    their contents.  A worker that starts with ports of which some are not
    cached issues the command computed from the contents of the cache and
    holds the cached lists as its [results]; when lsof answers with lines, the
    worker ends with an exception exactly when the reading of the contents
    does, and otherwise goes on to publish [results] whose lists hold what
    that reading gives; and after it has published, [getResults] finds what
    its [results] held. *)
Theorem worker_reads_by_value (ownPid script : string) (es : list AppThreads.event)
    (i : nat) :
  let w := AppThreads.run ownPid (AppThreads.fresh script) es in
  (forall p ports results lsofArgs,
     AppThreads.threads w !! i = Some (AppThreads.Started (p :: ports)) ->
     AppResolver.partition_ports (AppThreads.getResults_value w) (p :: ports) =
       (results, lsofArgs) ->
     lsofArgs <> [] ->
     exists d,
       AppThreads.threads (AppThreads.step ownPid w (AppThreads.WorkerStarts i)) !! i =
         Some (AppThreads.Calling (p :: ports) d ("lsof -nP " +:+ Py.join " " lsofArgs)) /\
       AppThreads.contents (AppThreads.lists w) d = results) /\
  (forall ports d command line rest,
     AppThreads.threads w !! i = Some (AppThreads.Calling ports d command) ->
     let w' := AppThreads.step ownPid w
                 (AppThreads.LsofReturns i (Some (line :: rest))) in
     let before := AppThreads.contents (AppThreads.lists w) d in
     (forall results,
        AppResolver.read_lsof ownPid script ports before (line :: rest) = Some results ->
        exists d',
          AppThreads.threads w' !! i = Some (AppThreads.Publishing d') /\
          AppThreads.contents (AppThreads.lists w') d' = results) /\
     (AppResolver.read_lsof ownPid script ports before (line :: rest) = None ->
      AppThreads.threads w' !! i = Some AppThreads.Died)) /\
  (forall d,
     AppThreads.threads w !! i = Some (AppThreads.Publishing d) ->
     AppThreads.getResults_value (AppThreads.step ownPid w (AppThreads.Publishes i)) =
       AppThreads.contents (AppThreads.lists w) d).
Proof.
  intros w.
  destruct (separate_run ownPid es _ (separate_fresh script)) as [Hc Ht].
  pose proof (scriptName_run ownPid es (AppThreads.fresh script)) as Hs.
  fold w in Hc, Ht, Hs. simpl in Hs.
  split; [|split].
  - intros p ports results lsofArgs Hi Hp Hargs. simpl. rewrite Hi.
    destruct (partition_contents (AppThreads.lists w)
                (AppThreads.queryResults (AppThreads.obj w)) (p :: ports) Hc) as [E1 E2].
    unfold AppThreads.getResults_value in Hp. rewrite Hp in E1, E2. simpl in E1, E2.
    destruct (AppThreads.partition_ports _ _) as [d args]. simpl in E1, E2. subst args.
    destruct lsofArgs as [|a lsofArgs]; [done|].
    exists d. split; [|done]. simpl.
    apply list_lookup_insert_eq. by eapply lookup_lt_Some.
  - intros ports d command line rest Hi w' before. subst w' before. simpl. rewrite Hi.
    unfold AppThreads.after_call. rewrite Hs.
    pose proof (Forall_lookup_1 _ _ _ _ Ht Hi) as Hd. simpl in Hd.
    pose proof (read_lsof_contents ownPid script ports (AppThreads.lists w) d
                  (line :: rest) Hd) as Hread.
    apply lookup_lt_Some in Hi as Hlt.
    destruct (AppThreads.read_lsof _ _ _ _ _ _) as [h' d' ours|h'].
    + destruct Hread as [_ ->]. split; [|done]. intros results [= <-].
      exists d'. simpl. split; [|done]. by apply list_lookup_insert_eq.
    + rewrite Hread. split; [done|]. intros _. simpl. by apply list_lookup_insert_eq.
  - intros d Hi. simpl. by rewrite Hi.
Qed.

(** X23 on a worker that holds the cached list of port 80 and reads a
    connection between the ports 81 and 80: the entry is appended to the
    cached list and starts a new list for port 81. *)
Lemma worker_reads_by_value_witness :
  let first := "tor 2001 atagar 14u IPv4 14048 0t0 TCP localhost:9051->localhost:80 (ESTABLISHED)" in
  let good := "wget 3001 atagar 14u IPv4 14048 0t0 TCP localhost:81->localhost:80 (ESTABLISHED)" in
  let es := [AppThreads.CallResolve ["80"]; AppThreads.WorkerStarts 0;
             AppThreads.LsofReturns 0 (Some [first]); AppThreads.Publishes 0;
             AppThreads.CallResolve ["80"; "81"]; AppThreads.WorkerStarts 1]%nat in
  let w := AppThreads.run "2462" (AppThreads.fresh "python") es in
  let w' := AppThreads.step "2462" w (AppThreads.LsofReturns 1 (Some [good])) in
  exists d',
    AppThreads.threads w' !! 1%nat = Some (AppThreads.Publishing d') /\
    AppThreads.contents (AppThreads.lists w') d' =
      {[ "80" := [("9051", "80", "tor", "2001"); ("81", "80", "wget", "3001")];
         "81" := [("81", "80", "wget", "3001")] ]}.
Proof.
  intros first good es w w'.
  destruct (worker_reads_by_value "2462" "python" es 1) as (_ & Hread & _).
  destruct (Hread ["80"; "81"] {[ "80" := 0%nat ]} "lsof -nP -i tcp:81" good []
              ltac:(by vm_compute)) as [Hsome _].
  exact (Hsome _ ltac:(by vm_compute)).
Defined.
